(** * fromEds: conversion of EDS blocks and tables to custom-element markup

    A shallow embedding of the [EDSBlockDeserializer] class of
    [from-eds.js] and a verification of its documented behaviour.

    Conventions of the embedding.
    - A JavaScript string is the list of its UTF-16 code units ([list N]).
    - A DOM node is a tree ([node]); the converter never mutates the
      parsed input (it clones, or builds fresh elements), so nodes are
      values.  All elements are HTML elements of an HTML document; an
      element stores its lower-case local name ([tagName] of the DOM is
      its upper-case form).
    - What the browser provides and the repository does not define (the
      HTML parser, the HTML serialiser, [String.prototype.toLowerCase],
      the validity test on element and attribute names) is a field of
      the record [Platform].
    - The two private maps of the class are the record [deserializer],
      threaded through the entry points.
    - [convertBlock] and [convertTable] recurse through the identifier
      maps; the embedding bounds the recursion with a fuel argument and
      an exception of the DOM is a value of [error]. *)

From Stdlib Require Import NArith List String Ascii Lia.
From Stdlib Require DecimalString DecimalN.
From stdpp Require Import base option list gmap.

#[local] Set Warnings "-register-all".

Import ListNotations.
Local Open Scope N_scope.
Local Open Scope list_scope.

(* ===================================================================== *)
(** * Strings *)
(* ===================================================================== *)

(** A string is a list of UTF-16 code units. *)
Abbreviation jsstring := (list N).

(** An ASCII literal as a JavaScript string. *)
Definition str (s : string) : jsstring :=
  List.map N_of_ascii (list_ascii_of_string s).

(** [s === t] on strings. *)
Definition streq (s t : jsstring) : bool := bool_decide (s = t).

(** A string is truthy when it is not empty. *)
Definition truthy (s : jsstring) : bool :=
  match s with [] => false | _ :: _ => true end.

(** The right arrow U+2192 that opens a reference token, and the
    characters the source names. *)
Definition arrow : N := 8594.
Definition hyphen : N := 45.
Definition comma : N := 44.
Definition lessThan : N := 60.

(** ECMAScript [WhiteSpace] and [LineTerminator] code points: what
    [trim] strips and what [\s] matches. *)
Definition isWhiteSpace (c : N) : bool :=
  (9 <=? c) && (c <=? 13) || (c =? 32) || (c =? 160) || (c =? 5760)
  || (8192 <=? c) && (c <=? 8202) || (c =? 8232) || (c =? 8233)
  || (c =? 8239) || (c =? 8287) || (c =? 12288) || (c =? 65279).

Definition isDigit (c : N) : bool := (48 <=? c) && (c <=? 57).
Definition isUpper (c : N) : bool := (65 <=? c) && (c <=? 90).
Definition isLower (c : N) : bool := (97 <=? c) && (c <=? 122).

(** [a-z] under the [i] flag. *)
Definition isAlphaCI (c : N) : bool := isLower c || isUpper c.

(** [a-z0-9-] under the [i] flag. *)
Definition isRefCharCI (c : N) : bool :=
  isAlphaCI c || isDigit c || (c =? hyphen).

(** ASCII lower case of one code unit and of a string (the DOM's "ASCII
    lowercase", also [toLowerCase] on a string of ASCII characters). *)
Definition asciiLowerChar (c : N) : N := if isUpper c then c + 32 else c.
Definition asciiLower (s : jsstring) : jsstring := List.map asciiLowerChar s.

Fixpoint trimStart (s : jsstring) : jsstring :=
  match s with
  | c :: s' => if isWhiteSpace c then trimStart s' else s
  | [] => []
  end.

Definition trimEnd (s : jsstring) : jsstring := rev (trimStart (rev s)).

(** [s.trim()] *)
Definition trim (s : jsstring) : jsstring := trimEnd (trimStart s).

(** [s.startsWith(p)] *)
Fixpoint startsWith (p s : jsstring) : bool :=
  match p, s with
  | [], _ => true
  | a :: p', b :: s' => (a =? b) && startsWith p' s'
  | _ :: _, [] => false
  end.

(** [s.substring(n)] *)
Definition substring (n : nat) (s : jsstring) : jsstring := skipn n s.

(** [s.includes('-')] *)
Definition includesHyphen (s : jsstring) : bool := existsb (N.eqb hyphen) s.

(** [s.split(/\s+/)]: the pieces between the maximal runs of white space,
    with an empty first (last) piece when the string starts (ends) with
    white space; the empty string gives one empty piece.  [cur] is the
    piece being read, reversed; [inSep] tells that the previous code unit
    was white space. *)
Fixpoint splitWsFrom (inSep : bool) (cur : jsstring) (s : jsstring)
  : list jsstring :=
  match s with
  | [] => [rev cur]
  | c :: s' =>
      if isWhiteSpace c
      then if inSep then splitWsFrom true [] s'
           else rev cur :: splitWsFrom true [] s'
      else splitWsFrom false (c :: cur) s'
  end.

Definition splitWs (s : jsstring) : list jsstring := splitWsFrom false [] s.

(** [s.split(/\s+/).filter(Boolean)] *)
Definition classTokens (s : jsstring) : list jsstring :=
  List.filter truthy (splitWs s).

(** [pieces.join(sep)] *)
Fixpoint join (sep : jsstring) (l : list jsstring) : jsstring :=
  match l with
  | [] => []
  | [x] => x
  | x :: l' => x ++ sep ++ join sep l'
  end.

(** The decimal numeral of a counter, as [`${count}`] prints it. *)
Definition decimal (n : N) : jsstring :=
  str (DecimalString.NilEmpty.string_of_uint (N.to_uint n)).

(** The identifier [`${nameLower}-${count}`]. *)
Definition identifier (nameLower : jsstring) (count : N) : jsstring :=
  nameLower ++ [hyphen] ++ decimal count.

(* ===================================================================== *)
(** * Regular expressions *)
(* ===================================================================== *)

(** A backtracking matcher in continuation-passing style: [r s k] tries
    the alternatives of [r] at the head of [s] in the order of the
    ECMAScript semantics and gives the first one that the continuation
    [k] accepts on the rest of the input. *)
Definition rx : Type := forall R : Type, jsstring -> (jsstring -> option R) -> option R.

Definition rxChar (p : N -> bool) : rx := fun R s k =>
  match s with
  | c :: s' => if p c then k s' else None
  | [] => None
  end.

(** Greedy [p*] for a character class [p]: the longest run first. *)
Fixpoint rxStarFrom (p : N -> bool) (R : Type) (s : jsstring)
  (k : jsstring -> option R) : option R :=
  match s with
  | c :: s' =>
      if p c
      then match rxStarFrom p R s' k with
           | Some r => Some r
           | None => k s
           end
      else k s
  | [] => k []
  end.

Definition rxStar (p : N -> bool) : rx := rxStarFrom p.

Definition rxSeq (a b : rx) : rx := fun R s k =>
  a R s (fun s' => b R s' k).

Definition rxAlt (a b : rx) : rx := fun R s k =>
  match a R s k with
  | Some r => Some r
  | None => b R s k
  end.

Definition rxPlus (p : N -> bool) : rx := rxSeq (rxChar p) (rxStar p).

(** One literal ASCII letter or sign under the [i] flag. *)
Definition rxLitCI (c : N) : rx :=
  rxChar (fun x => (asciiLowerChar x =? asciiLowerChar c)).

Fixpoint rxWordCI (w : jsstring) : rx :=
  match w with
  | [] => fun R s k => k s
  | c :: w' => rxSeq (rxLitCI c) (rxWordCI w')
  end.

(** [[a-z][a-z0-9-]*-\d+] with the [i] flag: the capture group of the
    reference pattern. *)
Definition rxRefName : rx :=
  rxSeq (rxChar isAlphaCI)
    (rxSeq (rxStar isRefCharCI)
       (rxSeq (rxChar (N.eqb hyphen)) (rxPlus isDigit))).

(** [/→\s*([a-z][a-z0-9-]*-\d+)/i] at the head of [s]: the captured name
    and the input after the match. *)
Definition execRef (s : jsstring) : option (jsstring * jsstring) :=
  rxSeq (rxChar (N.eqb arrow)) (rxStar isWhiteSpace) _ s
    (fun s2 => rxRefName _ s2
       (fun rest => Some (firstn (length s2 - length rest) s2, rest))).

(** [text.matchAll(/→\s*([a-z][a-z0-9-]*-\d+)/gi)], each capture in
    lower case.  [skip] counts the code units still inside the previous
    match. *)
Fixpoint scanRefs (skip : nat) (s : jsstring) : list jsstring :=
  match s with
  | [] => []
  | _ :: s' =>
      match skip with
      | S n => scanRefs n s'
      | O =>
          match execRef s with
          | Some (name, rest) =>
              asciiLower name :: scanRefs (length s' - length rest) s'
          | None => scanRefs 0 s'
          end
      end
  end.

(** [text.replace(/→\s*[a-z][a-z0-9-]*-\d+/gi, '')] *)
Fixpoint stripRefs (skip : nat) (s : jsstring) : jsstring :=
  match s with
  | [] => []
  | c :: s' =>
      match skip with
      | S n => stripRefs n s'
      | O =>
          match execRef s with
          | Some (_, rest) => stripRefs (length s' - length rest) s'
          | None => c :: stripRefs 0 s'
          end
      end
  end.

(** [/<(p|h[1-6]|div|ul|ol|table)/i] at the head of the input. *)
Definition rxBlockTag : rx :=
  rxSeq (rxChar (N.eqb lessThan))
    (rxAlt (rxWordCI (str "p"))
       (rxAlt (rxSeq (rxWordCI (str "h")) (rxChar (fun c => (49 <=? c) && (c <=? 54))))
          (rxAlt (rxWordCI (str "div"))
             (rxAlt (rxWordCI (str "ul"))
                (rxAlt (rxWordCI (str "ol")) (rxWordCI (str "table"))))))).

(** [re.test(s)] for a pattern without the [g] flag: a match at some
    position. *)
Fixpoint rxTest (r : rx) (s : jsstring) : bool :=
  match r unit s (fun _ => Some tt) with
  | Some _ => true
  | None =>
      match s with
      | [] => false
      | _ :: s' => rxTest r s'
      end
  end.

(* ===================================================================== *)
(** * The DOM *)
(* ===================================================================== *)

(** A node of the parsed document: an element with its lower-case local
    name, its attributes in order and its child nodes; a text node; a
    comment. *)
Inductive node : Type :=
| Element (tag : jsstring) (attributes : list (jsstring * jsstring))
    (childNodes : list node)
| Text (data : jsstring)
| Comment (data : jsstring).

Definition isElement (n : node) : bool :=
  match n with Element _ _ _ => true | _ => false end.

(** [n.tagName === T] for an element, [T] given in lower case. *)
Definition hasTag (t : jsstring) (n : node) : bool :=
  match n with Element t' _ _ => streq t' t | _ => false end.

(** [n.localName] of an element *)
Definition tagOf (n : node) : jsstring :=
  match n with Element t _ _ => t | _ => [] end.

(** [n.attributes] *)
Definition attributesOf (n : node) : list (jsstring * jsstring) :=
  match n with Element _ a _ => a | _ => [] end.

(** [n.childNodes] *)
Definition childNodesOf (n : node) : list node :=
  match n with Element _ _ cs => cs | _ => [] end.

(** [n.children]: the child nodes that are elements. *)
Definition children (n : node) : list node :=
  List.filter isElement (childNodesOf n).

(** [n.firstElementChild] *)
Definition firstElementChild (n : node) : option node := head (children n).

Fixpoint lookupAttr (name : jsstring) (l : list (jsstring * jsstring))
  : option jsstring :=
  match l with
  | [] => None
  | (k, v) :: l' => if streq k name then Some v else lookupAttr name l'
  end.

(** [n.getAttribute(name)], [name] given in lower case. *)
Definition getAttribute (name : jsstring) (n : node) : option jsstring :=
  match n with Element _ a _ => lookupAttr name a | _ => None end.

(** [n.className] *)
Definition className (n : node) : jsstring :=
  default [] (getAttribute (str "class") n).

(** [n.textContent] of an element: the data of its text descendants in
    tree order. *)
Fixpoint textContent (n : node) : jsstring :=
  match n with
  | Element _ _ cs =>
      (fix go (l : list node) : jsstring :=
         match l with
         | [] => []
         | c :: l' => textContent c ++ go l'
         end) cs
  | Text d => d
  | Comment _ => []
  end.

(** The element [n] and the elements below it, in tree order. *)
Fixpoint subtree (n : node) : list node :=
  match n with
  | Element _ _ cs =>
      n :: (fix go (l : list node) : list node :=
              match l with
              | [] => []
              | c :: l' => subtree c ++ go l'
              end) cs
  | _ => []
  end.

(** The elements strictly below [n], in tree order: the candidates of
    [n.querySelectorAll]. *)
Definition descendants (n : node) : list node :=
  flat_map subtree (childNodesOf n).

(** [subtree] with, for each element, whether it has a [tr] ancestor:
    [inTr] tells it for [n] itself.  A node value does not know its
    ancestors, which the selector ['tr td'] looks at. *)
Fixpoint subtreeCtx (inTr : bool) (n : node) : list (bool * node) :=
  match n with
  | Element t _ cs =>
      (inTr, n) ::
      (fix go (l : list node) : list (bool * node) :=
         match l with
         | [] => []
         | c :: l' => subtreeCtx (inTr || streq t (str "tr")) c ++ go l'
         end) cs
  | _ => []
  end.

Definition descendantsCtx (inTr : bool) (n : node) : list (bool * node) :=
  flat_map (subtreeCtx (inTr || hasTag (str "tr") n)) (childNodesOf n).

(** [n.querySelectorAll(tag)] and [n.querySelector(tag)] for a type
    selector. *)
Definition querySelectorAll (t : jsstring) (n : node) : list node :=
  List.filter (hasTag t) (descendants n).

Definition querySelector (t : jsstring) (n : node) : option node :=
  head (querySelectorAll t n).

Definition hasSlotAttr (n : node) : bool :=
  match getAttribute (str "slot") n with Some _ => true | None => false end.

(** [n.querySelector('[slot]')] *)
Definition querySelectorSlot (n : node) : option node :=
  head (List.filter hasSlotAttr (descendants n)).

(** [n.querySelector('tr td')]: the first [td] below [n] that has a [tr]
    ancestor, in [n] or above it. *)
Definition querySelectorTrTd (inTr : bool) (n : node) : option node :=
  snd <$> head (List.filter (fun x => fst x && hasTag (str "td") (snd x))
                  (descendantsCtx inTr n)).

(** [body.querySelector('main')] with the context of the result. *)
Definition querySelectorMain (body : node) : option (bool * node) :=
  head (List.filter (fun x => hasTag (str "main") (snd x))
          (descendantsCtx false body)).

(** [parent.appendChild(n)] and the same for each node of a list (a
    [DocumentFragment] appends its children). *)
Definition appendChild (n : node) (parent : node) : node :=
  match parent with
  | Element t a cs => Element t a (cs ++ [n])
  | _ => parent
  end.

Definition appendChildren (ns : list node) (parent : node) : node :=
  match parent with
  | Element t a cs => Element t a (cs ++ ns)
  | _ => parent
  end.

Fixpoint setAttr (name value : jsstring) (l : list (jsstring * jsstring))
  : list (jsstring * jsstring) :=
  match l with
  | [] => [(name, value)]
  | (k, v) :: l' =>
      if streq k name then (k, value) :: l' else (k, v) :: setAttr name value l'
  end.

(** [document.createDocumentFragment()]: a parent without name and
    attributes, of which only the child nodes are read. *)
Definition documentFragment : node := Element [] [] [].

(* ===================================================================== *)
(** * The platform *)
(* ===================================================================== *)

Inductive error : Type :=
| InvalidCharacterError   (* thrown by [createElement] and [setAttribute] *)
| TypeError               (* a property of [null] is read *)
| OutOfFuel.              (* the recursion bound of the embedding is reached *)

Inductive res (A : Type) : Type :=
| Ok (a : A)
| Throw (e : error).
Arguments Ok {A} a.
Arguments Throw {A} e.

#[global] Instance res_ret : MRet res := fun A a => Ok a.
#[global] Instance res_bind : MBind res := fun A B f m =>
  match m with Ok a => f a | Throw e => Throw e end.

#[global] Instance res_fmap : FMap res := fun A B f m =>
  match m with Ok a => Ok (f a) | Throw e => Throw e end.

Fixpoint foldM {A B : Type} (f : B -> A -> res B) (l : list A) (b : B)
  : res B :=
  match l with
  | [] => Ok b
  | a :: l' => b' ← f b a; foldM f l' b'
  end.

(** What the browser provides.
    - [toLowerCase]: [String.prototype.toLowerCase].
    - [parseFromString]: the [body] of
      [new DOMParser().parseFromString(html, 'text/html')].
    - [innerHTML], [outerHTML]: the HTML serialisation of the children of
      an element, and of the element.
    - [setInnerHTML]: the child nodes that [span.innerHTML = html] gives
      to a new [span].
    - [validElementName], [validAttributeName]: the names that
      [createElement] and [setAttribute] accept without throwing.  The
      attribute names [slot] and [style] are valid. *)
Record Platform : Type := {
  toLowerCase : jsstring -> jsstring;
  parseFromString : jsstring -> node;
  innerHTML : node -> jsstring;
  outerHTML : node -> jsstring;
  setInnerHTML : jsstring -> list node;
  validElementName : jsstring -> bool;
  validAttributeName : jsstring -> bool;
  slot_valid : validAttributeName (str "slot") = true;
  style_valid : validAttributeName (str "style") = true;
}.

(** The allow-list of [vanilla-tags.js]. *)
Definition VANILLA_TAGS : list jsstring :=
  List.map str
    ["p"; "h1"; "h2"; "h3"; "h4"; "h5"; "h6"; "span"; "a"; "strong"; "em";
     "b"; "i"; "u"; "br"]%string.

(** The two private maps of [EDSBlockDeserializer]. *)
Record deserializer : Type := {
  blockMap : gmap jsstring node;
  tableMap : gmap jsstring node;
}.

(** [new EDSBlockDeserializer()] *)
Definition newDeserializer : deserializer :=
  {| blockMap := ∅; tableMap := ∅ |}.

(** The style variables of one element: a JavaScript object whose keys
    all start with [--], so [Object.entries] lists them in the order of
    their first assignment. *)
Abbreviation styleVars := (list (jsstring * jsstring)).

(** [styleVars[key] = value] *)
Definition setStyleVar (key value : jsstring) (vars : styleVars) : styleVars :=
  setAttr key value vars.

(** What [parseBlockRow] returns. *)
Record parsedRow : Type := {
  slotName : option jsstring;
  content : node;
  isSlot : bool;
}.

(* ===================================================================== *)
(** * EDSBlockDeserializer *)
(* ===================================================================== *)

Section EDSBlockDeserializer.

Context (P : Platform).

(** [document.createElement(tagName)] *)
Definition createElement (tagName : jsstring) : res node :=
  if validElementName P tagName
  then Ok (Element (asciiLower tagName) [] [])
  else Throw InvalidCharacterError.

(** [el.setAttribute(name, value)] on an HTML element: the name is put in
    ASCII lower case; an attribute of that name keeps its place and gets
    the value, a new one goes last. *)
Definition setAttribute (name value : jsstring) (el : node) : res node :=
  if validAttributeName P name
  then Ok (match el with
           | Element t a cs => Element t (setAttr (asciiLower name) value a) cs
           | _ => el
           end)
  else Throw InvalidCharacterError.

(** [tempDoc.body.firstElementChild] for the document parsed from
    [`<${tagName}></${tagName}>`]. *)
Definition parseCustomElement (tagName : jsstring) : option node :=
  firstElementChild
    (parseFromString P (str "<" ++ tagName ++ str "></" ++ tagName ++ str ">")).

(** [span.innerHTML = html] on a new [span]. *)
Definition spanWithInnerHTML (html : jsstring) : node :=
  Element (str "span") [] (setInnerHTML P html).

(** The truth value of [isCustomElementClass(className)]. *)
Definition isCustomElementClass (className : jsstring) : bool :=
  if streq className (str "experience-element") then true
  else truthy className && includesHyphen className
       && negb (existsb (streq className) VANILLA_TAGS).

(** [cells.length === 2 && cells[0].textContent.trim() === 'element-name']
    and then [cells[1].textContent.trim()], for the cells of one row. *)
Definition elementNameOfCells (cells : list node) : option jsstring :=
  match cells with
  | [c0; c1] =>
      if streq (trim (textContent c0)) (str "element-name")
      then Some (trim (textContent c1))
      else None
  | _ => None
  end.

(** The first row of [rows] that names the element. *)
Fixpoint elementNameOfRows (cellsOf : node -> list node) (rows : list node)
  : option jsstring :=
  match rows with
  | [] => None
  | row :: rows' =>
      match elementNameOfCells (cellsOf row) with
      | Some name => Some name
      | None => elementNameOfRows cellsOf rows'
      end
  end.

(** The [div] children of a node: the rows of a block, the cells of a row. *)
Definition divChildren (n : node) : list node :=
  List.filter (hasTag (str "div")) (children n).

(** [getElementName(blockDiv)]; [None] is [null]. *)
Definition getElementName (blockDiv : node) : option jsstring :=
  match elementNameOfRows divChildren (divChildren blockDiv) with
  | Some name => Some name
  | None =>
      List.find
        (fun c => includesHyphen c && negb (existsb (streq c) VANILLA_TAGS)
                  && negb (streq c (str "experience-element")))
        (classTokens (className blockDiv))
  end.

(** [getElementNameFromTable(table)] *)
Definition getElementNameFromTable (table : node) : option jsstring :=
  elementNameOfRows (querySelectorAll (str "td"))
    (querySelectorAll (str "tr") table).

(** A name that passes [if (elementName)]. *)
Definition named (name : option jsstring) : bool :=
  match name with Some n => truthy n | None => false end.

(** The body of the numbering loops, the same in [buildBlockMap],
    [findRootBlock], [buildTableMap] and [findRootTable]: the next
    identifier of [elementName] and the counters after it. *)
Definition nextId (counts : gmap jsstring N) (elementName : jsstring)
  : gmap jsstring N * jsstring :=
  let nameLower := toLowerCase P elementName in
  let count := default 0 (counts !! nameLower) + 1 in
  (<[nameLower := count]> counts, identifier nameLower count).

(** The loop of [buildBlockMap] and [buildTableMap], from the counters
    [counts] and the map [m]. *)
Fixpoint buildMapFrom (nameOf : node -> option jsstring)
  (counts : gmap jsstring N) (m : gmap jsstring node) (blocks : list node)
  : gmap jsstring node :=
  match blocks with
  | [] => m
  | block :: blocks' =>
      match nameOf block with
      | Some elementName =>
          if truthy elementName
          then let '(counts', blockId) := nextId counts elementName in
               buildMapFrom nameOf counts' (<[blockId := block]> m) blocks'
          else buildMapFrom nameOf counts m blocks'
      | None => buildMapFrom nameOf counts m blocks'
      end
  end.

(** [buildBlockMap(blocks)]: the new value of [#blockMap]. *)
Definition buildBlockMap (blocks : list node) : gmap jsstring node :=
  buildMapFrom getElementName ∅ ∅ blocks.

(** [buildTableMap(tables)]: the new value of [#tableMap]. *)
Definition buildTableMap (tables : list node) : gmap jsstring node :=
  buildMapFrom getElementNameFromTable ∅ ∅ tables.

(** [parseBlockRow(rowDiv)] *)
Definition parseBlockRow (rowDiv : node) : option parsedRow :=
  match divChildren rowDiv with
  | [] => None
  | [c0] => Some {| slotName := None; content := c0; isSlot := false |}
  | c0 :: c1 :: _ =>
      match querySelector (str "strong") c0 with
      | Some strongEl =>
          Some {| slotName := Some (trim (textContent strongEl));
                  content := c1; isSlot := true |}
      | None =>
          Some {| slotName := Some (trim (textContent c0));
                  content := c1; isSlot := false |}
      end
  end.

(** [findNestedBlock(contentDiv)]: the nested block element. *)
Definition findNestedBlock (contentDiv : node) : option node :=
  List.find
    (fun child =>
       hasTag (str "div") child && truthy (className child)
       && existsb isCustomElementClass (splitWs (className child)))
    (children contentDiv).

(** [parseReferences(text)] *)
Definition parseReferences (text : jsstring) : list jsstring :=
  scanRefs 0 text.

(** [#isSimplePWrapper(contentDiv)] *)
Definition isSimplePWrapper (contentDiv : node) : bool :=
  match children contentDiv with
  | [child] =>
      hasTag (str "p") child
      && match children child with [] => true | _ => false end
  | _ => false
  end.

(** [isReferenceOnly(text)] *)
Definition isReferenceOnly (text : jsstring) : bool :=
  streq (trim (List.filter (fun c => negb (c =? comma)) (stripRefs 0 text))) [].

(** [refs.length > 0 && this.isReferenceOnly(textContent)] *)
Definition isReferenceRow (text : jsstring) : bool :=
  match parseReferences text with
  | [] => false
  | _ :: _ => isReferenceOnly text
  end.

(** [if (slotName) converted.setAttribute('slot', slotName)] *)
Definition slotIfNamed (slotName : option jsstring) (el : node) : res node :=
  match slotName with
  | Some l => if truthy l then setAttribute (str "slot") l el else Ok el
  | None => Ok el
  end.

(** [if (slotName && slotName !== 'children')
       converted.setAttribute('slot', slotName)] *)
Definition slotUnlessChildren (slotName : option jsstring) (el : node)
  : res node :=
  match slotName with
  | Some l =>
      if truthy l && negb (streq l (str "children"))
      then setAttribute (str "slot") l el
      else Ok el
  | None => Ok el
  end.

(** The loop over [refs] of a reference row: each identifier found in
    [index] is converted by [convert], annotated by [annotate] and
    appended to [element]. *)
Definition resolveReferences (convert : node -> res (option node))
  (annotate : node -> res node) (index : gmap jsstring node)
  (refs : list jsstring) (element : node) : res node :=
  foldM
    (fun el refId =>
       match index !! refId with
       | Some refBlock =>
           converted ← convert refBlock;
           match converted with
           | Some c => c' ← annotate c; Ok (appendChild c' el)
           | None => Ok el
           end
       | None => Ok el
       end)
    refs element.

(** The single-paragraph unwrapping of an unlabelled row: the nodes that
    are cloned onto the element. *)
Definition unwrapSingleP (content : node) : list node :=
  match children content with
  | [child] =>
      if hasTag (str "p") child then childNodesOf child
      else childNodesOf content
  | _ => childNodesOf content
  end.

(** [convertContent(contentDiv, slotName)]: the nodes that the caller
    appends (the converted element, or the children of the fragment).
    [convert] is [this.convertBlock]. *)
Definition convertContent (convert : node -> res node) (st : deserializer)
  (contentDiv : node) (slotName : option jsstring) : res (list node) :=
  match findNestedBlock contentDiv with
  | Some nested =>
      converted ← convert nested;
      converted' ← slotIfNamed slotName converted;
      Ok [converted']
  | None =>
      let html := trim (innerHTML P contentDiv) in
      let text := trim (textContent contentDiv) in
      if isReferenceRow text
      then
        fragment ←
          resolveReferences (fun b => c ← convert b; Ok (Some c))
            (slotIfNamed slotName) (blockMap st) (parseReferences text)
            documentFragment;
        Ok (childNodesOf fragment)
      else if rxTest rxBlockTag html
      then
        foldM
          (fun acc n =>
             cloned ← (if isElement n then slotIfNamed slotName n else Ok n);
             Ok (acc ++ [cloned]))
          (childNodesOf contentDiv) []
      else
        wrapper ← slotIfNamed slotName (spanWithInnerHTML html);
        Ok [wrapper]
  end.

(** [Object.entries(styleVars).map(([k, v]) => `${k}: ${v}`).join('; ')] *)
Definition styleString (vars : styleVars) : jsstring :=
  join (str "; ") (List.map (fun kv => fst kv ++ str ": " ++ snd kv) vars).

(** The last statement of both converters: the style attribute. *)
Definition applyStyleVars (vars : styleVars) (element : node) : res node :=
  match vars with
  | [] => Ok element
  | _ :: _ => setAttribute (str "style") (styleString vars) element
  end.

(** The attribute of a plain-text row: [attr-type] is written [type]. *)
Definition attributeName (label : jsstring) : jsstring :=
  if streq label (str "attr-type") then str "type" else label.

(** One turn of the loop over the rows in [convertBlock]: the element and
    the style variables after the row. *)
Definition convertBlockRow (convert : node -> res node) (st : deserializer)
  (acc : node * styleVars) (row : node) : res (node * styleVars) :=
  let '(element, vars) := acc in
  match parseBlockRow row with
  | None => Ok acc
  | Some parsed =>
      let label := slotName parsed in
      if bool_decide (label = Some (str "element-name")) then Ok acc
      else
        let text := trim (textContent (content parsed)) in
        let html := trim (innerHTML P (content parsed)) in
        if match label with
           | Some l => startsWith (str "style-") l
           | None => false
           end
        then
          Ok (element,
              setStyleVar (str "--" ++ substring 6 (default [] label)) text vars)
        else if isReferenceRow text
        then
          element' ←
            resolveReferences (fun b => c ← convert b; Ok (Some c))
              (slotUnlessChildren label) (blockMap st)
              (parseReferences text) element;
          Ok (element', vars)
        else if bool_decide (querySelectorSlot (content parsed) ≠ None)
        then Ok (appendChildren (childNodesOf (content parsed)) element, vars)
        else
          match label with
          | None =>
              Ok (appendChildren (unwrapSingleP (content parsed)) element, vars)
          | Some l =>
              if isSlot parsed
              then
                wrapper ← setAttribute (str "slot") l (spanWithInnerHTML html);
                Ok (appendChild wrapper element, vars)
              else if negb (streq html text)
                      && negb (isSimplePWrapper (content parsed))
              then
                converted ← convertContent convert st (content parsed) label;
                Ok (appendChildren converted element, vars)
              else if truthy l
              then
                element' ← setAttribute (attributeName l) text element;
                Ok (element', vars)
              else Ok acc
          end
  end.

(** The body of [convertBlock(blockDiv)], [convert] being the method
    itself in its recursive calls. *)
Definition convertBlockBody (convert : node -> res node) (st : deserializer)
  (blockDiv : node) : res node :=
  let classes := classTokens (className blockDiv) in
  match List.find isCustomElementClass classes with
  | None => Ok blockDiv
  | Some blockClass =>
      match getElementName blockDiv with
      | None => Ok blockDiv
      | Some elementName =>
          if negb (truthy elementName) then Ok blockDiv
          else
            let tagName := toLowerCase P elementName in
            match parseCustomElement tagName with
            | None => createElement tagName
            | Some element =>
                let otherClasses :=
                  List.filter
                    (fun c => negb (streq c blockClass)
                              && negb (streq c (str "experience-element"))
                              && negb (streq c elementName))
                    classes in
                element ←
                  foldM (fun el cls => setAttribute cls [] el)
                    otherClasses element;
                '(element, vars) ←
                  foldM (convertBlockRow convert st)
                    (divChildren blockDiv) (element, []);
                applyStyleVars vars element
            end
      end
  end.

(** [convertBlock(blockDiv)].  A call at depth [fuel] of the recursion
    through references and nested blocks gives up. *)
Fixpoint convertBlock (fuel : nat) (st : deserializer) (blockDiv : node)
  : res node :=
  match fuel with
  | O => Throw OutOfFuel
  | S fuel' => convertBlockBody (convertBlock fuel' st) st blockDiv
  end.

(** The walk of [findBlocks(root)]: a [div] with a custom-element class
    is a block and is not entered. *)
Fixpoint findBlocks (n : node) : list node :=
  match n with
  | Element t _ cs =>
      if streq t (str "div") && truthy (className n)
         && existsb isCustomElementClass (splitWs (className n))
      then [n]
      else (fix go (l : list node) : list node :=
              match l with
              | [] => []
              | c :: l' => findBlocks c ++ go l'
              end) cs
  | _ => []
  end.

(** The identifiers that the texts of [blocks] refer to. *)
Definition referencedIds (blocks : list node) : gset jsstring :=
  list_to_set (flat_map (fun b => parseReferences (textContent b)) blocks).

(** The numbering loop of [findRootBlock] and [findRootTable]: the
    identifier of each block, [None] for a block without a name (the map
    [blockIds] has no entry for it). *)
Fixpoint assignIds (nameOf : node -> option jsstring)
  (counts : gmap jsstring N) (blocks : list node) : list (option jsstring) :=
  match blocks with
  | [] => []
  | block :: blocks' =>
      match nameOf block with
      | Some elementName =>
          if truthy elementName
          then let '(counts', blockId) := nextId counts elementName in
               Some blockId :: assignIds nameOf counts' blocks'
          else None :: assignIds nameOf counts blocks'
      | None => None :: assignIds nameOf counts blocks'
      end
  end.

(** The blocks with an identifier that no text refers to, in document
    order. *)
Fixpoint unreferencedOf (referenced : gset jsstring)
  (blocks : list node) (ids : list (option jsstring)) : list node :=
  match blocks, ids with
  | block :: blocks', Some blockId :: ids' =>
      if bool_decide (blockId ∈ referenced)
      then unreferencedOf referenced blocks' ids'
      else block :: unreferencedOf referenced blocks' ids'
  | _ :: blocks', None :: ids' => unreferencedOf referenced blocks' ids'
  | _, _ => []
  end.

Definition unreferencedBlocks (nameOf : node -> option jsstring)
  (blocks : list node) : list node :=
  unreferencedOf (referencedIds blocks) blocks (assignIds nameOf ∅ blocks).

(** The body shared by [findRootBlock] and [findRootTable]; [None] is
    [null]. *)
Definition findRoot (nameOf : node -> option jsstring) (blocks : list node)
  : option node :=
  match blocks with
  | [] => None
  | [block] => Some block
  | _ =>
      match unreferencedBlocks nameOf blocks with
      | [] => last blocks
      | [block] => Some block
      | unreferenced => last unreferenced
      end
  end.

(** [findRootBlock(blocks)] *)
Definition findRootBlock (blocks : list node) : option node :=
  findRoot getElementName blocks.

(** [findRootTable(tables)] *)
Definition findRootTable (tables : list node) : option node :=
  findRoot getElementNameFromTable tables.

(** The test of [findTables] on one [table], given whether it has a [tr]
    ancestor. *)
Definition isExperienceTable (inTr : bool) (table : node) : bool :=
  match querySelectorTrTd inTr table with
  | Some firstCell =>
      streq (trim (textContent firstCell)) (str "experience-element")
  | None => false
  end.

(** [findTables(root)]; [inTr] tells whether [root] has a [tr] ancestor. *)
Definition findTables (inTr : bool) (root : node) : list node :=
  snd <$> List.filter
            (fun x => hasTag (str "table") (snd x)
                      && isExperienceTable (fst x) (snd x))
            (descendantsCtx inTr root).

(** One turn of the loop over the rows in [convertTable]. *)
Definition convertTableRow (convert : node -> res (option node))
  (st : deserializer) (acc : node * styleVars) (row : node)
  : res (node * styleVars) :=
  let '(element, vars) := acc in
  match querySelectorAll (str "td") row with
  | [cell] =>
      if bool_decide (getAttribute (str "colspan") cell = Some (str "2"))
      then
        if streq (trim (textContent cell)) (str "experience-element")
        then Ok acc
        else Ok (appendChildren (unwrapSingleP cell) element, vars)
      else Ok acc
  | [keyCell; valueCell] =>
      let key := trim (textContent keyCell) in
      let text := trim (textContent valueCell) in
      let html := trim (innerHTML P valueCell) in
      if streq key (str "element-name") then Ok acc
      else if startsWith (str "style-") key
      then Ok (element, setStyleVar (str "--" ++ substring 6 key) text vars)
      else if isReferenceRow text
      then
        element' ←
          resolveReferences convert (slotUnlessChildren (Some key))
            (tableMap st) (parseReferences text) element;
        Ok (element', vars)
      else if negb (streq html text)
      then
        if bool_decide (querySelectorSlot valueCell ≠ None)
        then Ok (appendChildren (childNodesOf valueCell) element, vars)
        else
          wrapper ← slotIfNamed (Some key) (spanWithInnerHTML html);
          Ok (appendChild wrapper element, vars)
      else if truthy key
      then
        element' ← setAttribute (attributeName key) text element;
        Ok (element', vars)
      else Ok acc
  | _ => Ok acc
  end.

(** The body of [convertTable(table)]; [Ok None] is the result [null]. *)
Definition convertTableBody (convert : node -> res (option node))
  (st : deserializer) (table : node) : res (option node) :=
  match getElementNameFromTable table with
  | None => Ok None
  | Some elementName =>
      if negb (truthy elementName) then Ok None
      else
        let tagName := toLowerCase P elementName in
        match parseCustomElement tagName with
        | None => Some <$> createElement tagName
        | Some element =>
            '(element, vars) ←
              foldM (convertTableRow convert st)
                (querySelectorAll (str "tr") table) (element, []);
            Some <$> applyStyleVars vars element
        end
  end.

(** [convertTable(table)] *)
Fixpoint convertTable (fuel : nat) (st : deserializer) (table : node)
  : res (option node) :=
  match fuel with
  | O => Throw OutOfFuel
  | S fuel' => convertTableBody (convertTable fuel' st) st table
  end.

(** [main || doc.body] with whether it has a [tr] ancestor. *)
Definition documentRoot (body : node) : bool * node :=
  default (false, body) (querySelectorMain body).

(** [fromEDS(html)]: the deserializer after the call and what the call
    returns. *)
Definition fromEDS (fuel : nat) (st : deserializer) (html : jsstring)
  : deserializer * res jsstring :=
  let '(inTr, root) := documentRoot (parseFromString P html) in
  let tables := findTables inTr root in
  match tables with
  | _ :: _ =>
      let st' := {| blockMap := blockMap st;
                    tableMap := buildTableMap tables |} in
      (st',
       match findRootTable tables with
       | Some rootTable =>
           converted ← convertTable fuel st' rootTable;
           Ok (match converted with
               | Some c => outerHTML P c
               | None => html
               end)
       | None => Throw TypeError
       end)
  | [] =>
      let blocks := findBlocks root in
      match blocks with
      | [] => (st, Ok html)
      | _ :: _ =>
          let st' := {| blockMap := buildBlockMap blocks;
                        tableMap := tableMap st |} in
          (st',
           match findRootBlock blocks with
           | Some rootBlock =>
               converted ← convertBlock fuel st' rootBlock;
               Ok (outerHTML P converted)
           | None => Throw TypeError
           end)
      end
  end.

(** [toElement(html)]; [Ok None] is the result [null]. *)
Definition toElement (fuel : nat) (st : deserializer) (html : jsstring)
  : deserializer * res (option node) :=
  let '(inTr, root) := documentRoot (parseFromString P html) in
  let tables := findTables inTr root in
  match tables with
  | table :: _ =>
      let st' := {| blockMap := blockMap st;
                    tableMap := buildTableMap tables |} in
      (st', convertTable fuel st' table)
  | [] =>
      let blocks := findBlocks root in
      match blocks with
      | [] => (st, Ok (firstElementChild root))
      | block :: _ =>
          let st' := {| blockMap := buildBlockMap blocks;
                        tableMap := tableMap st |} in
          (st', Some <$> convertBlock fuel st' block)
      end
  end.

(** What [fromEds] returns: markup, or with [asElement] an element or
    [null]. *)
Inductive converted : Type :=
| Markup (html : jsstring)
| ElementOrNull (el : option node).

(** [fromEds(input, options)] with [asElement] the truth value of
    [options.asElement]. *)
Definition fromEds (fuel : nat) (input : jsstring) (asElement : bool)
  : res converted :=
  if asElement
  then ElementOrNull <$> snd (toElement fuel newDeserializer input)
  else Markup <$> snd (fromEDS fuel newDeserializer input).

End EDSBlockDeserializer.

(* ===================================================================== *)
(** * A platform to run the converter on *)
(* ===================================================================== *)

(** The examples run the converter on a small stand-in for the browser:
    [toLowerCase] on ASCII, the HTML serialisation of elements, text and
    comments, and a parser that knows the documents and fragments it is
    given and the markup [<name></name>] of an empty custom element. *)
Module TestPlatform.

Definition voidTags : list jsstring :=
  List.map str
    ["area"; "base"; "br"; "col"; "embed"; "hr"; "img"; "input"; "link";
     "meta"; "source"; "track"; "wbr"]%string.

Definition escapeText (s : jsstring) : jsstring :=
  flat_map
    (fun c => if c =? 38 then str "&amp;"
              else if c =? 60 then str "&lt;"
              else if c =? 62 then str "&gt;"
              else if c =? 160 then str "&nbsp;"
              else [c]) s.

Definition escapeAttribute (s : jsstring) : jsstring :=
  flat_map
    (fun c => if c =? 38 then str "&amp;"
              else if c =? 34 then str "&quot;"
              else if c =? 160 then str "&nbsp;"
              else [c]) s.

Definition serializeAttributes (a : list (jsstring * jsstring)) : jsstring :=
  flat_map
    (fun kv => str " " ++ fst kv ++ str "=" ++ [34]
               ++ escapeAttribute (snd kv) ++ [34]) a.

Fixpoint serialize (n : node) : jsstring :=
  match n with
  | Element t a cs =>
      str "<" ++ t ++ serializeAttributes a ++ str ">"
      ++ (if existsb (streq t) voidTags then []
          else (fix go (l : list node) : jsstring :=
                  match l with
                  | [] => []
                  | c :: l' => serialize c ++ go l'
                  end) cs
               ++ str "</" ++ t ++ str ">")
  | Text d => escapeText d
  | Comment d => str "<!--" ++ d ++ str "-->"
  end.

Definition serializeChildren (n : node) : jsstring :=
  flat_map serialize (childNodesOf n).

Fixpoint lookupDoc {A : Type} (key : jsstring) (table : list (jsstring * A))
  : option A :=
  match table with
  | [] => None
  | (k, v) :: table' => if streq k key then Some v else lookupDoc key table'
  end.

Definition body (cs : list node) : node := Element (str "body") [] cs.

Fixpoint takeWhile (p : N -> bool) (s : jsstring) : jsstring :=
  match s with
  | c :: s' => if p c then c :: takeWhile p s' else []
  | [] => []
  end.

(** The name [t] of the markup [<t></t>], for a name of lower-case
    letters, digits and hyphens that starts with a letter. *)
Definition emptyElementName (html : jsstring) : option jsstring :=
  match html with
  | c :: html' =>
      let t := takeWhile isRefCharCI html' in
      if (c =? lessThan)
         && match t with x :: _ => isLower x | [] => false end
         && forallb (fun x => negb (isUpper x)) t
         && streq html' (t ++ str "></" ++ t ++ str ">")
      then Some t
      else None
  | [] => None
  end.

Definition parse (docs : list (jsstring * node)) (html : jsstring) : node :=
  match emptyElementName html with
  | Some t => body [Element t [] []]
  | None => default (body []) (lookupDoc html docs)
  end.

(** Markup without [<] and [&] is one text node. *)
Definition parseFragment (frags : list (jsstring * list node))
  (html : jsstring) : list node :=
  if existsb (fun c => (c =? lessThan) || (c =? 38)) html
  then default [] (lookupDoc html frags)
  else match html with [] => [] | _ => [Text html] end.

Definition validName (s : jsstring) : bool :=
  truthy s
  && forallb (fun c => negb (isWhiteSpace c || (c =? 0) || (c =? 47)
                             || (c =? 61) || (c =? 62))) s.

Definition platform (docs : list (jsstring * node))
  (frags : list (jsstring * list node)) : Platform :=
  {| toLowerCase := asciiLower;
     parseFromString := parse docs;
     innerHTML := serializeChildren;
     outerHTML := serialize;
     setInnerHTML := parseFragment frags;
     validElementName := validName;
     validAttributeName := validName;
     slot_valid := eq_refl;
     style_valid := eq_refl |}.

(** Builders for the documents of the examples. *)
Definition el (t : string) (a : list (string * string)) (cs : list node)
  : node :=
  Element (str t) (List.map (fun kv => (str (fst kv), str (snd kv))) a) cs.

Definition txt (s : string) : node := Text (str s).

(** [<div><div>label</div><div>content</div></div>] *)
Definition blockRow (label : string) (cs : list node) : node :=
  el "div" [] [el "div" [] [txt label]; el "div" [] cs].

(** [<div class="experience-element">rows</div>] *)
Definition block (rows : list node) : node :=
  el "div" [("class", "experience-element")]%string rows.

(** [<tr><td>label</td><td>content</td></tr>] *)
Definition tableRow (label : string) (cs : list node) : node :=
  el "tr" [] [el "td" [] [txt label]; el "td" [] cs].

(** [<table><tbody><tr><td colspan="2">experience-element</td></tr>rows
    </tbody></table>] *)
Definition table (rows : list node) : node :=
  el "table" []
    [el "tbody" []
       (el "tr" [] [el "td" [("colspan", "2")]%string [txt "experience-element"]]
        :: rows)].

(** [<body><header></header><main>content</main></body>] *)
Definition page (cs : list node) : node :=
  body [el "header" [] []; el "main" [] cs].

(** The platform that parses the markup of [page cs] to [page cs]. *)
Definition forPage (cs : list node) : Platform :=
  platform [(serialize (page cs), page cs)] [].

End TestPlatform.

(* ===================================================================== *)
(** * Vocabulary of the specification *)
(* ===================================================================== *)

Section Specification.

Context (P : Platform).

(** The lower-cased name under which a component is numbered; [None] for
    a component without a resolvable element name. *)
Definition numberedName (nameOf : node -> option jsstring) (b : node)
  : option jsstring :=
  match nameOf b with
  | Some name => if truthy name then Some (toLowerCase P name) else None
  | None => None
  end.

(** How many of [blocks] are numbered under the name [n]. *)
Fixpoint occurrences (nameOf : node -> option jsstring) (n : jsstring)
  (blocks : list node) : N :=
  match blocks with
  | [] => 0
  | b :: blocks' =>
      (if bool_decide (numberedName nameOf b = Some n) then 1 else 0)
      + occurrences nameOf n blocks'
  end.

(** A node that carries the component marker of the block encoding: a
    [div] with a class token that [isCustomElementClass] accepts. *)
Definition isComponentBlock (n : node) : bool :=
  hasTag (str "div") n && truthy (className n)
  && existsb isCustomElementClass (splitWs (className n)).

(** The components that the tokens [refs] resolve to in [index], in the
    order of the tokens; a token without an entry is dropped. *)
Definition resolved (index : gmap jsstring node) (refs : list jsstring)
  : list node :=
  omap (fun refId => index !! refId) refs.

(** [f] on each member of a list, in order, up to the first exception. *)
Fixpoint mapM {A B : Type} (f : A -> res B) (l : list A) : res (list B) :=
  match l with
  | [] => Ok []
  | a :: l' => b ← f a; bs ← mapM f l'; Ok (b :: bs)
  end.

(** The element [n] with the attribute [name] set to [value]. *)
Definition withAttribute (name value : jsstring) (n : node) : node :=
  match n with
  | Element t a cs => Element t (setAttr name value a) cs
  | _ => n
  end.

(** The slot annotation of a referenced component: [slot = l] when the
    row has a label [l] that is not empty and is not [children]. *)
Definition slotted (label : option jsstring) (n : node) : node :=
  match label with
  | Some l =>
      if truthy l && negb (streq l (str "children"))
      then withAttribute (str "slot") l n
      else n
  | None => n
  end.

(** The style variable that a row labelled [style-name] declares: the
    custom property [--name] and the trimmed text of the content. *)
Definition styleRowOf (row : node) : option (jsstring * jsstring) :=
  match parseBlockRow row with
  | Some parsed =>
      match slotName parsed with
      | Some l =>
          if startsWith (str "style-") l
          then Some (str "--" ++ substring 6 l,
                     trim (textContent (content parsed)))
          else None
      | None => None
      end
  | None => None
  end.

(** The style rows of a block, in row order. *)
Definition styleRows (blockDiv : node) : styleVars :=
  omap styleRowOf (divChildren blockDiv).

(** The distinct names of a list in the order of their first
    occurrence. *)
Fixpoint firstSeen (names : list jsstring) : list jsstring :=
  match names with
  | [] => []
  | n :: names' =>
      n :: List.filter (fun m => negb (streq m n)) (firstSeen names')
  end.

(** The value of the last row that writes the variable [n]. *)
Fixpoint lastValue (n : jsstring) (rows : styleVars) : option jsstring :=
  match rows with
  | [] => None
  | (k, v) :: rows' =>
      match lastValue n rows' with
      | Some v' => Some v'
      | None => if streq k n then Some v else None
      end
  end.

(** The merge of the style rows as the specification words it: one pair
    per distinct variable, in first-seen order, with the value of the
    last row that writes it. *)
Definition mergedStyles (rows : styleVars) : styleVars :=
  List.map (fun n => (n, default [] (lastValue n rows)))
    (firstSeen (List.map fst rows)).

(** The abstract document model of the two encodings.  A component is
    a list of rows; a row is a label cell and a content cell, or one
    content cell; a cell is given by its child nodes. *)
Inductive modelRow : Type :=
| Labelled (label content : list node)
| Unlabelled (content : list node).

(** The cell [<tag>cs</tag>]. *)
Definition cell (tag : jsstring) (cs : list node) : node := Element tag [] cs.

(** The trimmed text of a cell with the child nodes [cs]. *)
Definition cellText (cs : list node) : jsstring :=
  trim (textContent (cell (str "div") cs)).

(** [<div><div>label</div><div>content</div></div>], and
    [<div><div>content</div></div>] for a row of one cell. *)
Definition blockRowOf (r : modelRow) : node :=
  match r with
  | Labelled l c =>
      Element (str "div") [] [cell (str "div") l; cell (str "div") c]
  | Unlabelled c => Element (str "div") [] [cell (str "div") c]
  end.

(** The block encoding of a component:
    [<div class="experience-element">rows</div>]. *)
Definition blockEncoding (c : list modelRow) : node :=
  Element (str "div") [(str "class", str "experience-element")]
    (List.map blockRowOf c).

(** [<tr><td>label</td><td>content</td></tr>], and
    [<tr><td colspan="2">content</td></tr>] for a row of one cell. *)
Definition tableRowOf (r : modelRow) : node :=
  match r with
  | Labelled l c =>
      Element (str "tr") [] [cell (str "td") l; cell (str "td") c]
  | Unlabelled c =>
      Element (str "tr") [] [Element (str "td") [(str "colspan", str "2")] c]
  end.

(** [<tr><td colspan="2">experience-element</td></tr>] *)
Definition tableHeader : node :=
  Element (str "tr") []
    [Element (str "td") [(str "colspan", str "2")]
       [Text (str "experience-element")]].

(** The table encoding of a component:
    [<table><tbody>header rows</tbody></table>]. *)
Definition tableEncoding (c : list modelRow) : node :=
  Element (str "table") []
    [Element (str "tbody") [] (tableHeader :: List.map tableRowOf c)].

(** The element name that a component declares: the content text of its
    first row labelled [element-name]. *)
Fixpoint componentName (c : list modelRow) : option jsstring :=
  match c with
  | [] => None
  | Labelled l content :: c' =>
      if streq (cellText l) (str "element-name") then Some (cellText content)
      else componentName c'
  | Unlabelled _ :: c' => componentName c'
  end.

(** Nodes without a table row or a table cell among them and below
    them: in a table such an element would be taken for a row or a cell
    of the component. *)
Definition noCells (cs : list node) : bool :=
  forallb (fun n => negb (hasTag (str "tr") n) && negb (hasTag (str "td") n))
    (flat_map subtree cs).

(** A label cell with an emphasised part, [<strong>] . *)
Definition emphasised (l : list node) : bool :=
  match querySelector (str "strong") (cell (str "div") l) with
  | Some _ => true
  | None => false
  end.

(** The emphasised part of a label, when there is one, is its whole
    text: the block pipeline reads the label from the emphasised part,
    the table pipeline from the cell. *)
Definition labelAgrees (l : list node) : bool :=
  match querySelector (str "strong") (cell (str "div") l) with
  | Some strongEl => streq (trim (textContent strongEl)) (cellText l)
  | None => true
  end.

(** A content that is one paragraph: what an unlabelled row unwraps. *)
Definition isSingleParagraph (content : node) : bool :=
  match children content with
  | [child] => hasTag (str "p") child
  | _ => false
  end.

(** The rows that the two pipelines treat alike.  Cells hold no table
    row or cell, and the emphasised part of a label is its whole text.
    A labelled row is then an [element-name] row, a style row, a
    reference row, or a row whose content has the same markup in a [div]
    and in a [td] cell and
    - holds an element with a [slot] attribute (and is not plain text), or
    - has an emphasised label that is not empty and is not plain text, or
    - has a label without emphasis and is plain text, or markup that is
      not one plain paragraph, holds no nested block and opens no
      block-level tag.
    A row of one cell is not the header text [experience-element], is
    not a reference row and, when it holds an element with a [slot]
    attribute, is not one paragraph. *)
Definition portableRow (r : modelRow) : bool :=
  match r with
  | Labelled l c =>
      let content := cell (str "div") c in
      let key := cellText l in
      let text := cellText c in
      let html := trim (innerHTML P content) in
      noCells l && noCells c && labelAgrees l
      && (streq key (str "element-name")
          || startsWith (str "style-") key
          || isReferenceRow text
          || streq html (trim (innerHTML P (cell (str "td") c)))
             && match querySelectorSlot content with
                | Some _ => negb (streq html text)
                | None =>
                    if emphasised l
                    then negb (streq html text) && truthy key
                    else streq html text
                         || negb (isSimplePWrapper content)
                            && match findNestedBlock content with
                               | Some _ => false
                               | None => true
                               end
                            && negb (rxTest rxBlockTag html)
                end)
  | Unlabelled c =>
      let content := cell (str "div") c in
      let text := cellText c in
      noCells c
      && negb (streq text (str "experience-element"))
      && negb (isReferenceRow text)
      && match querySelectorSlot content with
         | Some _ => negb (isSingleParagraph content)
         | None => true
         end
  end.

(** A component whose rows the two pipelines treat alike. *)
Definition portableComponent (c : list modelRow) : bool :=
  forallb portableRow c.

(** The label of a row of a block that reaches the plain-text rule, the
    last of the row loop of [convertBlock]: a label that is not empty,
    not emphasised, not [element-name] and not a style variable, with a
    content that is not a list of reference tokens, holds no element
    with a [slot] attribute and is plain text or one plain paragraph. *)
Definition attributeRowLabel (row : node) : option jsstring :=
  match parseBlockRow row with
  | Some parsed =>
      match slotName parsed with
      | Some l =>
          let text := trim (textContent (content parsed)) in
          let html := trim (innerHTML P (content parsed)) in
          if negb (streq l (str "element-name"))
             && negb (startsWith (str "style-") l)
             && negb (isReferenceRow text)
             && match querySelectorSlot (content parsed) with
                | Some _ => false
                | None => true
                end
             && negb (isSlot parsed)
             && (streq html text || isSimplePWrapper (content parsed))
             && truthy l
          then Some l
          else None
      | None => None
      end
  | None => None
  end.

(** The text of the content cell of a row. *)
Definition rowText (row : node) : jsstring :=
  match parseBlockRow row with
  | Some parsed => trim (textContent (content parsed))
  | None => []
  end.

(** The class tokens that [convertBlock] sets on the element as empty
    attributes, [otherClasses] in the source: all but the block class,
    [experience-element] and the element name. *)
Definition otherClasses (blockDiv : node) (blockClass elementName : jsstring)
  : list jsstring :=
  List.filter
    (fun c => negb (streq c blockClass)
              && negb (streq c (str "experience-element"))
              && negb (streq c elementName))
    (classTokens (className blockDiv)).

(** The value that a row of a block writes into the [style] attribute:
    the text of a row that reaches the plain-text rule with a label that
    is [style] in some letter case. *)
Definition styleAttributeRowOf (row : node) : option jsstring :=
  match attributeRowLabel row with
  | Some l =>
      if streq (asciiLower (attributeName l)) (str "style")
      then Some (rowText row)
      else None
  | None => None
  end.

(** The [style] attribute of the element of a block when its row loop
    ends: the text of the last row that writes it, else the empty value
    of a variant class [style], else what the created element has. *)
Definition styleBeforeMerge (blockDiv element : node)
  (blockClass elementName : jsstring) : option jsstring :=
  match last (omap styleAttributeRowOf (divChildren blockDiv)) with
  | Some text => Some text
  | None =>
      if existsb (fun c => streq (asciiLower c) (str "style"))
           (otherClasses blockDiv blockClass elementName)
      then Some []
      else getAttribute (str "style") element
  end.

(** The style variable that a row of a table declares: two cells, the
    first with a text that starts with [style-]. *)
Definition tableStyleRowOf (row : node) : option (jsstring * jsstring) :=
  match querySelectorAll (str "td") row with
  | [keyCell; valueCell] =>
      let key := trim (textContent keyCell) in
      if negb (streq key (str "element-name"))
         && startsWith (str "style-") key
      then Some (str "--" ++ substring 6 key, trim (textContent valueCell))
      else None
  | _ => None
  end.

(** The style rows of a table, in row order. *)
Definition tableStyleRows (table : node) : styleVars :=
  omap tableStyleRowOf (querySelectorAll (str "tr") table).

(** The value that a row of a table writes into the [style] attribute:
    the text of a row of two cells that reaches the plain-text rule of
    [convertTable] with a key that is [style] in some letter case. *)
Definition tableStyleAttributeRowOf (row : node) : option jsstring :=
  match querySelectorAll (str "td") row with
  | [keyCell; valueCell] =>
      let key := trim (textContent keyCell) in
      let text := trim (textContent valueCell) in
      let html := trim (innerHTML P valueCell) in
      if negb (streq key (str "element-name"))
         && negb (startsWith (str "style-") key)
         && negb (isReferenceRow text)
         && streq html text
         && truthy key
         && streq (asciiLower (attributeName key)) (str "style")
      then Some text
      else None
  | _ => None
  end.

(** The [style] attribute of the element of a table when its row loop
    ends. *)
Definition tableStyleBeforeMerge (table element : node) : option jsstring :=
  match last (omap tableStyleAttributeRowOf (querySelectorAll (str "tr") table))
  with
  | Some text => Some text
  | None => getAttribute (str "style") element
  end.

(** A block that [convertBlock] turns into a custom element: it has a
    custom-element class and an element name, and the parser gives the
    element [element] for the lower-cased name. *)
Definition convertsTo (blockDiv element : node) : Prop :=
  exists blockClass elementName,
    List.find isCustomElementClass (classTokens (className blockDiv))
    = Some blockClass
    /\ getElementName blockDiv = Some elementName
    /\ truthy elementName = true
    /\ parseCustomElement P (toLowerCase P elementName) = Some element.

(** [refersTo st b b']: the block [b] is converted and one of its rows
    reaches the reference rule with a token that the block map of [st]
    resolves to [b']. *)
Definition refersTo (st : deserializer) (b b' : node) : Prop :=
  exists element row parsed refId,
    convertsTo b element
    /\ row ∈ divChildren b
    /\ parseBlockRow row = Some parsed
    /\ slotName parsed <> Some (str "element-name")
    /\ (forall l, slotName parsed = Some l ->
                  startsWith (str "style-") l = false)
    /\ isReferenceRow (trim (textContent (content parsed))) = true
    /\ refId ∈ parseReferences (trim (textContent (content parsed)))
    /\ blockMap st !! refId = Some b'.

End Specification.

(* ===================================================================== *)
(** * Documents of the examples *)
(* ===================================================================== *)

Module Examples.

Import TestPlatform.

(** The stand-in platform without documents. *)
Definition browser : Platform := platform [] [].

(** [element-name: x-card] *)
Definition cardBlock : node :=
  block [blockRow "element-name" [txt "x-card"]].

(** [element-name: X-Card; title: Second] *)
Definition secondCardBlock : node :=
  block [blockRow "element-name" [txt "X-Card"]; blockRow "title" [txt "Second"]].

(** [element-name: ee-media; src: a.png] *)
Definition mediaBlock : node :=
  block [blockRow "element-name" [txt "ee-media"]; blockRow "src" [txt "a.png"]].

(** A block of class [experience-element] without an [element-name] row. *)
Definition unnamedBlock : node :=
  block [blockRow "title" [txt "Hello"]].

(** [→ ee-media-1] *)
Definition mediaRef : jsstring := arrow :: str " ee-media-1".

(** [element-name: paywall-card; media: → ee-media-1] *)
Definition paywallBlock : node :=
  block [blockRow "element-name" [txt "paywall-card"];
         blockRow "media" [Text mediaRef]].

(** The row [media: → ee-media-1, → missing-9]. *)
Definition mediaRow : node :=
  blockRow "media" [Text (mediaRef ++ str ", " ++ arrow :: str " missing-9")].

(** [element-name: x-card; style-note: → ee-media-1] *)
Definition styleRefBlock : node :=
  block [blockRow "element-name" [txt "x-card"];
         blockRow "style-note" [Text mediaRef]].

(** The deserializer after [buildBlockMap] on the blocks [blocks]. *)
Definition indexed (blocks : list node) : deserializer :=
  {| blockMap := buildBlockMap browser blocks; tableMap := ∅ |}.

(** [element-name: x-card; style-color: red; style-size: 2px;
    style-color: blue] *)
Definition styledBlock : node :=
  block [blockRow "element-name" [txt "x-card"];
         blockRow "style-color" [txt "red"];
         blockRow "style-size" [txt "2px"];
         blockRow "style-color" [txt "blue"]].

(** The same component as a table. *)
Definition styledTable : node :=
  table [tableRow "element-name" [txt "x-card"];
         tableRow "style-color" [txt "red"];
         tableRow "style-size" [txt "2px"];
         tableRow "style-color" [txt "blue"]].

(** [element-name: x-card; style: color: red] *)
Definition styleAttributeBlock : node :=
  block [blockRow "element-name" [txt "x-card"];
         blockRow "style" [txt "color: red"]].

(** The row of one cell [<div><div><p><b>x</b></p></div></div>]. *)
Definition boldParagraphRow : node :=
  el "div" [] [el "div" [] [el "p" [] [el "b" [] [txt "x"]]]].

(** [<x-card></x-card>] *)
Definition emptyCard : node := el "x-card" [] [].

(** A page without components: [<p>Hello</p>]. *)
Definition plainPage : list node := [el "p" [] [txt "Hello"]].

(** [element-name: x-card; title: Hello] as a table. *)
Definition cardTable : node :=
  table [tableRow "element-name" [txt "x-card"];
         tableRow "title" [txt "Hello"]].

(** A page with a table and with a block. *)
Definition mixedPage : list node := [mediaBlock; cardTable].

(** The page of two blocks of which the second refers to the first. *)
Definition paywallPage : list node := [mediaBlock; paywallBlock].

(** [element-name: paywall-card; plan-name: <p>Firefly Standard</p>] as
    a block and as a table. *)
Definition planBlock : node :=
  block [blockRow "element-name" [txt "paywall-card"];
         blockRow "plan-name" [el "p" [] [txt "Firefly Standard"]]].

Definition planTable : node :=
  table [tableRow "element-name" [txt "paywall-card"];
         tableRow "plan-name" [el "p" [] [txt "Firefly Standard"]]].

(** The stand-in platform that parses the markup
    [<p>Firefly Standard</p>]. *)
Definition planBrowser : Platform :=
  platform []
    [(str "<p>Firefly Standard</p>", [el "p" [] [txt "Firefly Standard"]])].

(** A row of the abstract document model with a plain label and a
    plain text. *)
Definition textRow (label text : jsstring) : modelRow :=
  Labelled [Text label] [Text text].

(** The components [ee-media] and [paywall-card] in the abstract
    document model.  The second refers to the first, has a style row
    and an [attr-type] row, a row [note] with inline markup, a row with
    the emphasised label [badge], a row whose content has a [slot]
    attribute and a row of one cell. *)
Definition mediaComponent : list modelRow :=
  [textRow (str "element-name") (str "ee-media");
   textRow (str "src") (str "a.png")].

Definition paywallComponent : list modelRow :=
  [textRow (str "element-name") (str "paywall-card");
   textRow (str "media") mediaRef;
   textRow (str "style-bg-color") (str "#fff");
   textRow (str "attr-type") (str "promo");
   Labelled [txt "note"] [el "b" [] [txt "New"]; txt " offer"];
   Labelled [el "strong" [] [txt "badge"]] [el "em" [] [txt "Hot"]];
   Labelled [txt "icons"] [el "i" [("slot", "icon")]%string [txt "x"]];
   Unlabelled [el "p" [] [txt "Terms "; el "i" [] [txt "apply"]]]].

(** The stand-in platform that parses the markup of these rows. *)
Definition markupBrowser : Platform :=
  platform []
    [(str "<b>New</b> offer", [el "b" [] [txt "New"]; txt " offer"]);
     (str "<em>Hot</em>", [el "em" [] [txt "Hot"]]);
     (str "<h2>T</h2>", [el "h2" [] [txt "T"]])].

(** [element-name: x-card; body: <h2>T</h2>] as a block and as a
    table. *)
Definition headingComponent : list modelRow :=
  [textRow (str "element-name") (str "x-card");
   Labelled [txt "body"] [el "h2" [] [txt "T"]]].

(** [element-name: x-card] and the row of one cell [→ ee-media-1]. *)
Definition unlabelledReference : list modelRow :=
  [textRow (str "element-name") (str "x-card");
   Unlabelled [Text mediaRef]].

(** [element-name: paywall-card] and the emphasised label [plan-name]
    with the content [Firefly Standard]. *)
Definition emphasisedBlock : node :=
  block [blockRow "element-name" [txt "paywall-card"];
         el "div" []
           [el "div" [] [el "strong" [] [txt "plan-name"]];
            el "div" [] [txt "Firefly Standard"]]].

(** [element-name: x-loop; self: → x-loop-1]: a block that refers to
    itself. *)
Definition selfBlock : node :=
  block [blockRow "element-name" [txt "x-loop"];
         blockRow "self" [Text (arrow :: str " x-loop-1")]].

(** [element-name: x-card; plan name: Pro]: a label with a space. *)
Definition spacedLabelBlock : node :=
  block [blockRow "element-name" [txt "x-card"];
         blockRow "plan name" [txt "Pro"]].

(** [element-name: x-outer; inner: → x-card-1] *)
Definition outerBlock : node :=
  block [blockRow "element-name" [txt "x-outer"];
         blockRow "inner" [Text (arrow :: str " x-card-1")]].

(** A table without an [element-name] row. *)
Definition unnamedTable : node := table [tableRow "title" [txt "Hello"]].

(** [<div><div>body</div><div><h2>T</h2> tail</div></div>] *)
Definition richCell : node :=
  el "div" [] [el "h2" [] [txt "T"]; txt " tail"].

End Examples.


(* ===================================================================== *)
(** * Properties *)
(* ===================================================================== *)

(** ** Strings and identifiers *)

Lemma streq_true (s t : jsstring) : streq s t = true <-> s = t.
Proof. unfold streq. apply bool_decide_eq_true. Qed.

Lemma streq_false (s t : jsstring) : streq s t = false <-> s <> t.
Proof. unfold streq. apply bool_decide_eq_false. Qed.

Lemma streq_refl (s : jsstring) : streq s s = true.
Proof. by apply streq_true. Qed.

Lemma str_inj (s t : string) : str s = str t -> s = t.
Proof.
  unfold str. revert t.
  induction s as [|a s IH]; intros [|b t]; simpl; try discriminate; auto.
  intros H. injection H as Hab Hst.
  f_equal; [| by apply IH].
  rewrite <- (ascii_N_embedding a), <- (ascii_N_embedding b).
  by rewrite Hab.
Qed.

(** A decimal numeral is made of digits. *)
Lemma decimal_digits (n : N) : Forall (fun c => isDigit c = true) (decimal n).
Proof.
  unfold decimal. generalize (N.to_uint n). intros d.
  induction d; simpl; constructor; auto.
Qed.

Lemma decimal_no_hyphen (n : N) : hyphen ∉ decimal n.
Proof.
  intros H. pose proof (decimal_digits n) as Hd.
  rewrite Forall_forall in Hd. specialize (Hd _ H). discriminate.
Qed.

Lemma decimal_inj (n m : N) : decimal n = decimal m -> n = m.
Proof.
  unfold decimal. intros H. apply str_inj in H.
  assert (Hu : N.to_uint n = N.to_uint m).
  { apply (f_equal DecimalString.NilEmpty.uint_of_string) in H.
    rewrite !DecimalString.NilEmpty.usu in H. congruence. }
  rewrite <- (DecimalN.Unsigned.of_to n), <- (DecimalN.Unsigned.of_to m).
  by rewrite Hu.
Qed.

(** The last hyphen of an identifier separates the name from the count. *)
Lemma split_at_last (c : N) (a b x y : jsstring) :
  c ∉ x -> c ∉ y -> a ++ c :: x = b ++ c :: y -> a = b /\ x = y.
Proof.
  intros Hx Hy. revert b.
  induction a as [|a0 a IH]; intros [|b0 b] H; simpl in H.
  - injection H as H. by split.
  - injection H as H0 H. exfalso. apply Hx. rewrite H.
    apply elem_of_app. right. left.
  - injection H as H0 H. exfalso. apply Hy. rewrite <- H.
    apply elem_of_app. right. left.
  - injection H as H0 H. destruct (IH b H) as [-> ->]. by subst.
Qed.

Lemma identifier_inj (n m : jsstring) (k l : N) :
  identifier n k = identifier m l -> n = m /\ k = l.
Proof.
  unfold identifier. simpl. intros H.
  apply split_at_last in H; auto using decimal_no_hyphen.
  destruct H as [-> H]. split; [done | by apply decimal_inj].
Qed.

(** ** Identifier assignment *)

Section Numbering.

Context (P : Platform) (nameOf : node -> option jsstring).

Lemma numberedName_named (b : node) :
  is_Some (numberedName P nameOf b) <-> named (nameOf b) = true.
Proof.
  unfold numberedName, named. destruct (nameOf b) as [n|]; simpl.
  - destruct (truthy n); split; intros H; try done; by destruct H.
  - split; intros H; [by destruct H | done].
Qed.

Lemma assignIds_length (blocks : list node) (counts : gmap jsstring N) :
  length (assignIds P nameOf counts blocks) = length blocks.
Proof.
  revert counts. induction blocks as [|b blocks IH]; intros counts; simpl.
  - done.
  - destruct (nameOf b) as [n|]; [destruct (truthy n)|]; simpl; by rewrite IH.
Qed.

Lemma assignIds_cons (b0 : node) (blocks : list node)
  (counts : gmap jsstring N) :
  assignIds P nameOf counts (b0 :: blocks)
  = match numberedName P nameOf b0 with
    | Some n0 =>
        let k := default 0 (counts !! n0) + 1 in
        Some (identifier n0 k) :: assignIds P nameOf (<[n0 := k]> counts) blocks
    | None => None :: assignIds P nameOf counts blocks
    end.
Proof.
  unfold numberedName. simpl.
  destruct (nameOf b0) as [name0|]; [destruct (truthy name0)|]; done.
Qed.

Lemma buildMapFrom_cons (b0 : node) (blocks : list node)
  (counts : gmap jsstring N) (m : gmap jsstring node) :
  buildMapFrom P nameOf counts m (b0 :: blocks)
  = match numberedName P nameOf b0 with
    | Some n0 =>
        let k := default 0 (counts !! n0) + 1 in
        buildMapFrom P nameOf (<[n0 := k]> counts)
          (<[identifier n0 k := b0]> m) blocks
    | None => buildMapFrom P nameOf counts m blocks
    end.
Proof.
  unfold numberedName. simpl.
  destruct (nameOf b0) as [name0|]; [destruct (truthy name0)|]; done.
Qed.

(** The identifier of a numbered block: its name and the counter of the
    name raised by the occurrences up to the block. *)
Lemma assignIds_numbered (blocks : list node) (counts : gmap jsstring N)
  (i : nat) (b : node) (n : jsstring) :
  blocks !! i = Some b ->
  numberedName P nameOf b = Some n ->
  assignIds P nameOf counts blocks !! i
  = Some (Some (identifier n
                  (default 0 (counts !! n)
                   + occurrences P nameOf n (take (S i) blocks)))).
Proof.
  revert counts i.
  induction blocks as [|b0 blocks IH]; intros counts i Hi Hn; [done|].
  rewrite assignIds_cons.
  change (take (S i) (b0 :: blocks)) with (b0 :: take i blocks).
  cbn [occurrences].
  destruct i as [|i]; simpl in Hi.
  - injection Hi as ->. rewrite Hn. rewrite bool_decide_eq_true_2 by done.
    rewrite take_0. simpl. first [done | do 3 f_equal; lia].
  - destruct (numberedName P nameOf b0) as [n0|] eqn:Hn0; cbn zeta.
    + change ((?x :: ?l) !! S i) with (l !! i).
      rewrite (IH _ i Hi Hn). do 3 f_equal.
      case_bool_decide as Hd.
      * injection Hd as ->. rewrite lookup_insert_eq. simpl. lia.
      * rewrite lookup_insert_ne by congruence. lia.
    + change ((?x :: ?l) !! S i) with (l !! i).
      rewrite (IH _ i Hi Hn). rewrite bool_decide_eq_false_2 by done.
      do 3 f_equal.
Qed.

Lemma assignIds_unnumbered (blocks : list node) (counts : gmap jsstring N)
  (i : nat) (b : node) :
  blocks !! i = Some b ->
  numberedName P nameOf b = None ->
  assignIds P nameOf counts blocks !! i = Some None.
Proof.
  revert counts i.
  induction blocks as [|b0 blocks IH]; intros counts i Hi Hn; [done|].
  rewrite assignIds_cons.
  destruct i as [|i]; simpl in Hi.
  - injection Hi as ->. by rewrite Hn.
  - destruct (numberedName P nameOf b0); cbn zeta; by apply IH.
Qed.

(** An identifier is assigned to the numbered blocks only. *)
Lemma assignIds_inv (blocks : list node) (counts : gmap jsstring N)
  (i : nat) (id : jsstring) :
  assignIds P nameOf counts blocks !! i = Some (Some id) ->
  exists b n, blocks !! i = Some b /\ numberedName P nameOf b = Some n
    /\ id = identifier n
              (default 0 (counts !! n)
               + occurrences P nameOf n (take (S i) blocks)).
Proof.
  intros H.
  assert (Hlt : (i < length blocks)%nat).
  { rewrite <- (assignIds_length blocks counts). by eapply lookup_lt_Some. }
  destruct (lookup_lt_is_Some_2 _ _ Hlt) as [b Hb].
  destruct (numberedName P nameOf b) as [n|] eqn:Hn.
  - exists b, n. split; [done|]. split; [done|].
    rewrite (assignIds_numbered _ _ _ _ _ Hb Hn) in H. congruence.
  - rewrite (assignIds_unnumbered _ _ _ _ Hb Hn) in H. discriminate.
Qed.

Lemma occurrences_take_pos (blocks : list node) (j : nat) (b : node)
  (n : jsstring) :
  blocks !! j = Some b -> numberedName P nameOf b = Some n ->
  1 <= occurrences P nameOf n (take (S j) blocks).
Proof.
  revert j. induction blocks as [|b0 blocks IH]; intros j Hj Hn; [done|].
  destruct j as [|j]; simpl in Hj.
  - injection Hj as ->. simpl. rewrite bool_decide_eq_true_2 by done. lia.
  - change (take (S (S j)) (b0 :: blocks)) with (b0 :: take (S j) blocks).
    simpl. specialize (IH j Hj Hn). lia.
Qed.

(** The running counter grows strictly along the blocks of one name. *)
Lemma occurrences_take_lt (blocks : list node) (i j : nat) (b : node)
  (n : jsstring) :
  (i < j)%nat -> blocks !! j = Some b -> numberedName P nameOf b = Some n ->
  occurrences P nameOf n (take (S i) blocks)
  < occurrences P nameOf n (take (S j) blocks).
Proof.
  revert i j. induction blocks as [|b0 blocks IH]; intros i j Hij Hj Hn; [done|].
  destruct j as [|j]; [lia|]. simpl in Hj.
  change (take (S (S j)) (b0 :: blocks)) with (b0 :: take (S j) blocks).
  destruct i as [|i].
  - simpl. rewrite ?take_0. simpl.
    pose proof (occurrences_take_pos blocks j b n Hj Hn). lia.
  - change (take (S (S i)) (b0 :: blocks)) with (b0 :: take (S i) blocks).
    simpl. assert (Hij' : (i < j)%nat) by lia.
    specialize (IH i j Hij' Hj Hn). lia.
Qed.

(** No identifier is assigned twice. *)
Lemma assignIds_unique (blocks : list node) (counts : gmap jsstring N)
  (i j : nat) (id : jsstring) :
  assignIds P nameOf counts blocks !! i = Some (Some id) ->
  assignIds P nameOf counts blocks !! j = Some (Some id) ->
  i = j.
Proof.
  intros Hi Hj.
  destruct (assignIds_inv _ _ _ _ Hi) as (bi & ni & Hbi & Hni & Ei).
  destruct (assignIds_inv _ _ _ _ Hj) as (bj & nj & Hbj & Hnj & Ej).
  rewrite Ei in Ej. apply identifier_inj in Ej. destruct Ej as [<- Ek].
  destruct (Nat.lt_trichotomy i j) as [Hlt|[->|Hlt]]; [|done|].
  - pose proof (occurrences_take_lt blocks i j bj ni Hlt Hbj Hnj). lia.
  - pose proof (occurrences_take_lt blocks j i bi ni Hlt Hbi Hni). lia.
Qed.

(** An identifier that the loop does not assign keeps its entry. *)
Lemma buildMapFrom_other (blocks : list node) (counts : gmap jsstring N)
  (m : gmap jsstring node) (id : jsstring) :
  (forall j, assignIds P nameOf counts blocks !! j <> Some (Some id)) ->
  buildMapFrom P nameOf counts m blocks !! id = m !! id.
Proof.
  revert counts m.
  induction blocks as [|b0 blocks IH]; intros counts m H; [done|].
  rewrite buildMapFrom_cons. rewrite assignIds_cons in H.
  destruct (numberedName P nameOf b0) as [n0|]; cbn zeta in *.
  - rewrite IH.
    + apply lookup_insert_ne. intros E. by apply (H 0%nat); rewrite E.
    + intros j. apply (H (S j)).
  - apply IH. intros j. apply (H (S j)).
Qed.

(** The map holds each block under its identifier. *)
Lemma buildMapFrom_assigned (blocks : list node) (counts : gmap jsstring N)
  (m : gmap jsstring node) (i : nat) (id : jsstring) (b : node) :
  assignIds P nameOf counts blocks !! i = Some (Some id) ->
  blocks !! i = Some b ->
  buildMapFrom P nameOf counts m blocks !! id = Some b.
Proof.
  intros Hid Hb.
  assert (Hu : forall j, assignIds P nameOf counts blocks !! j = Some (Some id)
                         -> j = i).
  { intros j Hj. by eapply assignIds_unique. }
  revert counts m i Hid Hb Hu.
  induction blocks as [|b0 blocks IH]; intros counts m i Hid Hb Hu; [done|].
  rewrite buildMapFrom_cons. rewrite assignIds_cons in Hid, Hu.
  destruct (numberedName P nameOf b0) as [n0|]; cbn zeta in *.
  - destruct i as [|i]; simpl in Hid, Hb.
    + injection Hid as <-. injection Hb as ->.
      rewrite buildMapFrom_other; [apply lookup_insert_eq|].
      intros j Hj. specialize (Hu (S j) Hj). discriminate.
    + apply (IH _ _ i); auto.
      intros j Hj. specialize (Hu (S j) Hj). lia.
  - destruct i as [|i]; simpl in Hid, Hb; [done|].
    apply (IH _ _ i); auto.
    intros j Hj. specialize (Hu (S j) Hj). lia.
Qed.

(** An entry of the map is an old entry or an assigned identifier. *)
Lemma buildMapFrom_inv (blocks : list node) (counts : gmap jsstring N)
  (m : gmap jsstring node) (id : jsstring) (b : node) :
  buildMapFrom P nameOf counts m blocks !! id = Some b ->
  m !! id = Some b
  \/ exists i, assignIds P nameOf counts blocks !! i = Some (Some id)
               /\ blocks !! i = Some b.
Proof.
  revert counts m.
  induction blocks as [|b0 blocks IH]; intros counts m H; [by left|].
  rewrite buildMapFrom_cons in H. rewrite assignIds_cons.
  destruct (numberedName P nameOf b0) as [n0|]; cbn zeta in *.
  - destruct (IH _ _ H) as [Hm|(i & Hi & Hb)].
    + destruct (decide (identifier n0 (default 0 (counts !! n0) + 1) = id))
        as [E|Hne].
      * rewrite E in Hm. rewrite lookup_insert_eq in Hm. injection Hm as ->.
        right. exists 0%nat. by rewrite <- E.
      * rewrite lookup_insert_ne in Hm by done. by left.
    + right. by exists (S i).
  - destruct (IH _ _ H) as [Hm|(i & Hi & Hb)]; [by left|right; by exists (S i)].
Qed.

End Numbering.

(** ** Root selection *)

Section RootSelection.

Context (P : Platform) (nameOf : node -> option jsstring).

Lemma elem_of_referencedIds (blocks : list node) (id : jsstring) :
  id ∈ referencedIds blocks
  <-> exists b, b ∈ blocks /\ id ∈ parseReferences (textContent b).
Proof.
  unfold referencedIds. rewrite elem_of_list_to_set, list_elem_of_In, in_flat_map.
  split; intros (b & Hb & Hid); exists b.
  - by rewrite !list_elem_of_In.
  - by rewrite <- !list_elem_of_In.
Qed.

Lemma unreferencedOf_sublist (R : gset jsstring) (blocks : list node)
  (ids : list (option jsstring)) :
  sublist (unreferencedOf R blocks ids) blocks.
Proof.
  revert ids. induction blocks as [|b blocks IH]; intros ids; simpl.
  - apply sublist_nil.
  - destruct ids as [|[id|] ids].
    + apply sublist_nil_l.
    + case_bool_decide; [apply sublist_cons | apply sublist_skip]; apply IH.
    + apply sublist_cons, IH.
Qed.

Lemma elem_of_unreferencedOf (R : gset jsstring) (blocks : list node)
  (ids : list (option jsstring)) (b : node) :
  b ∈ unreferencedOf R blocks ids
  <-> exists i id, blocks !! i = Some b /\ ids !! i = Some (Some id) /\ id ∉ R.
Proof.
  revert ids. induction blocks as [|b0 blocks IH]; intros ids; simpl.
  - split; [by intros ?%elem_of_nil | by intros (i & id & ? & _)].
  - destruct ids as [|[id0|] ids].
    + split; [by intros ?%elem_of_nil | by intros (i & id & _ & ? & _)].
    + case_bool_decide as Hd.
      * rewrite IH. split.
        -- intros (i & id & ? & ? & ?). by exists (S i), id.
        -- intros ([|i] & id & Hb & Hi & Hn); simpl in *.
           ++ congruence.
           ++ by exists i, id.
      * rewrite elem_of_cons, IH. split.
        -- intros [->|(i & id & ? & ? & ?)].
           ++ by exists 0%nat, id0.
           ++ by exists (S i), id.
        -- intros ([|i] & id & Hb & Hi & Hn); simpl in *.
           ++ left. congruence.
           ++ right. by exists i, id.
    + rewrite IH. split.
      * intros (i & id & ? & ? & ?). by exists (S i), id.
      * intros ([|i] & id & Hb & Hi & Hn); simpl in *; [done|].
        by exists i, id.
Qed.

(** When every block has an identifier and none is referred to, all the
    blocks are unreferenced. *)
Lemma unreferencedOf_all (R : gset jsstring) (blocks : list node)
  (ids : list (option jsstring)) :
  length ids = length blocks ->
  (forall i o, ids !! i = Some o -> exists id, o = Some id /\ id ∉ R) ->
  unreferencedOf R blocks ids = blocks.
Proof.
  revert ids. induction blocks as [|b blocks IH]; intros ids Hl H; [done|].
  destruct ids as [|o ids]; [done|]. simpl in Hl.
  destruct (H 0%nat o eq_refl) as (id & -> & Hid). simpl.
  rewrite bool_decide_eq_false_2 by done. f_equal.
  apply IH; [lia|]. intros i o' Ho'. apply (H (S i) o' Ho').
Qed.


Lemma last_elem_of {A : Type} (l : list A) (x : A) : last l = Some x -> x ∈ l.
Proof.
  intros H. apply last_Some in H. destruct H as [l' ->].
  apply elem_of_app. right. left.
Qed.

(** A block that root selection picks is unreferenced, or it is the last
    block and no block is unreferenced. *)
Lemma findRoot_cases (blocks : list node) (b : node) :
  findRoot P nameOf blocks = Some b ->
  b ∈ unreferencedBlocks P nameOf blocks
  \/ (last blocks = Some b /\ unreferencedBlocks P nameOf blocks = []).
Proof.
  unfold findRoot. destruct blocks as [|b1 [|b2 blocks]]; [done| |].
  - intros [= ->].
    destruct (unreferencedBlocks P nameOf [b]) as [|u us] eqn:E; [by right|].
    left.
    assert (Hu : u ∈ unreferencedBlocks P nameOf [b]) by (rewrite E; left).
    pose proof Hu as Hu'. unfold unreferencedBlocks in Hu'.
    rewrite elem_of_unreferencedOf in Hu'.
    destruct Hu' as ([|i] & id & Hb & _); simpl in Hb; [|done].
    injection Hb as ->. by rewrite <- E.
  - destruct (unreferencedBlocks P nameOf (b1 :: b2 :: blocks))
      as [|u [|u' us]] eqn:E.
    + intros H. by right.
    + intros [= ->]. left. left.
    + intros H. left. by apply last_elem_of.
Qed.

End RootSelection.

(** C7.  Identifier assignment numbers the components in document order
    with one running counter per lower-cased name, from 1: the component
    at position [i] with the lower-cased name [n] gets the identifier
    [n-k] where [k] counts the components of that name up to position
    [i], and the identifier map holds it under that identifier; a
    component without a name gets none.  So no identifier is assigned
    twice, and of two components with the same lower-cased name the
    earlier one has the strictly smaller count.  [buildBlockMap] is
    [buildMapFrom] with [getElementName] and [buildTableMap] is
    [buildMapFrom] with [getElementNameFromTable]; [assignIds] is the
    same loop in [findRootBlock] and [findRootTable]. *)
Theorem identifier_assignment (P : Platform)
  (nameOf : node -> option jsstring) (blocks : list node) :
  let ids := assignIds P nameOf ∅ blocks in
  let index := buildMapFrom P nameOf ∅ ∅ blocks in
  (forall i b n,
      blocks !! i = Some b -> numberedName P nameOf b = Some n ->
      let k := occurrences P nameOf n (take (S i) blocks) in
      1 <= k
      /\ ids !! i = Some (Some (identifier n k))
      /\ index !! identifier n k = Some b)
  /\ (forall i b,
         blocks !! i = Some b -> numberedName P nameOf b = None ->
         ids !! i = Some None)
  /\ (forall id b,
         index !! id = Some b
         <-> exists i, ids !! i = Some (Some id) /\ blocks !! i = Some b)
  /\ (forall i j id,
         ids !! i = Some (Some id) -> ids !! j = Some (Some id) -> i = j)
  /\ (forall i j n k l,
         (i < j)%nat ->
         ids !! i = Some (Some (identifier n k)) ->
         ids !! j = Some (Some (identifier n l)) ->
         k < l).
Proof.
  intros ids index. subst ids index.
  assert (H1 : forall i b n,
             blocks !! i = Some b -> numberedName P nameOf b = Some n ->
             assignIds P nameOf ∅ blocks !! i
             = Some (Some (identifier n
                             (occurrences P nameOf n (take (S i) blocks))))).
  { intros i b n Hb Hn.
    rewrite (assignIds_numbered P nameOf blocks ∅ i b n Hb Hn).
    by rewrite lookup_empty. }
  repeat split.
  - eapply occurrences_take_pos; eauto.
  - eauto.
  - eapply buildMapFrom_assigned; eauto.
  - intros i b Hb Hn. by eapply assignIds_unnumbered.
  - intros H. apply buildMapFrom_inv in H.
    destruct H as [H|H]; [by rewrite lookup_empty in H | done].
  - intros (i & Hi & Hb). by eapply buildMapFrom_assigned.
  - intros i j id. apply assignIds_unique.
  - intros i j n k l Hij Hi Hj.
    destruct (assignIds_inv _ _ _ _ _ _ Hi) as (bi & ni & Hbi & Hni & Ei).
    destruct (assignIds_inv _ _ _ _ _ _ Hj) as (bj & nj & Hbj & Hnj & Ej).
    apply identifier_inj in Ei, Ej. destruct Ei as [<- ->], Ej as [<- ->].
    rewrite lookup_empty. simpl.
    by eapply occurrences_take_lt.
Qed.

(** Three blocks, the first and the third named [x-card] up to case: the
    third is [x-card-2], after [x-card-1]. *)
Lemma identifier_assignment_witness :
  buildBlockMap Examples.browser
    [Examples.cardBlock; Examples.mediaBlock; Examples.secondCardBlock]
  !! str "x-card-2" = Some Examples.secondCardBlock
  /\ 1 < 2.
Proof.
  pose proof (identifier_assignment Examples.browser getElementName
                [Examples.cardBlock; Examples.mediaBlock;
                 Examples.secondCardBlock]) as (H1 & _ & _ & _ & H5).
  split.
  - exact (proj2 (proj2 (H1 2%nat Examples.secondCardBlock (str "x-card")
                           eq_refl eq_refl))).
  - apply (H5 0%nat 2%nat (str "x-card") 1 2); [lia| |]; vm_compute; reflexivity.
Defined.

(** C2 (amended).  Root selection.  [U] is the list, in document order,
    of the components that have an identifier to which no component's
    text refers.  A sole component is the root.  With two components or
    more the root is the only member of [U] when there is one, the last
    member of [U] when there are several, and the last component when
    [U] is empty.  When every component has an element name and no text
    holds a reference token, the root is the last component.
    [findRootBlock] is [findRoot] with [getElementName] and
    [findRootTable] is [findRoot] with [getElementNameFromTable]. *)
Theorem root_selection (P : Platform) (nameOf : node -> option jsstring)
  (blocks : list node) :
  let U := unreferencedBlocks P nameOf blocks in
  let root := findRoot P nameOf blocks in
  (forall b,
      b ∈ U
      <-> exists i id,
            blocks !! i = Some b
            /\ assignIds P nameOf ∅ blocks !! i = Some (Some id)
            /\ forall b', b' ∈ blocks -> id ∉ parseReferences (textContent b'))
  /\ sublist U blocks
  /\ (forall b, blocks = [b] -> root = Some b)
  /\ ((2 <= length blocks)%nat ->
      (forall u, U = [u] -> root = Some u)
      /\ (U <> [] -> root = last U)
      /\ (U = [] -> root = last blocks))
  /\ ((forall b, b ∈ blocks -> named (nameOf b) = true) ->
      (forall b, b ∈ blocks -> parseReferences (textContent b) = []) ->
      root = last blocks).
Proof.
  intros U root. subst U root. split; [|split; [|split; [|split]]].
  - intros b. unfold unreferencedBlocks. rewrite elem_of_unreferencedOf.
    split; intros (i & id & Hb & Hi & Hn); exists i, id;
      (split; [done|split; [done|]]).
    + intros b' Hb' Hid. apply Hn. apply elem_of_referencedIds. eauto.
    + intros (b' & Hb' & Hid)%elem_of_referencedIds. by apply (Hn b').
  - apply unreferencedOf_sublist.
  - by intros b ->.
  - intros Hlen. unfold findRoot.
    destruct blocks as [|b1 [|b2 blocks']]; simpl in Hlen; [lia|lia|].
    destruct (unreferencedBlocks P nameOf (b1 :: b2 :: blocks'))
      as [|u [|u' us]]; repeat split; try done.
    intros u0 [= ->]. done.
  - intros Hnamed Hnone.
    assert (HU : unreferencedBlocks P nameOf blocks = blocks).
    { apply unreferencedOf_all; [apply assignIds_length|].
      intros i o Ho.
      assert (Hlt : (i < length blocks)%nat).
      { rewrite <- (assignIds_length P nameOf blocks ∅).
        by eapply lookup_lt_Some. }
      destruct (lookup_lt_is_Some_2 _ _ Hlt) as [b Hb].
      assert (Hin : b ∈ blocks) by (by eapply list_elem_of_lookup_2).
      destruct (proj2 (numberedName_named P nameOf b) (Hnamed b Hin))
        as [n Hn].
      rewrite (assignIds_numbered P nameOf _ _ _ _ _ Hb Hn) in Ho.
      injection Ho as <-. eexists. split; [done|].
      intros (b' & Hb' & Hid)%elem_of_referencedIds.
      rewrite (Hnone b' Hb') in Hid. by apply elem_of_nil in Hid. }
    unfold findRoot. rewrite HU.
    destruct blocks as [|b1 [|b2 blocks']]; done.
Qed.

(** Two named components without reference tokens: the second is the
    root. *)
Lemma root_selection_witness :
  findRootBlock Examples.browser [Examples.cardBlock; Examples.mediaBlock]
  = Some Examples.mediaBlock.
Proof.
  refine (proj2 (proj2 (proj2 (proj2
            (root_selection Examples.browser getElementName
               [Examples.cardBlock; Examples.mediaBlock])))) _ _).
  - intros b Hb. apply list_elem_of_In in Hb.
    destruct Hb as [<-|[<-|[]]]; reflexivity.
  - intros b Hb. apply list_elem_of_In in Hb.
    destruct Hb as [<-|[<-|[]]]; reflexivity.
Defined.

(** C2, as stated, fails: of two components without reference tokens,
    the last one without an element name, the first is the root, not the
    last. *)
Lemma root_selection_counterexample :
  let blocks := [Examples.cardBlock; Examples.unnamedBlock] in
  (2 <= length blocks)%nat
  /\ flat_map (fun b => parseReferences (textContent b)) blocks = []
  /\ last blocks = Some Examples.unnamedBlock
  /\ findRootBlock Examples.browser blocks = Some Examples.cardBlock
  /\ findRootBlock Examples.browser blocks <> last blocks.
Proof.
  cbv zeta. split; [simpl; lia|].
  split; [vm_compute; reflexivity|].
  split; [reflexivity|].
  assert (H : findRootBlock Examples.browser
                [Examples.cardBlock; Examples.unnamedBlock]
              = Some Examples.cardBlock) by (vm_compute; reflexivity).
  split; [exact H|]. rewrite H. simpl. discriminate.
Qed.

(** ** Components without an element name *)

Lemma convertBlock_unnamed (P : Platform) (fuel : nat) (st : deserializer)
  (b : node) :
  named (getElementName b) = false -> convertBlock P (S fuel) st b = Ok b.
Proof.
  intros H. simpl. unfold convertBlockBody.
  destruct (find _ _); [|done].
  unfold named in H. destruct (getElementName b) as [n|]; [|done].
  by rewrite H.
Qed.

Lemma convertTable_unnamed (P : Platform) (fuel : nat) (st : deserializer)
  (table : node) :
  named (getElementNameFromTable table) = false ->
  convertTable P (S fuel) st table = Ok None.
Proof.
  intros H. simpl. unfold convertTableBody.
  unfold named in H. destruct (getElementNameFromTable table) as [n|]; [|done].
  by rewrite H.
Qed.





(** ** Trees *)

(** Induction on a node with the hypothesis for every child. *)
Lemma node_rect_children (Q : node -> Prop) :
  (forall t a cs, Forall Q cs -> Q (Element t a cs)) ->
  (forall d, Q (Text d)) ->
  (forall d, Q (Comment d)) ->
  forall n, Q n.
Proof.
  intros HE HT HC. fix IH 1. intros [t a cs|d|d].
  - apply HE. revert cs. fix IHcs 1. intros [|c cs].
    + constructor.
    + constructor.
      * apply IH.
      * apply IHcs.
  - apply HT.
  - apply HC.
Qed.

Lemma subtree_Element (t : jsstring) (a : list (jsstring * jsstring))
  (cs : list node) :
  subtree (Element t a cs) = Element t a cs :: flat_map subtree cs.
Proof. simpl. f_equal; induction cs as [|c cs IH]; simpl; by rewrite ?IH. Qed.

Lemma findBlocks_Element (t : jsstring) (a : list (jsstring * jsstring))
  (cs : list node) :
  findBlocks (Element t a cs)
  = if isComponentBlock (Element t a cs) then [Element t a cs]
    else flat_map findBlocks cs.
Proof.
  unfold isComponentBlock. simpl.
  destruct (_ && _ && _); [done|].
  induction cs as [|c cs IH]; simpl; by rewrite ?IH.
Qed.

(** ** Documents without components *)

Lemma findBlocks_none (n : node) :
  Forall (fun x => isComponentBlock x = false) (subtree n) ->
  findBlocks n = [].
Proof.
  induction n as [t a cs IH| |] using node_rect_children; [|done|done].
  rewrite subtree_Element, findBlocks_Element.
  intros H. apply Forall_cons in H. destruct H as [-> H].
  induction cs as [|c cs IHcs]; [done|]. simpl in *.
  apply Forall_app in H. destruct H as [Hc Hcs].
  apply Forall_cons in IH. destruct IH as [IHc IH].
  rewrite (IHc Hc). by apply IHcs.
Qed.

(** C8.  When the document holds no experience-element table and no
    component-marked block, [fromEDS] returns its input markup as it is,
    and no map of the deserializer changes. *)
Theorem no_components_passthrough (P : Platform) (fuel : nat)
  (st : deserializer) (html : jsstring) (inTr : bool) (root : node) :
  documentRoot (parseFromString P html) = (inTr, root) ->
  Forall (fun x => hasTag (str "table") (snd x)
                   && isExperienceTable (fst x) (snd x) = false)
    (descendantsCtx inTr root) ->
  Forall (fun n => isComponentBlock n = false) (subtree root) ->
  fromEDS P fuel st html = (st, Ok html).
Proof.
  intros Hroot Htables Hblocks. unfold fromEDS. rewrite Hroot.
  assert (Ht : findTables inTr root = []).
  { unfold findTables.
    induction (descendantsCtx inTr root) as [|x l IH]; [done|].
    apply Forall_cons in Htables. destruct Htables as [Hx Hl].
    simpl. rewrite Hx. by apply IH. }
  rewrite Ht. by rewrite (findBlocks_none root Hblocks).
Qed.

(** ** The table pipeline *)

Lemma foldM_ext {A B : Type} (f g : B -> A -> res B) (l : list A) (b : B) :
  (forall b a, f b a = g b a) -> foldM f l b = foldM g l b.
Proof.
  intros H. revert b. induction l as [|a l IH]; intros b; simpl; [done|].
  rewrite H. destruct (g b a); simpl; [apply IH | done].
Qed.

Lemma resolveReferences_ext (convert convert' : node -> res (option node))
  (annotate : node -> res node) (index : gmap jsstring node)
  (refs : list jsstring) (element : node) :
  (forall b, convert b = convert' b) ->
  resolveReferences convert annotate index refs element
  = resolveReferences convert' annotate index refs element.
Proof.
  intros H. unfold resolveReferences. apply foldM_ext.
  intros el refId. destruct (index !! refId); [|done]. by rewrite H.
Qed.

Lemma convertTableRow_ext (P : Platform)
  (convert convert' : node -> res (option node)) (st st' : deserializer)
  (acc : node * styleVars) (row : node) :
  (forall b, convert b = convert' b) -> tableMap st = tableMap st' ->
  convertTableRow P convert st acc row = convertTableRow P convert' st' acc row.
Proof.
  intros H Hm. unfold convertTableRow. destruct acc as [element vars].
  destruct (querySelectorAll (str "td") row) as [|c0 [|c1 [|c2 cells]]];
    try done.
  rewrite Hm.
  by rewrite (resolveReferences_ext convert convert' _ _ _ _ H).
Qed.

(** [convertTable] reads the table map only. *)
Lemma convertTable_tableMap (P : Platform) (fuel : nat)
  (st st' : deserializer) (table : node) :
  tableMap st = tableMap st' ->
  convertTable P fuel st table = convertTable P fuel st' table.
Proof.
  intros Hm. revert table. induction fuel as [|fuel IH]; intros table; [done|].
  simpl. unfold convertTableBody.
  destruct (getElementNameFromTable table) as [name|]; [|done].
  destruct (negb (truthy name)); [done|].
  destruct (parseCustomElement P (toLowerCase P name)); [|done].
  by rewrite (foldM_ext _ _ _ _
                (fun acc row => convertTableRow_ext P _ _ st st' acc row IH Hm)).
Qed.

Lemma findRoot_elem_of (P : Platform) (nameOf : node -> option jsstring)
  (blocks : list node) (b : node) :
  findRoot P nameOf blocks = Some b -> b ∈ blocks.
Proof.
  intros H. destruct (findRoot_cases P nameOf blocks b H) as [Hin|[Hl _]].
  - unfold unreferencedBlocks in Hin. apply elem_of_unreferencedOf in Hin.
    destruct Hin as (i & id & Hb & _). by eapply list_elem_of_lookup_2.
  - by apply last_elem_of.
Qed.

Lemma findRoot_is_Some (P : Platform) (nameOf : node -> option jsstring)
  (blocks : list node) :
  blocks <> [] -> is_Some (findRoot P nameOf blocks).
Proof.
  intros Hne. unfold findRoot.
  destruct blocks as [|b1 [|b2 blocks]]; [done|by eexists|].
  destruct (unreferencedBlocks P nameOf (b1 :: b2 :: blocks))
    as [|u [|u' us]]; try by eexists.
  - by rewrite last_cons_cons, last_is_Some.
  - by rewrite last_cons_cons, last_is_Some.
Qed.

(** C9.  When the document holds an experience-element table, both
    entry points run the table pipeline alone: the block map of the
    deserializer stays as it was (no block gets an identifier), the root
    is chosen among the tables, and the result is what [convertTable]
    gives with the table map and an empty block map (no reference
    resolves to a block). *)
Theorem tables_take_precedence (P : Platform) (fuel : nat)
  (st : deserializer) (html : jsstring) (inTr : bool) (root : node)
  (table : node) (tables : list node) :
  documentRoot (parseFromString P html) = (inTr, root) ->
  findTables inTr root = table :: tables ->
  let index := buildTableMap P (table :: tables) in
  let after := {| blockMap := blockMap st; tableMap := index |} in
  let tablesOnly := {| blockMap := ∅; tableMap := index |} in
  exists rootTable,
    findRootTable P (table :: tables) = Some rootTable
    /\ rootTable ∈ table :: tables
    /\ fromEDS P fuel st html
       = (after,
          converted ← convertTable P fuel tablesOnly rootTable;
          Ok (match converted with
              | Some c => outerHTML P c
              | None => html
              end))
    /\ toElement P fuel st html
       = (after, convertTable P fuel tablesOnly table).
Proof.
  intros Hroot Htables index after tablesOnly.
  destruct (findRoot_is_Some P getElementNameFromTable (table :: tables))
    as [rootTable Hr]; [done|].
  exists rootTable. split; [exact Hr|].
  split; [by eapply findRoot_elem_of|].
  unfold fromEDS, toElement. rewrite Hroot, Htables.
  fold index. fold after. unfold findRootTable in Hr |- *. rewrite Hr.
  by rewrite !(convertTable_tableMap P fuel after tablesOnly).
Qed.

(** ** Reference rows *)

Section Rows.

Context (P : Platform).

Lemma appendChildren_cons (c : node) (cs : list node) (el : node) :
  appendChildren (c :: cs) el = appendChildren cs (appendChild c el).
Proof. destruct el; simpl; [|done|done]. by rewrite <- app_assoc. Qed.

Lemma appendChildren_nil (el : node) : appendChildren [] el = el.
Proof. destruct el; simpl; [|done|done]. by rewrite app_nil_r. Qed.

Lemma setAttribute_slot (l : jsstring) (el : node) :
  setAttribute P (str "slot") l el = Ok (withAttribute (str "slot") l el).
Proof. unfold setAttribute. by rewrite slot_valid. Qed.

Lemma setAttribute_style (v : jsstring) (el : node) :
  setAttribute P (str "style") v el = Ok (withAttribute (str "style") v el).
Proof. unfold setAttribute. by rewrite style_valid. Qed.

Lemma slotUnlessChildren_slotted (label : option jsstring) (el : node) :
  slotUnlessChildren P label el = Ok (slotted label el).
Proof.
  unfold slotUnlessChildren, slotted. destruct label as [l|]; [|done].
  destruct (_ && _); [apply setAttribute_slot | done].
Qed.

(** The loop over the references appends the converted components that
    the tokens resolve to, each with its annotation. *)
Lemma resolveReferences_mapM (convert : node -> res node)
  (annotate : node -> res node) (f : node -> node)
  (index : gmap jsstring node) (refs : list jsstring) (element : node) :
  (forall c, annotate c = Ok (f c)) ->
  resolveReferences (fun b => c ← convert b; Ok (Some c)) annotate index
    refs element
  = cs ← mapM convert (resolved index refs);
    Ok (appendChildren (List.map f cs) element).
Proof.
  intros Hf. unfold resolveReferences, resolved. revert element.
  induction refs as [|r refs IH]; intros element; simpl.
  - by rewrite appendChildren_nil.
  - destruct (index !! r) as [b|]; simpl; [|apply IH].
    destruct (convert b) as [c|e]; simpl; [|done].
    rewrite Hf. simpl. rewrite IH.
    destruct (mapM convert _) as [cs|e]; simpl; [|done].
    by rewrite appendChildren_cons.
Qed.

End Rows.

(** C3 (amended).  A row that reaches the reference rule (its label is
    not [element-name] and does not start with [style-]) and whose text
    holds reference tokens and nothing else: the components that the
    tokens resolve to in the identifier index are converted by the
    recursive call, in the order of the tokens, and appended to the
    element, each with [slot] set to the label when the row has a
    non-empty label other than [children]; a token without an entry
    contributes nothing; the attributes and the style variables stay as
    they were, whatever number of tokens resolve. *)
Theorem reference_row (P : Platform) (fuel : nat) (st : deserializer)
  (element : node) (vars : styleVars) (row : node) (parsed : parsedRow) :
  parseBlockRow row = Some parsed ->
  slotName parsed <> Some (str "element-name") ->
  (forall l, slotName parsed = Some l -> startsWith (str "style-") l = false) ->
  isReferenceRow (trim (textContent (content parsed))) = true ->
  convertBlockRow P (convertBlock P fuel st) st (element, vars) row
  = cs ← mapM (convertBlock P fuel st)
           (resolved (blockMap st)
              (parseReferences (trim (textContent (content parsed)))));
    Ok (appendChildren (List.map (slotted (slotName parsed)) cs) element, vars).
Proof.
  intros Hrow Hname Hstyle Href. unfold convertBlockRow. rewrite Hrow.
  rewrite bool_decide_eq_false_2 by done.
  assert (Hs : match slotName parsed with
               | Some l => startsWith (str "style-") l
               | None => false
               end = false).
  { destruct (slotName parsed) as [l|]; [by apply Hstyle | done]. }
  rewrite Hs, Href.
  rewrite (resolveReferences_mapM _ _ (slotted (slotName parsed)))
    by apply slotUnlessChildren_slotted.
  by destruct (mapM _ _).
Qed.

(** ** Unlabelled rows *)

Lemma head_filter_None {A : Type} (p : A -> bool) (l : list A) :
  head (List.filter p l) = None -> Forall (fun x => p x = false) l.
Proof.
  induction l as [|x l IH]; simpl; [constructor|].
  destruct (p x) eqn:E; [done|]. intros H. constructor; auto.
Qed.

Lemma querySelectorSlot_None (n : node) :
  querySelectorSlot n = None ->
  Forall (fun x => hasSlotAttr x = false) (descendants n).
Proof. apply head_filter_None. Qed.

Lemma subtree_child_descendants (n c : node) :
  c ∈ childNodesOf n -> forall x, x ∈ subtree c -> x ∈ descendants n.
Proof.
  intros Hc x Hx. unfold descendants.
  apply list_elem_of_In, in_flat_map. exists c.
  split; by apply list_elem_of_In.
Qed.

Lemma subtree_child_subtree (n c : node) :
  c ∈ childNodesOf n -> forall x, x ∈ subtree c -> x ∈ subtree n.
Proof.
  intros Hc x Hx. destruct n as [t a cs| |]; simpl in Hc;
    [|by apply elem_of_nil in Hc|by apply elem_of_nil in Hc].
  rewrite subtree_Element. right.
  apply list_elem_of_In, in_flat_map. exists c.
  split; by apply list_elem_of_In.
Qed.

Lemma children_childNodes (n c : node) : c ∈ children n -> c ∈ childNodesOf n.
Proof.
  unfold children. rewrite !list_elem_of_In, filter_In. by intros [? _].
Qed.

(** The nodes that the unwrapping clones are child nodes of the content
    or of one of its children. *)
Lemma unwrapSingleP_below (content x : node) :
  x ∈ unwrapSingleP content ->
  x ∈ childNodesOf content
  \/ exists p, p ∈ childNodesOf content /\ x ∈ childNodesOf p.
Proof.
  unfold unwrapSingleP.
  destruct (children content) as [|p [|p' ps]] eqn:E; auto.
  destruct (hasTag (str "p") p); auto.
  intros Hx. right. exists p. split; [|done].
  apply children_childNodes. rewrite E. left.
Qed.

(** C6 (amended).  A row of one cell that reaches the rule of the
    unlabelled rows (its text is not a list of reference tokens, its
    content holds no element with a [slot] attribute): the attributes
    and the style variables stay as they were and the row appends
    nodes without any [slot] attribute.  When the content has exactly
    one element child and that child is a [p], whatever the paragraph
    holds, the appended nodes are the child nodes of the paragraph; in
    every other case they are the child nodes of the content. *)
Theorem unlabelled_row (P : Platform) (convert : node -> res node)
  (st : deserializer) (element : node) (vars : styleVars) (row : node)
  (parsed : parsedRow) :
  parseBlockRow row = Some parsed ->
  slotName parsed = None ->
  isReferenceRow (trim (textContent (content parsed))) = false ->
  querySelectorSlot (content parsed) = None ->
  let appended := unwrapSingleP (content parsed) in
  convertBlockRow P convert st (element, vars) row
  = Ok (appendChildren appended element, vars)
  /\ attributesOf (appendChildren appended element) = attributesOf element
  /\ (forall p, children (content parsed) = [p] ->
                hasTag (str "p") p = true -> appended = childNodesOf p)
  /\ ((forall p, children (content parsed) = [p] ->
                 hasTag (str "p") p = false) ->
      appended = childNodesOf (content parsed))
  /\ Forall (fun n => Forall (fun x => hasSlotAttr x = false) (subtree n))
       appended.
Proof.
  intros Hrow Hlabel Href Hslot appended. subst appended.
  split; [|split; [|split; [|split]]].
  - unfold convertBlockRow. rewrite Hrow, Hlabel.
    rewrite bool_decide_eq_false_2 by done. rewrite Href.
    rewrite bool_decide_eq_false_2; [done|]. intros H. by apply H.
  - by destruct element.
  - intros p Hp Htag. unfold unwrapSingleP. by rewrite Hp, Htag.
  - intros H. unfold unwrapSingleP.
    destruct (children (content parsed)) as [|p [|p' ps]] eqn:E; try done.
    by rewrite (H p eq_refl).
  - pose proof (querySelectorSlot_None _ Hslot) as Hd.
    rewrite Forall_forall in Hd.
    apply Forall_forall. intros n Hn. apply Forall_forall. intros x Hx.
    apply Hd.
    destruct (unwrapSingleP_below _ _ Hn) as [Hc|(p & Hp & Hc)].
    + by eapply subtree_child_descendants.
    + eapply subtree_child_descendants; [exact Hp|].
      by eapply subtree_child_subtree.
Qed.

(** ** The merge of the style variables *)

Lemma lookupAttr_setAttr (k n v : jsstring) (a : list (jsstring * jsstring)) :
  lookupAttr n (setAttr k v a)
  = if streq k n then Some v else lookupAttr n a.
Proof.
  induction a as [|[k0 v0] a IH]; simpl; [done|].
  destruct (decide (k0 = k)) as [->|Hne].
  - rewrite streq_refl. simpl. by destruct (streq k n).
  - rewrite (proj2 (streq_false k0 k) Hne). simpl. rewrite IH.
    destruct (decide (k0 = n)) as [->|Hne'].
    + rewrite streq_refl.
      by rewrite (proj2 (streq_false k n)) by congruence.
    + by rewrite (proj2 (streq_false k0 n) Hne').
Qed.

Lemma elem_of_filter_bool {A : Type} (p : A -> bool) (l : list A) (x : A) :
  x ∈ List.filter p l <-> x ∈ l /\ p x = true.
Proof. by rewrite !list_elem_of_In, filter_In. Qed.

Lemma NoDup_filter_bool {A : Type} (p : A -> bool) (l : list A) :
  NoDup l -> NoDup (List.filter p l).
Proof.
  induction 1 as [|x l Hx Hl IH]; simpl; [constructor|].
  destruct (p x); [|done]. constructor; [|done].
  rewrite elem_of_filter_bool. by intros [? _].
Qed.

Lemma elem_of_firstSeen (n : jsstring) (names : list jsstring) :
  n ∈ firstSeen names <-> n ∈ names.
Proof.
  induction names as [|m names IH]; simpl; [done|].
  rewrite !elem_of_cons, elem_of_filter_bool, IH.
  rewrite negb_true_iff, streq_false.
  split.
  - intros [->|[? _]]; auto.
  - intros [->|Hn]; [by left|].
    destruct (decide (n = m)) as [->|Hne]; [by left | by right].
Qed.

Lemma NoDup_firstSeen (names : list jsstring) : NoDup (firstSeen names).
Proof.
  induction names as [|m names IH]; simpl; [constructor|].
  constructor.
  - rewrite elem_of_filter_bool, negb_true_iff, streq_false.
    by intros [_ ?].
  - by apply NoDup_filter_bool.
Qed.

Lemma filter_snoc_firstSeen (m k : jsstring) (l : list jsstring) :
  List.filter (fun x => negb (streq x m)) (l ++ [k])
  = List.filter (fun x => negb (streq x m)) l
    ++ (if streq k m then [] else [k]).
Proof. rewrite List.filter_app. simpl. by destruct (streq k m). Qed.

Lemma firstSeen_snoc (names : list jsstring) (k : jsstring) :
  firstSeen (names ++ [k])
  = if bool_decide (k ∈ names) then firstSeen names else firstSeen names ++ [k].
Proof.
  induction names as [|m names IH]; simpl.
  - first [done | rewrite bool_decide_eq_false_2;
                    [done | apply not_elem_of_nil]].
  - rewrite IH. case_bool_decide as Hk.
    + rewrite bool_decide_eq_true_2; [done | by right].
    + rewrite filter_snoc_firstSeen. destruct (streq k m) eqn:E.
      * apply streq_true in E. subst m.
        rewrite bool_decide_eq_true_2 by left. by rewrite app_nil_r.
      * apply streq_false in E.
        rewrite bool_decide_eq_false_2; [done|].
        rewrite elem_of_cons. by intros [?|?].
Qed.

Lemma lastValue_snoc (n k v : jsstring) (rows : styleVars) :
  lastValue n (rows ++ [(k, v)])
  = if streq k n then Some v else lastValue n rows.
Proof.
  induction rows as [|[k0 v0] rows IH]; simpl.
  - by destruct (streq k n).
  - rewrite IH. by destruct (streq k n).
Qed.

(** Writing a variable into the pairs of distinct names [l]. *)
Lemma setAttr_map (k v : jsstring) (g : jsstring -> jsstring)
  (l : list jsstring) :
  NoDup l ->
  setAttr k v (List.map (fun n => (n, g n)) l)
  = if bool_decide (k ∈ l)
    then List.map (fun n => (n, if streq k n then v else g n)) l
    else List.map (fun n => (n, g n)) l ++ [(k, v)].
Proof.
  induction l as [|m l IH]; intros Hnd; simpl.
  - first [done | rewrite bool_decide_eq_false_2;
                    [done | apply not_elem_of_nil]].
  - apply NoDup_cons in Hnd. destruct Hnd as [Hm Hnd].
    destruct (decide (m = k)) as [->|Hne].
    + rewrite bool_decide_eq_true_2 by left. rewrite streq_refl. f_equal.
      apply map_ext_in. intros n Hn. apply list_elem_of_In in Hn.
      rewrite (proj2 (streq_false k n)); [done|]. by intros ->.
    + rewrite (proj2 (streq_false m k) Hne). rewrite (IH Hnd).
      rewrite (proj2 (streq_false k m)) by congruence.
      case_bool_decide as Hk.
      * rewrite bool_decide_eq_true_2; [done | by right].
      * rewrite bool_decide_eq_false_2; [done|].
        rewrite elem_of_cons. intros [?|?]; [congruence | done].
Qed.

Lemma mergedStyles_snoc (rows : styleVars) (k v : jsstring) :
  mergedStyles (rows ++ [(k, v)]) = setStyleVar k v (mergedStyles rows).
Proof.
  unfold mergedStyles, setStyleVar.
  rewrite (setAttr_map k v (fun n => default [] (lastValue n rows)))
    by apply NoDup_firstSeen.
  rewrite map_app. simpl. rewrite firstSeen_snoc.
  assert (Hiff : k ∈ firstSeen (List.map fst rows) <-> k ∈ List.map fst rows)
    by apply elem_of_firstSeen.
  case_bool_decide as Hk.
  - rewrite bool_decide_eq_true_2 by (by apply Hiff).
    apply map_ext. intros n. rewrite lastValue_snoc.
    by destruct (streq k n).
  - rewrite bool_decide_eq_false_2 by (by rewrite Hiff).
    rewrite map_app. simpl. rewrite lastValue_snoc, streq_refl. simpl.
    f_equal. apply map_ext_in. intros n Hn. rewrite lastValue_snoc.
    destruct (streq k n) eqn:E; [|done].
    apply streq_true in E. subst n. exfalso. apply Hk, Hiff.
    by apply list_elem_of_In.
Qed.

(** The assignments [styleVars[key] = value] of the rows, in order, give
    the merge of the specification. *)
Lemma fold_setStyleVar (rows : styleVars) :
  fold_left (fun vars kv => setStyleVar (fst kv) (snd kv) vars) rows []
  = mergedStyles rows.
Proof.
  induction rows as [|[k v] rows IH] using rev_ind; [done|].
  rewrite fold_left_app. simpl. rewrite IH. by rewrite mergedStyles_snoc.
Qed.

Lemma mergedStyles_nil (rows : styleVars) :
  mergedStyles rows = [] -> rows = [].
Proof. unfold mergedStyles. by destruct rows as [|[k v] rows]. Qed.

(** ** What one row does to the element *)

Lemma foldM_cons {A B : Type} (f : B -> A -> res B) (a : A) (l : list A)
  (b : B) :
  foldM f (a :: l) b = (b' ← f b a; foldM f l b').
Proof. reflexivity. Qed.

Lemma bind_Ok {A B : Type} (a : A) (k : A -> res B) : (Ok a ≫= k) = k a.
Proof. reflexivity. Qed.

Lemma bind_Throw {A B : Type} (e : error) (k : A -> res B) :
  (Throw e ≫= k) = Throw e.
Proof. reflexivity. Qed.

Lemma setAttribute_Ok (P : Platform) (name value : jsstring) (el el' : node) :
  setAttribute P name value el = Ok el' ->
  el' = withAttribute (asciiLower name) value el.
Proof.
  unfold setAttribute. destruct (validAttributeName P name); [|done].
  by intros [= <-].
Qed.

Lemma getAttribute_appendChildren (name : jsstring) (cs : list node)
  (el : node) :
  getAttribute name (appendChildren cs el) = getAttribute name el.
Proof. by destruct el. Qed.

Lemma isElement_appendChildren (cs : list node) (el : node) :
  isElement (appendChildren cs el) = isElement el.
Proof. by destruct el. Qed.

Lemma isElement_withAttribute (k v : jsstring) (el : node) :
  isElement (withAttribute k v el) = isElement el.
Proof. by destruct el. Qed.

Lemma getAttribute_withAttribute (name k v : jsstring) (el : node) :
  isElement el = true ->
  getAttribute name (withAttribute k v el)
  = if streq k name then Some v else getAttribute name el.
Proof. destruct el; [|done|done]. intros _. apply lookupAttr_setAttr. Qed.

Lemma getAttribute_withAttribute_ne (name k v : jsstring) (el : node) :
  k <> name ->
  getAttribute name (withAttribute k v el) = getAttribute name el.
Proof.
  intros Hne. destruct el; [|done|done]. simpl.
  rewrite lookupAttr_setAttr. by rewrite (proj2 (streq_false k name) Hne).
Qed.

(** A row appends nodes to the element, or sets the attribute of its
    label; it changes the style variables only when it is a style row. *)
Lemma convertBlockRow_shape (P : Platform) (convert : node -> res node)
  (st : deserializer) (el : node) (vars : styleVars) (row : node)
  (el' : node) (vars' : styleVars) :
  convertBlockRow P convert st (el, vars) row = Ok (el', vars') ->
  vars' = match styleRowOf row with
          | Some kv => setStyleVar (fst kv) (snd kv) vars
          | None => vars
          end
  /\ ((exists cs, el' = appendChildren cs el)
      \/ (exists parsed l v,
             parseBlockRow row = Some parsed /\ slotName parsed = Some l
             /\ el' = withAttribute (asciiLower (attributeName l)) v el)).
Proof.
  unfold convertBlockRow, styleRowOf.
  assert (Hsame : exists cs, el = appendChildren cs el).
  { exists []. by rewrite appendChildren_nil. }
  destruct (parseBlockRow row) as [parsed|]; [|intros [= <- <-]; auto].
  case_bool_decide as Hname.
  { rewrite Hname. simpl. intros [= <- <-]. auto. }
  destruct (slotName parsed) as [l|] eqn:Hl.
  - destruct (startsWith (str "style-") l) eqn:Hst.
    { simpl. intros [= <- <-]. auto. }
    destruct (isReferenceRow _).
    { rewrite (resolveReferences_mapM _ _ (slotted (Some l)))
        by apply slotUnlessChildren_slotted.
      destruct (mapM _ _) as [cs|e]; simpl; [|done].
      intros [= <- <-]. eauto. }
    case_bool_decide.
    { intros [= <- <-]. eauto. }
    destruct (isSlot parsed).
    { rewrite setAttribute_slot. simpl. intros [= <- <-]. split; [done|].
      left. exists [withAttribute (str "slot") l
                      (spanWithInnerHTML P
                         (trim (innerHTML P (content parsed))))].
      by destruct el. }
    destruct (_ && _).
    { destruct (convertContent _ _ _ _) as [cs|e]; simpl; [|done].
      intros [= <- <-]. eauto. }
    destruct (truthy l); [|intros [= <- <-]; auto].
    destruct (setAttribute P _ _ el) as [el1|e] eqn:E; simpl; [|done].
    intros [= <- <-]. split; [done|]. right.
    apply setAttribute_Ok in E. eauto 6.
  - simpl. destruct (isReferenceRow _).
    { rewrite (resolveReferences_mapM _ _ (slotted None))
        by apply slotUnlessChildren_slotted.
      destruct (mapM _ _) as [cs|e]; simpl; [|done].
      intros [= <- <-]. eauto. }
    case_bool_decide; intros [= <- <-]; eauto.
Qed.

Lemma asciiLower_attributeName (l : jsstring) :
  asciiLower (attributeName l) = str "style" -> asciiLower l = str "style".
Proof.
  unfold attributeName. destruct (streq l (str "attr-type")); [|done].
  vm_compute. discriminate.
Qed.

(** The loop over the rows: the style variables are those of the style
    rows, written in order; the element stays an element; its [style]
    attribute stays as it was when no row is labelled [style]. *)
Lemma convertBlockRows (P : Platform) (convert : node -> res node)
  (st : deserializer) (rows : list node) (el : node) (vars : styleVars)
  (el' : node) (vars' : styleVars) :
  foldM (convertBlockRow P convert st) rows (el, vars) = Ok (el', vars') ->
  vars' = fold_left (fun vs kv => setStyleVar (fst kv) (snd kv) vs)
            (omap styleRowOf rows) vars
  /\ isElement el' = isElement el
  /\ ((forall row parsed l,
          row ∈ rows -> parseBlockRow row = Some parsed ->
          slotName parsed = Some l -> asciiLower l <> str "style") ->
      getAttribute (str "style") el' = getAttribute (str "style") el).
Proof.
  revert el vars.
  induction rows as [|row rows IH]; intros el vars.
  - by intros [= <- <-].
  - rewrite foldM_cons.
    destruct (convertBlockRow P convert st (el, vars) row)
      as [[el1 vars1]|e] eqn:E; [rewrite bind_Ok | by rewrite bind_Throw].
    intros H. destruct (IH _ _ H) as (Hv & He & Ha).
    destruct (convertBlockRow_shape _ _ _ _ _ _ _ _ E) as (Hv1 & Hshape).
    split; [|split].
    + rewrite Hv, Hv1. simpl. by destruct (styleRowOf row).
    + rewrite He.
      destruct Hshape as [(cs & ->)|(parsed & l & v & _ & _ & ->)];
        [apply isElement_appendChildren | apply isElement_withAttribute].
    + intros Hno. rewrite Ha.
      * destruct Hshape as [(cs & ->)|(parsed & l & v & Hp & Hl & ->)];
          [apply getAttribute_appendChildren|].
        apply getAttribute_withAttribute_ne. intros Hs.
        apply asciiLower_attributeName in Hs.
        apply (Hno row parsed l); [left|done|done|done].
      * intros row' parsed l Hin. apply Hno. by right.
Qed.

(** The variant classes become empty attributes. *)
Lemma variantClasses (P : Platform) (classes : list jsstring) (el el' : node) :
  foldM (fun el cls => setAttribute P cls [] el) classes el = Ok el' ->
  isElement el' = isElement el
  /\ ((forall c, c ∈ classes -> asciiLower c <> str "style") ->
      getAttribute (str "style") el' = getAttribute (str "style") el).
Proof.
  revert el. induction classes as [|c classes IH]; intros el; simpl.
  - by intros [= <-].
  - destruct (setAttribute P c [] el) as [el1|e] eqn:E; simpl; [|done].
    apply setAttribute_Ok in E. subst el1.
    intros H. destruct (IH _ H) as (He & Ha). split.
    + by rewrite He, isElement_withAttribute.
    + intros Hno. rewrite Ha by (intros c' Hc'; apply Hno; by right).
      apply getAttribute_withAttribute_ne. apply Hno. left.
Qed.

Lemma parseCustomElement_isElement (P : Platform) (tagName : jsstring)
  (el : node) :
  parseCustomElement P tagName = Some el -> isElement el = true.
Proof.
  unfold parseCustomElement, firstElementChild, children.
  intros H. apply head_Some_elem_of in H.
  apply elem_of_filter_bool in H. by destruct H.
Qed.

(** ** The theorems on the documents of the examples *)

(** A page with one paragraph and no component comes back as it is. *)
Lemma no_components_passthrough_witness :
  let html := TestPlatform.serialize (TestPlatform.page Examples.plainPage) in
  fromEDS (TestPlatform.forPage Examples.plainPage) 0 newDeserializer html
  = (newDeserializer, Ok html).
Proof.
  refine (no_components_passthrough
            (TestPlatform.forPage Examples.plainPage) 0 newDeserializer _
            false (TestPlatform.el "main" [] Examples.plainPage) _ _ _).
  - vm_compute. reflexivity.
  - vm_compute. repeat constructor.
  - vm_compute. repeat constructor.
Defined.

(** On a page with a block and a table, both entry points convert the
    table; the block gets no identifier. *)
Lemma tables_take_precedence_witness :
  let html := TestPlatform.serialize (TestPlatform.page Examples.mixedPage) in
  let P := TestPlatform.forPage Examples.mixedPage in
  exists rootTable,
    findRootTable P [Examples.cardTable] = Some rootTable
    /\ rootTable ∈ [Examples.cardTable]
    /\ fromEDS P 2 newDeserializer html
       = ({| blockMap := ∅; tableMap := buildTableMap P [Examples.cardTable] |},
          converted ← convertTable P 2
                        {| blockMap := ∅;
                           tableMap := buildTableMap P [Examples.cardTable] |}
                        rootTable;
          Ok (match converted with
              | Some c => outerHTML P c
              | None => html
              end))
    /\ toElement P 2 newDeserializer html
       = ({| blockMap := ∅; tableMap := buildTableMap P [Examples.cardTable] |},
          convertTable P 2
            {| blockMap := ∅;
               tableMap := buildTableMap P [Examples.cardTable] |}
            Examples.cardTable).
Proof.
  refine (tables_take_precedence
            (TestPlatform.forPage Examples.mixedPage) 2 newDeserializer _
            false (TestPlatform.el "main" [] Examples.mixedPage)
            Examples.cardTable [] _ _).
  - vm_compute. reflexivity.
  - vm_compute. reflexivity.
Defined.

(** The row [media: → ee-media-1, → missing-9] appends the converted
    [ee-media-1] with [slot="media"] and nothing for [missing-9]. *)
Lemma reference_row_witness :
  let st := Examples.indexed Examples.paywallPage in
  convertBlockRow Examples.browser (convertBlock Examples.browser 2 st) st
    (Examples.emptyCard, []) Examples.mediaRow
  = Ok (TestPlatform.el "x-card" []
          [TestPlatform.el "ee-media"
             [("src", "a.png"); ("slot", "media")]%string []],
        []).
Proof.
  cbv zeta.
  rewrite (reference_row Examples.browser 2
             (Examples.indexed Examples.paywallPage) Examples.emptyCard []
             Examples.mediaRow
             {| slotName := Some (str "media");
                content :=
                  TestPlatform.el "div" []
                    [Text (Examples.mediaRef ++ str ", "
                           ++ arrow :: str " missing-9")];
                isSlot := false |}).
  - vm_compute. reflexivity.
  - vm_compute. reflexivity.
  - simpl. discriminate.
  - simpl. intros l [= <-]. reflexivity.
  - vm_compute. reflexivity.
Defined.

(** C3, as stated, fails for a row whose label starts with [style-]: its
    text is one reference token that resolves in the index, and the row
    appends no component and writes the token into the [style]
    attribute. *)
Lemma reference_row_counterexample :
  let st := Examples.indexed [Examples.mediaBlock; Examples.styleRefBlock] in
  isReferenceRow Examples.mediaRef = true
  /\ blockMap st !! str "ee-media-1" = Some Examples.mediaBlock
  /\ convertBlock Examples.browser 3 st Examples.styleRefBlock
     = Ok (Element (str "x-card")
             [(str "style", str "--note: " ++ Examples.mediaRef)] []).
Proof. vm_compute. repeat split; reflexivity. Qed.

(** The row of one cell [<p><b>x</b></p>] appends [<b>x</b>]. *)
Lemma unlabelled_row_witness :
  convertBlockRow Examples.browser
    (convertBlock Examples.browser 0 newDeserializer) newDeserializer
    (Examples.emptyCard, []) Examples.boldParagraphRow
  = Ok (TestPlatform.el "x-card" []
          [TestPlatform.el "b" [] [TestPlatform.txt "x"]], []).
Proof.
  refine (proj1 (unlabelled_row Examples.browser
                   (convertBlock Examples.browser 0 newDeserializer)
                   newDeserializer Examples.emptyCard []
                   Examples.boldParagraphRow
                   {| slotName := None;
                      content :=
                        TestPlatform.el "div" []
                          [TestPlatform.el "p" []
                             [TestPlatform.el "b" [] [TestPlatform.txt "x"]]];
                      isSlot := false |} _ _ _ _)).
  - vm_compute. reflexivity.
  - reflexivity.
  - vm_compute. reflexivity.
  - vm_compute. reflexivity.
Defined.

(** C6, as stated, fails for a row of one cell whose only child is a
    paragraph with markup inside: the paragraph is not a plain paragraph
    wrapper, and still its child nodes are appended, not the child nodes
    of the content. *)
Lemma unlabelled_row_counterexample :
  let cell :=
    TestPlatform.el "div" []
      [TestPlatform.el "p" []
         [TestPlatform.el "b" [] [TestPlatform.txt "x"]]] in
  parseBlockRow Examples.boldParagraphRow
  = Some {| slotName := None; content := cell; isSlot := false |}
  /\ isReferenceRow (trim (textContent cell)) = false
  /\ querySelectorSlot cell = None
  /\ isSimplePWrapper cell = false
  /\ childNodesOf cell
     = [TestPlatform.el "p" []
          [TestPlatform.el "b" [] [TestPlatform.txt "x"]]]
  /\ convertBlockRow Examples.browser
       (convertBlock Examples.browser 0 newDeserializer) newDeserializer
       (Examples.emptyCard, []) Examples.boldParagraphRow
     = Ok (TestPlatform.el "x-card" []
             [TestPlatform.el "b" [] [TestPlatform.txt "x"]], []).
Proof. vm_compute. repeat split; reflexivity. Qed.

(** C4.  On the page of the blocks [ee-media] and [paywall-card], where
    the second refers to the first, root selection picks
    [paywall-card] and [fromEDS] converts it; [toElement] converts the
    first block, the referenced [ee-media]. *)
Theorem entry_component_of_the_two_modes :
  let html := TestPlatform.serialize (TestPlatform.page Examples.paywallPage) in
  let P := TestPlatform.forPage Examples.paywallPage in
  findBlocks (TestPlatform.el "main" [] Examples.paywallPage)
  = Examples.paywallPage
  /\ findRootBlock P Examples.paywallPage = Some Examples.paywallBlock
  /\ snd (fromEDS P 2 newDeserializer html)
     = Ok (TestPlatform.serialize
             (TestPlatform.el "paywall-card" []
                [TestPlatform.el "ee-media"
                   [("src", "a.png"); ("slot", "media")]%string []]))
  /\ snd (toElement P 2 newDeserializer html)
     = Ok (Some (TestPlatform.el "ee-media" [("src", "a.png")]%string [])).
Proof. vm_compute. repeat split; reflexivity. Qed.

(** ** The two encodings of a component *)

Section Encodings.

Context (P : Platform).

Implicit Types (c : list modelRow) (r : modelRow) (l cs : list node).

Lemma filter_cons_bool {A : Type} (f : A -> bool) (x : A) (l : list A) :
  List.filter f (x :: l)
  = if f x then x :: List.filter f l else List.filter f l.
Proof. reflexivity. Qed.

(** Cells without rows and cells inside add no row and no cell. *)
Lemma noCells_filter cs :
  noCells cs = true ->
  List.filter (hasTag (str "tr")) (flat_map subtree cs) = []
  /\ List.filter (hasTag (str "td")) (flat_map subtree cs) = [].
Proof.
  unfold noCells. induction (flat_map subtree cs) as [|n ns IH]; [done|].
  cbn [forallb]. intros [[Htr Htd]%andb_prop Hns]%andb_prop.
  apply negb_true_iff in Htr, Htd. rewrite !filter_cons_bool, Htr, Htd.
  by apply IH.
Qed.

Lemma portableRow_noCells r :
  portableRow P r = true ->
  match r with
  | Labelled l cs => noCells l = true /\ noCells cs = true
  | Unlabelled cs => noCells cs = true
  end.
Proof.
  destruct r as [l cs|cs]; cbn [portableRow]; intros H.
  - apply andb_prop in H as [H _]. apply andb_prop in H as [H _].
    by apply andb_prop in H.
  - apply andb_prop in H as [H _]. apply andb_prop in H as [H _].
    by apply andb_prop in H as [H _].
Qed.

Lemma parseBlockRow_Labelled l cs :
  labelAgrees l = true ->
  parseBlockRow (blockRowOf (Labelled l cs))
  = Some {| slotName := Some (cellText l);
            content := cell (str "div") cs;
            isSlot := emphasised l |}.
Proof.
  unfold labelAgrees, emphasised, parseBlockRow.
  change (divChildren (blockRowOf (Labelled l cs)))
    with [cell (str "div") l; cell (str "div") cs].
  cbv beta iota.
  destruct (querySelector (str "strong") (cell (str "div") l)) as [s|];
    [|done].
  intros H. apply streq_true in H. by rewrite H.
Qed.

Lemma parseBlockRow_Unlabelled cs :
  parseBlockRow (blockRowOf (Unlabelled cs))
  = Some {| slotName := None; content := cell (str "div") cs;
            isSlot := false |}.
Proof. reflexivity. Qed.

Lemma cells_tableRowOf_Labelled l cs :
  noCells l = true -> noCells cs = true ->
  querySelectorAll (str "td") (tableRowOf (Labelled l cs))
  = [cell (str "td") l; cell (str "td") cs].
Proof.
  intros [_ Hl]%noCells_filter [_ Hcs]%noCells_filter.
  unfold querySelectorAll, descendants, tableRowOf, cell.
  cbn [childNodesOf flat_map]. rewrite !subtree_Element, app_nil_r.
  cbn [app]. rewrite filter_cons_bool.
  change (hasTag (str "td") (Element (str "td") [] l)) with true. cbv iota.
  rewrite List.filter_app, Hl. cbn [app]. rewrite filter_cons_bool.
  change (hasTag (str "td") (Element (str "td") [] cs)) with true. cbv iota.
  by rewrite Hcs.
Qed.

Lemma cells_tableRowOf_Unlabelled cs :
  noCells cs = true ->
  querySelectorAll (str "td") (tableRowOf (Unlabelled cs))
  = [Element (str "td") [(str "colspan", str "2")] cs].
Proof.
  intros [_ Hcs]%noCells_filter.
  unfold querySelectorAll, descendants, tableRowOf.
  cbn [childNodesOf flat_map]. rewrite !subtree_Element, app_nil_r.
  rewrite filter_cons_bool.
  change (hasTag (str "td") (Element (str "td") ?a cs)) with true. cbv iota.
  by rewrite Hcs.
Qed.

(** The only row of the table that a row of the model gives. *)
Lemma rows_tableRowOf r :
  portableRow P r = true ->
  List.filter (hasTag (str "tr")) (subtree (tableRowOf r)) = [tableRowOf r].
Proof.
  intros Hr%portableRow_noCells. destruct r as [l cs|cs].
  - destruct Hr as [[Hl _]%noCells_filter [Hcs _]%noCells_filter].
    unfold tableRowOf, cell. rewrite subtree_Element.
    cbn [flat_map]. rewrite !subtree_Element, app_nil_r.
    rewrite filter_cons_bool.
    change (hasTag (str "tr") (Element (str "tr") ?a ?x)) with true.
    cbv iota. f_equal. cbn [app]. rewrite filter_cons_bool.
    change (hasTag (str "tr") (Element (str "td") [] l)) with false.
    cbv iota. rewrite List.filter_app, Hl. cbn [app].
    rewrite filter_cons_bool.
    change (hasTag (str "tr") (Element (str "td") [] cs)) with false.
    cbv iota. exact Hcs.
  - apply noCells_filter in Hr as [Hcs _].
    unfold tableRowOf. rewrite subtree_Element.
    cbn [flat_map]. rewrite !subtree_Element, app_nil_r.
    rewrite filter_cons_bool.
    change (hasTag (str "tr") (Element (str "tr") ?a ?x)) with true.
    cbv iota. f_equal. rewrite filter_cons_bool.
    change (hasTag (str "tr") (Element (str "td") ?a cs)) with false.
    cbv iota. exact Hcs.
Qed.

Lemma divChildren_blockEncoding c :
  divChildren (blockEncoding c) = List.map blockRowOf c.
Proof.
  unfold divChildren, children, blockEncoding. simpl.
  induction c as [|r c IH]; [done|]. simpl.
  assert (Hr : isElement (blockRowOf r) = true) by (by destruct r).
  rewrite Hr. simpl.
  assert (Hd : hasTag (str "div") (blockRowOf r) = true) by (by destruct r).
  rewrite Hd. by rewrite IH.
Qed.

Lemma rows_tableEncoding c :
  portableComponent P c = true ->
  querySelectorAll (str "tr") (tableEncoding c)
  = tableHeader :: List.map tableRowOf c.
Proof.
  intros Hc.
  unfold querySelectorAll, descendants, tableEncoding.
  cbn [childNodesOf flat_map]. rewrite app_nil_r, subtree_Element.
  cbn [flat_map]. rewrite filter_cons_bool.
  change (hasTag (str "tr") (Element (str "tbody") [] ?x)) with false.
  cbv iota. rewrite List.filter_app.
  change (List.filter (hasTag (str "tr")) (subtree tableHeader))
    with [tableHeader].
  cbn [app]. f_equal.
  induction c as [|r c IH]; [done|].
  cbn [portableComponent forallb] in Hc.
  apply andb_prop in Hc as [Hr Hc].
  cbn [List.map flat_map]. rewrite List.filter_app, (IH Hc).
  by rewrite (rows_tableRowOf r Hr).
Qed.

Lemma elementNameOfRows_blocks c :
  elementNameOfRows divChildren (List.map blockRowOf c) = componentName c.
Proof.
  induction c as [|[l cs|cs] c IH]; [done| |].
  - cbn [List.map elementNameOfRows componentName].
    change (divChildren (blockRowOf (Labelled l cs)))
      with [cell (str "div") l; cell (str "div") cs].
    unfold elementNameOfCells.
    change (trim (textContent (cell (str "div") l))) with (cellText l).
    change (trim (textContent (cell (str "div") cs))) with (cellText cs).
    destruct (streq (cellText l) (str "element-name")); [done | apply IH].
  - cbn [List.map elementNameOfRows componentName].
    change (divChildren (blockRowOf (Unlabelled cs)))
      with [cell (str "div") cs].
    apply IH.
Qed.

Lemma getElementName_blockEncoding c :
  named (getElementName (blockEncoding c)) = named (componentName c)
  /\ (named (componentName c) = true ->
      getElementName (blockEncoding c) = componentName c).
Proof.
  unfold getElementName. rewrite divChildren_blockEncoding.
  rewrite elementNameOfRows_blocks.
  destruct (componentName c) as [n|]; [done|].
  split; [|done]. reflexivity.
Qed.

Lemma getElementNameFromTable_tableEncoding c :
  portableComponent P c = true ->
  getElementNameFromTable (tableEncoding c) = componentName c.
Proof.
  intros Hc. unfold getElementNameFromTable. rewrite (rows_tableEncoding c Hc).
  cbn [elementNameOfRows].
  change (elementNameOfCells (querySelectorAll (str "td") tableHeader))
    with (@None jsstring). cbv iota.
  induction c as [|r c IH]; [done|].
  cbn [portableComponent forallb] in Hc.
  apply andb_prop in Hc as [Hr Hc].
  pose proof (portableRow_noCells r Hr) as Hcells.
  destruct r as [l cs|cs]; cbn [List.map elementNameOfRows componentName].
  - destruct Hcells as [Hl Hcs].
    rewrite (cells_tableRowOf_Labelled l cs Hl Hcs). unfold elementNameOfCells.
    change (trim (textContent (cell (str "td") l))) with (cellText l).
    change (trim (textContent (cell (str "td") cs))) with (cellText cs).
    destruct (streq (cellText l) (str "element-name")); [done | by apply IH].
  - rewrite (cells_tableRowOf_Unlabelled cs Hcells). by apply IH.
Qed.

(** An unlabelled row appends the child nodes of a content that is not
    one paragraph. *)
Lemma unwrapSingleP_childNodes (content : node) :
  isSingleParagraph content = false ->
  unwrapSingleP content = childNodesOf content.
Proof.
  unfold isSingleParagraph, unwrapSingleP.
  destruct (children content) as [|p [|p' ps]]; [done| |done].
  by intros ->.
Qed.

End Encodings.

Section RowsAgree.

Context (P : Platform) (convertB : node -> res node)
  (convertT : node -> res (option node)) (stB stT : deserializer).

Implicit Types (c : list modelRow) (r : modelRow).

(** The two identifier maps hold the two encodings of the same
    components, and the recursive calls agree on them. *)
Hypothesis index_agrees :
  forall id,
    (blockMap stB !! id = None /\ tableMap stT !! id = None)
    \/ exists c,
         blockMap stB !! id = Some (blockEncoding c)
         /\ tableMap stT !! id = Some (tableEncoding c)
         /\ portableComponent P c = true
         /\ named (componentName c) = true.

Hypothesis convert_agrees :
  forall c,
    portableComponent P c = true -> named (componentName c) = true ->
    convertT (tableEncoding c) = Some <$> convertB (blockEncoding c).

Lemma resolveReferences_agree (annotate : node -> res node)
  (refs : list jsstring) (element : node) :
  resolveReferences (fun b => x ← convertB b; Ok (Some x)) annotate
    (blockMap stB) refs element
  = resolveReferences convertT annotate (tableMap stT) refs element.
Proof.
  unfold resolveReferences. revert element.
  induction refs as [|ref refs IH]; intros element; [done|].
  rewrite !foldM_cons.
  destruct (index_agrees ref) as [[-> ->]|(c & -> & -> & Hp & Hn)].
  - rewrite !bind_Ok. apply IH.
  - rewrite (convert_agrees c Hp Hn).
    destruct (convertB (blockEncoding c)) as [x|e]; simpl; [|done].
    destruct (annotate x) as [x'|e]; simpl; [apply IH | done].
Qed.

Lemma convertRow_agree r (element : node) (vars : styleVars) :
  portableRow P r = true ->
  convertBlockRow P convertB stB (element, vars) (blockRowOf r)
  = convertTableRow P convertT stT (element, vars) (tableRowOf r).
Proof.
  destruct r as [l cs|cs]; cbn [portableRow]; intros Hp.
  - apply andb_prop in Hp as [Hp Hcases]. apply andb_prop in Hp as [Hp Hlabel].
    apply andb_prop in Hp as [Hl Hcs].
    unfold convertBlockRow, convertTableRow.
    rewrite (parseBlockRow_Labelled l cs Hlabel).
    rewrite (cells_tableRowOf_Labelled l cs Hl Hcs).
    cbn [slotName content isSlot].
    change (trim (textContent (cell (str "td") l))) with (cellText l).
    change (trim (textContent (cell (str "td") cs))) with (cellText cs).
    change (trim (textContent (cell (str "div") cs))) with (cellText cs).
    change (querySelectorSlot (cell (str "td") cs))
      with (querySelectorSlot (cell (str "div") cs)).
    change (childNodesOf (cell (str "td") cs)) with cs.
    change (childNodesOf (cell (str "div") cs)) with cs.
    destruct (decide (cellText l = str "element-name")) as [El|El].
    { rewrite El. rewrite bool_decide_eq_true_2 by done.
      by rewrite streq_refl. }
    rewrite bool_decide_eq_false_2 by congruence.
    rewrite (proj2 (streq_false _ _) El) in Hcases |- *.
    destruct (startsWith (str "style-") (cellText l)); [done|].
    destruct (isReferenceRow (cellText cs)) eqn:Href.
    { by rewrite resolveReferences_agree. }
    cbn [orb] in Hcases. apply andb_prop in Hcases as [Hsame Hcases].
    apply streq_true in Hsame. rewrite <- Hsame.
    destruct (querySelectorSlot (cell (str "div") cs)) as [slotted|].
    { rewrite !bool_decide_eq_true_2 by done. by rewrite Hcases. }
    rewrite !bool_decide_eq_false_2 by (intros H; by apply H).
    destruct (emphasised l).
    { apply andb_prop in Hcases as [Hne Hk]. rewrite Hne.
      unfold slotIfNamed. by rewrite Hk. }
    destruct (streq (trim (innerHTML P (cell (str "div") cs))) (cellText cs))
      eqn:E.
    { done. }
    cbn [orb negb andb] in Hcases |- *.
    apply andb_prop in Hcases as [Hcases Htag].
    apply andb_prop in Hcases as [Hsimple Hnested].
    apply negb_true_iff in Hsimple, Htag. rewrite Hsimple. cbn [negb].
    cbv iota. unfold convertContent.
    destruct (findNestedBlock (cell (str "div") cs)); [done|].
    change (trim (textContent (cell (str "div") cs))) with (cellText cs).
    rewrite Href, Htag.
    destruct (slotIfNamed P (Some (cellText l)) _) as [w|e]; simpl; [|done].
    by destruct element.
  - apply andb_prop in Hp as [Hp Hslot]. apply andb_prop in Hp as [Hp Href].
    apply andb_prop in Hp as [Hcs Hheader].
    apply negb_true_iff in Href, Hheader.
    unfold convertBlockRow, convertTableRow.
    rewrite parseBlockRow_Unlabelled.
    rewrite (cells_tableRowOf_Unlabelled cs Hcs).
    cbn [slotName content isSlot].
    change (trim (textContent (cell (str "div") cs))) with (cellText cs).
    change (trim (textContent (Element (str "td") ?a cs)))
      with (cellText cs).
    change (getAttribute (str "colspan")
              (Element (str "td") [(str "colspan", str "2")] cs))
      with (Some (str "2")).
    rewrite (bool_decide_eq_false_2 (None = Some (str "element-name")))
      by done.
    rewrite (bool_decide_eq_true_2 (Some (str "2") = Some (str "2")))
      by done.
    rewrite Href, Hheader.
    change (unwrapSingleP (Element (str "td") ?a cs))
      with (unwrapSingleP (cell (str "div") cs)).
    destruct (querySelectorSlot (cell (str "div") cs)) as [slotted|].
    + rewrite bool_decide_eq_true_2 by done.
      apply negb_true_iff in Hslot.
      by rewrite (unwrapSingleP_childNodes _ Hslot).
    + by rewrite bool_decide_eq_false_2 by (intros H; by apply H).
Qed.

Lemma convertRows_agree c (element : node) (vars : styleVars) :
  portableComponent P c = true ->
  foldM (convertBlockRow P convertB stB) (List.map blockRowOf c)
    (element, vars)
  = foldM (convertTableRow P convertT stT) (List.map tableRowOf c)
      (element, vars).
Proof.
  revert element vars. induction c as [|r c IH]; intros element vars; [done|].
  intros [Hr Hc]%andb_prop. cbn [List.map]. rewrite !foldM_cons.
  rewrite (convertRow_agree r element vars Hr).
  destruct (convertTableRow P convertT stT (element, vars) (tableRowOf r))
    as [[element' vars']|e]; simpl; [by apply IH | done].
Qed.

(** One level of the two converters. *)
Lemma convertBody_agree c :
  portableComponent P c = true -> named (componentName c) = true ->
  convertTableBody P convertT stT (tableEncoding c)
  = Some <$> convertBlockBody P convertB stB (blockEncoding c).
Proof.
  intros Hp Hn. unfold convertTableBody, convertBlockBody.
  rewrite (getElementNameFromTable_tableEncoding P c Hp).
  rewrite (proj2 (getElementName_blockEncoding c) Hn).
  change (classTokens (className (blockEncoding c)))
    with [str "experience-element"].
  change (find isCustomElementClass [str "experience-element"])
    with (Some (str "experience-element")). cbv iota.
  destruct (componentName c) as [name|]; [|done]. simpl in Hn. rewrite Hn.
  cbn [negb]. cbv iota.
  destruct (parseCustomElement P (toLowerCase P name)) as [element|]; [|done].
  rewrite (rows_tableEncoding P c Hp), divChildren_blockEncoding.
  rewrite foldM_cons.
  change (convertTableRow P convertT stT (element, []) tableHeader)
    with (Ok (element, @nil (jsstring * jsstring))).
  rewrite bind_Ok.
  rewrite <- (convertRows_agree c element [] Hp).
  assert (Hother :
    List.filter
      (fun x => negb (streq x (str "experience-element"))
                && negb (streq x (str "experience-element"))
                && negb (streq x name))
      [str "experience-element"] = []) by reflexivity.
  rewrite Hother. cbn [foldM]. rewrite bind_Ok.
  destruct (foldM (convertBlockRow P convertB stB) _ _)
    as [[element' vars']|e]; simpl; [|done].
  by destruct (applyStyleVars P vars' element').
Qed.

End RowsAgree.

Section EncodingsAgree.

Context (P : Platform).

Implicit Types (c : list modelRow).

Lemma numberedName_encodings c :
  portableComponent P c = true ->
  numberedName P getElementName (blockEncoding c)
  = numberedName P getElementNameFromTable (tableEncoding c)
  /\ (is_Some (numberedName P getElementName (blockEncoding c)) ->
      named (componentName c) = true).
Proof.
  intros Hp. unfold numberedName.
  rewrite (getElementNameFromTable_tableEncoding P c Hp).
  destruct (getElementName_blockEncoding c) as [Hn Hsome].
  destruct (named (componentName c)) eqn:E.
  - rewrite (Hsome eq_refl). done.
  - unfold named in Hn, E.
    destruct (getElementName (blockEncoding c)) as [n|],
             (componentName c) as [m|];
      rewrite ?Hn, ?E; (split; [done | by intros [? ?]]).
Qed.

(** The two numbering loops run in step on the two encodings of a list
    of components. *)
Lemma buildMapFrom_agree (components : list (list modelRow))
  (counts : gmap jsstring N) (bm tm : gmap jsstring node) :
  forallb (portableComponent P) components = true ->
  (forall id,
      (bm !! id = None /\ tm !! id = None)
      \/ exists c,
           bm !! id = Some (blockEncoding c)
           /\ tm !! id = Some (tableEncoding c)
           /\ portableComponent P c = true
           /\ named (componentName c) = true) ->
  forall id,
    (buildMapFrom P getElementName counts bm
       (List.map blockEncoding components) !! id = None
     /\ buildMapFrom P getElementNameFromTable counts tm
          (List.map tableEncoding components) !! id = None)
    \/ exists c,
         buildMapFrom P getElementName counts bm
           (List.map blockEncoding components) !! id
         = Some (blockEncoding c)
         /\ buildMapFrom P getElementNameFromTable counts tm
              (List.map tableEncoding components) !! id
            = Some (tableEncoding c)
         /\ portableComponent P c = true
         /\ named (componentName c) = true.
Proof.
  revert counts bm tm.
  induction components as [|c components IH]; intros counts bm tm Hp Hagree;
    [exact Hagree|].
  cbn [forallb] in Hp. apply andb_prop in Hp. destruct Hp as [Hc Hcs].
  cbn [List.map]. rewrite !buildMapFrom_cons.
  destruct (numberedName_encodings c Hc) as [<- Hnamed].
  destruct (numberedName P getElementName (blockEncoding c)) as [n0|];
    cbv zeta; [|by apply IH].
  apply IH; [done|]. intros id.
  destruct (decide (identifier n0 (default 0 (counts !! n0) + 1) = id))
    as [<-|Hne].
  - right. exists c. rewrite !lookup_insert_eq. auto.
  - rewrite !lookup_insert_ne by done. apply Hagree.
Qed.

Lemma convert_agree (fuel : nat) (stB stT : deserializer) :
  (forall id,
      (blockMap stB !! id = None /\ tableMap stT !! id = None)
      \/ exists c,
           blockMap stB !! id = Some (blockEncoding c)
           /\ tableMap stT !! id = Some (tableEncoding c)
           /\ portableComponent P c = true
           /\ named (componentName c) = true) ->
  forall c,
    portableComponent P c = true -> named (componentName c) = true ->
    convertTable P fuel stT (tableEncoding c)
    = Some <$> convertBlock P fuel stB (blockEncoding c).
Proof.
  intros Hindex. induction fuel as [|fuel IH]; intros c Hp Hn; [done|].
  cbn [convertTable convertBlock]. by apply convertBody_agree.
Qed.

End EncodingsAgree.

(** C1 (amended).  A component with an element name, given as a list of
    rows (a label cell and a content cell, or one content cell), converts
    to the same element from its block encoding and from its table
    encoding, provided that the rows of the components are rows that the
    two pipelines treat alike ([portableRow]): with the identifier maps
    built from the block encodings and from the table encodings of the
    same components, [convertTable] on the table encoding gives what
    [convertBlock] gives on the block encoding, or throws as it does.
    These rows are the [element-name] row, the style rows, the reference
    rows with a label, the rows with a [slot] attribute inside the
    content, the rows with inline markup (a [span] with the slot of the
    label), the attribute rows and the rows of one cell (unwrapped
    alike), with the references followed through the maps. *)
Theorem encodings_agree_on_portable_rows (P : Platform) (fuel : nat)
  (stB stT : deserializer) (components : list (list modelRow))
  (c : list modelRow) :
  forallb (portableComponent P) components = true ->
  blockMap stB = buildBlockMap P (List.map blockEncoding components) ->
  tableMap stT = buildTableMap P (List.map tableEncoding components) ->
  portableComponent P c = true ->
  named (componentName c) = true ->
  convertTable P fuel stT (tableEncoding c)
  = Some <$> convertBlock P fuel stB (blockEncoding c).
Proof.
  intros Hp HB HT Hc Hn. apply convert_agree; [|done|done].
  rewrite HB, HT. unfold buildBlockMap, buildTableMap.
  apply buildMapFrom_agree; [done|].
  intros id. left. by rewrite !lookup_empty.
Qed.

(** The components [ee-media] and [paywall-card]: the second has a
    reference to the first, a style row, an [attr-type] row, a row with
    inline markup, a row with an emphasised label, a row whose content
    has a [slot] attribute and a row of one cell with a paragraph.  Both
    encodings give the same element. *)
Lemma encodings_agree_witness :
  let components := [Examples.mediaComponent; Examples.paywallComponent] in
  let stT := {| blockMap := ∅;
                tableMap := buildTableMap Examples.markupBrowser
                              (List.map tableEncoding components) |} in
  convertTable Examples.markupBrowser 2 stT
    (tableEncoding Examples.paywallComponent)
  = Ok (Some
          (TestPlatform.el "paywall-card"
             [("type", "promo"); ("style", "--bg-color: #fff")]%string
             [TestPlatform.el "ee-media"
                [("src", "a.png"); ("slot", "media")]%string [];
              TestPlatform.el "span" [("slot", "note")]%string
                [TestPlatform.el "b" [] [TestPlatform.txt "New"];
                 TestPlatform.txt " offer"];
              TestPlatform.el "span" [("slot", "badge")]%string
                [TestPlatform.el "em" [] [TestPlatform.txt "Hot"]];
              TestPlatform.el "i" [("slot", "icon")]%string
                [TestPlatform.txt "x"];
              TestPlatform.txt "Terms ";
              TestPlatform.el "i" [] [TestPlatform.txt "apply"]])).
Proof.
  cbv zeta.
  rewrite (encodings_agree_on_portable_rows Examples.markupBrowser 2
             {| blockMap := buildBlockMap Examples.markupBrowser
                              (List.map blockEncoding
                                 [Examples.mediaComponent;
                                  Examples.paywallComponent]);
                tableMap := ∅ |}
             _ [Examples.mediaComponent; Examples.paywallComponent]
             Examples.paywallComponent).
  - vm_compute. reflexivity.
  - vm_compute. reflexivity.
  - reflexivity.
  - reflexivity.
  - vm_compute. reflexivity.
  - vm_compute. reflexivity.
Defined.

(** C1, as stated, fails for the rows that the two pipelines do not
    treat alike.  A row whose content is a paragraph of plain text: the
    block encoding gives the attribute [plan-name], the table encoding
    gives a [span] with [slot="plan-name"].  A row whose content opens a
    block-level tag: the block encoding gives the heading with
    [slot="body"], the table encoding wraps it in a [span].  A row of
    one cell with a reference token: the block encoding appends the
    component referred to, the table encoding appends the text of the
    token. *)
Lemma encodings_counterexample :
  (convertBlock Examples.planBrowser 1 newDeserializer Examples.planBlock
   = Ok (TestPlatform.el "paywall-card"
           [("plan-name", "Firefly Standard")]%string [])
   /\ convertTable Examples.planBrowser 1 newDeserializer Examples.planTable
      = Ok (Some
              (TestPlatform.el "paywall-card" []
                 [TestPlatform.el "span" [("slot", "plan-name")]%string
                    [TestPlatform.el "p" []
                       [TestPlatform.txt "Firefly Standard"]]])))
  /\ (convertBlock Examples.markupBrowser 1 newDeserializer
        (blockEncoding Examples.headingComponent)
      = Ok (TestPlatform.el "x-card" []
              [TestPlatform.el "h2" [("slot", "body")]%string
                 [TestPlatform.txt "T"]])
      /\ convertTable Examples.markupBrowser 1 newDeserializer
           (tableEncoding Examples.headingComponent)
         = Ok (Some
                 (TestPlatform.el "x-card" []
                    [TestPlatform.el "span" [("slot", "body")]%string
                       [TestPlatform.el "h2" [] [TestPlatform.txt "T"]]])))
  /\ (let components :=
        [Examples.mediaComponent; Examples.unlabelledReference] in
      convertBlock Examples.browser 2
        {| blockMap := buildBlockMap Examples.browser
                         (List.map blockEncoding components);
           tableMap := ∅ |}
        (blockEncoding Examples.unlabelledReference)
      = Ok (TestPlatform.el "x-card" []
              [TestPlatform.el "ee-media" [("src", "a.png")]%string []])
      /\ convertTable Examples.browser 2
           {| blockMap := ∅;
              tableMap := buildTableMap Examples.browser
                            (List.map tableEncoding components) |}
           (tableEncoding Examples.unlabelledReference)
         = Ok (Some
                 (TestPlatform.el "x-card" [] [Text Examples.mediaRef]))).
Proof. vm_compute. repeat split; reflexivity. Qed.

(** ** The scenarios of the specification *)

(** Scenario A: the emphasised label [plan-name] gives a slotted
    [span]. *)
Example scenario_emphasised_label :
  convertBlock Examples.browser 1 newDeserializer Examples.emphasisedBlock
  = Ok (TestPlatform.el "paywall-card" []
          [TestPlatform.el "span" [("slot", "plan-name")]%string
             [TestPlatform.txt "Firefly Standard"]]).
Proof. vm_compute. reflexivity. Qed.

(** The reference pattern: two tokens in a list, in lower case. *)
Example parseReferences_list :
  parseReferences
    (arrow :: str " inline-price-1, " ++ arrow :: str "Inline-Price-2")
  = [str "inline-price-1"; str "inline-price-2"].
Proof. vm_compute. reflexivity. Qed.

(** The greedy name gives back up to the last hyphen that digits
    follow. *)
Example parseReferences_backtracks :
  parseReferences (arrow :: str "a-1-b-22-c x") = [str "a-1-b-22"].
Proof. vm_compute. reflexivity. Qed.

Example isReferenceOnly_list :
  isReferenceOnly
    (arrow :: str " inline-price-1, " ++ arrow :: str "inline-price-2")
  = true
  /\ isReferenceOnly (str "see " ++ Examples.mediaRef) = false.
Proof. vm_compute. split; reflexivity. Qed.

Example splitWs_pieces :
  splitWs (str " a  b ") = [[]; str "a"; str "b"; []].
Proof. vm_compute. reflexivity. Qed.

Example decimal_twelve : decimal 12 = str "12".
Proof. vm_compute. reflexivity. Qed.

(** ** Component markers and discovery *)

Lemma includesHyphen_elem_of (s : jsstring) :
  includesHyphen s = true <-> hyphen ∈ s.
Proof.
  unfold includesHyphen. rewrite existsb_exists. split.
  - intros (x & Hx & E). apply N.eqb_eq in E. subst x.
    by apply list_elem_of_In.
  - intros H. exists hyphen. split; [by apply list_elem_of_In|].
    apply N.eqb_refl.
Qed.

(** The marker test is the test for a hyphen: the generic marker
    [experience-element] has one, and no name of the allow-list has one,
    so the allow-list excludes nothing. *)
Theorem isCustomElementClass_hyphen (className : jsstring) :
  isCustomElementClass className = includesHyphen className.
Proof.
  unfold isCustomElementClass.
  destruct (streq className (str "experience-element")) eqn:E.
  - apply streq_true in E. by subst.
  - destruct (includesHyphen className) eqn:Hh;
      [|by rewrite andb_false_r].
    assert (Ht : truthy className = true).
    { destruct className; [discriminate Hh | done]. }
    rewrite Ht. cbn [andb].
    destruct (existsb (streq className) VANILLA_TAGS) eqn:Hv; [|done].
    apply existsb_exists in Hv. destruct Hv as (t & Ht' & Et).
    apply streq_true in Et. subst t. exfalso.
    unfold VANILLA_TAGS in Ht'. simpl in Ht'.
    repeat (destruct Ht' as [<-|Ht']; [discriminate Hh|]). done.
Qed.

Lemma findBlocks_component (n : node) :
  Forall (fun b => isComponentBlock b = true /\ b ∈ subtree n) (findBlocks n).
Proof.
  induction n as [t a cs IH| |] using node_rect_children;
    [|constructor|constructor].
  rewrite findBlocks_Element, subtree_Element.
  destruct (isComponentBlock (Element t a cs)) eqn:E.
  - constructor; [|constructor]. split; [done | left].
  - assert (H : Forall (fun b => isComponentBlock b = true
                                 /\ b ∈ flat_map subtree cs)
                  (flat_map findBlocks cs)).
    { clear E. induction cs as [|c cs IHcs]; [constructor|].
      apply Forall_cons in IH. destruct IH as [IHc IH]. simpl.
      apply Forall_app. split.
      - eapply Forall_impl; [exact IHc|]. intros b [Hb Hin]. split; [done|].
        apply elem_of_app. by left.
      - eapply Forall_impl; [exact (IHcs IH)|]. intros b [Hb Hin].
        split; [done|]. apply elem_of_app. by right. }
    eapply Forall_impl; [exact H|]. intros b [Hb Hin]. split; [done|].
    by right.
Qed.

Lemma findBlocks_nil_inv (n : node) :
  findBlocks n = [] ->
  Forall (fun x => isComponentBlock x = false) (subtree n).
Proof.
  induction n as [t a cs IH| |] using node_rect_children;
    [|constructor|constructor].
  rewrite findBlocks_Element, subtree_Element.
  destruct (isComponentBlock (Element t a cs)) eqn:E; [done|].
  intros H. constructor; [done|]. clear E.
  induction cs as [|c cs IHcs]; [constructor|].
  apply Forall_cons in IH. destruct IH as [IHc IH]. simpl in *.
  apply app_eq_nil in H. destruct H as [Hc Hcs].
  apply Forall_app. split; [by apply IHc | by apply IHcs].
Qed.

(** Discovery.  Every block that [findBlocks] returns is a [div] with a
    custom-element class and lies in the tree it was given; nothing is
    returned exactly when the tree holds no such [div]; and a returned
    block is not entered: the discovery of a block is the block
    alone. *)
Theorem findBlocks_discovers (root : node) :
  Forall (fun b => isComponentBlock b = true /\ b ∈ subtree root
                   /\ findBlocks b = [b])
    (findBlocks root)
  /\ (findBlocks root = []
      <-> Forall (fun x => isComponentBlock x = false) (subtree root)).
Proof.
  split.
  - eapply Forall_impl; [apply findBlocks_component|].
    intros b [Hb Hin]. split; [done|]. split; [done|].
    destruct b as [t a cs| |]; [|done|done].
    by rewrite findBlocks_Element, Hb.
  - split; [apply findBlocks_nil_inv | apply findBlocks_none].
Qed.

(** Root selection returns [null] for the empty list only, and otherwise
    one of the components it was given: the entry points never convert
    [null]. *)
Theorem findRoot_member (P : Platform) (nameOf : node -> option jsstring)
  (blocks : list node) :
  (findRoot P nameOf blocks = None <-> blocks = [])
  /\ (forall b, findRoot P nameOf blocks = Some b -> b ∈ blocks).
Proof.
  split; [|intros b; apply findRoot_elem_of].
  split.
  - intros H. destruct blocks as [|b blocks]; [done|].
    destruct (findRoot_is_Some P nameOf (b :: blocks)) as [r Hr]; [done|].
    congruence.
  - by intros ->.
Qed.

(** ** Reference tokens *)

Lemma rxChar_Some {R : Type} (p : N -> bool) (s : jsstring)
  (k : jsstring -> option R) (r : R) :
  rxChar p R s k = Some r ->
  exists c s', s = c :: s' /\ p c = true /\ k s' = Some r.
Proof.
  destruct s as [|c s']; [done|]. simpl.
  destruct (p c) eqn:E; [|done]. intros H. by exists c, s'.
Qed.

Lemma rxStar_Some {R : Type} (p : N -> bool) (s : jsstring)
  (k : jsstring -> option R) (r : R) :
  rxStar p R s k = Some r ->
  exists pre s',
    s = pre ++ s' /\ Forall (fun c => p c = true) pre /\ k s' = Some r.
Proof.
  unfold rxStar. induction s as [|c s IH]; simpl.
  - intros H. exists [], []. by repeat split.
  - destruct (p c) eqn:E.
    + destruct (rxStarFrom p R s k) as [r'|] eqn:E'.
      * intros [= ->]. destruct (IH eq_refl) as (pre & s' & -> & Hp & Hk).
        exists (c :: pre), s'. repeat split; [by constructor | done].
      * intros H. exists [], (c :: s). by repeat split.
    + intros H. exists [], (c :: s). by repeat split.
Qed.

Lemma firstn_prefix (x rest : jsstring) :
  firstn (length (x ++ rest) - length rest) (x ++ rest) = x.
Proof.
  rewrite length_app.
  replace (length x + length rest - length rest)%nat with (length x) by lia.
  by rewrite take_app_length.
Qed.

(** A match of the reference pattern: the arrow, white space, and the
    captured name made of a letter, name characters, a hyphen and
    digits. *)
Lemma execRef_Some (s name rest : jsstring) :
  execRef s = Some (name, rest) ->
  exists ws c body digits,
    s = arrow :: ws ++ name ++ rest
    /\ Forall (fun x => isWhiteSpace x = true) ws
    /\ name = c :: body ++ hyphen :: digits
    /\ isAlphaCI c = true
    /\ Forall (fun x => isRefCharCI x = true) body
    /\ digits <> []
    /\ Forall (fun x => isDigit x = true) digits.
Proof.
  unfold execRef, rxSeq, rxRefName, rxPlus, rxSeq. intros H.
  apply rxChar_Some in H. destruct H as (a & s1 & -> & Ha & H).
  apply N.eqb_eq in Ha. subst a.
  apply rxStar_Some in H. destruct H as (ws & s2 & -> & Hws & H).
  apply rxChar_Some in H. destruct H as (c & s3 & -> & Hc & H).
  apply rxStar_Some in H. destruct H as (body & s4 & -> & Hbody & H).
  apply rxChar_Some in H. destruct H as (h & s5 & -> & Hh & H).
  apply N.eqb_eq in Hh. subst h.
  apply rxChar_Some in H. destruct H as (d & s6 & -> & Hd & H).
  apply rxStar_Some in H. destruct H as (ds & s7 & -> & Hds & H).
  injection H as Hname Hrest. subst rest.
  assert (E : c :: body ++ hyphen :: d :: ds ++ s7
              = (c :: body ++ hyphen :: d :: ds) ++ s7).
  { simpl. f_equal. rewrite <- app_assoc. simpl. done. }
  change (S (length (body ++ hyphen :: d :: ds ++ s7)))
    with (length (c :: body ++ hyphen :: d :: ds ++ s7)) in Hname.
  rewrite E in Hname. rewrite firstn_prefix in Hname. subst name.
  exists ws, c, body, (d :: ds). rewrite E.
  repeat split; try done. by constructor.
Qed.

Lemma asciiLowerChar_alpha (c : N) :
  isAlphaCI c = true -> isLower (asciiLowerChar c) = true.
Proof.
  unfold isAlphaCI, asciiLowerChar, isLower, isUpper.
  intros H. destruct ((65 <=? c) && (c <=? 90)) eqn:E.
  - apply andb_prop in E. destruct E as [E1 E2].
    apply N.leb_le in E1, E2. apply andb_true_intro.
    split; apply N.leb_le; lia.
  - by rewrite orb_false_r in H.
Qed.

Lemma asciiLowerChar_refChar (c : N) :
  isRefCharCI c = true ->
  isLower (asciiLowerChar c) || isDigit (asciiLowerChar c)
  || (asciiLowerChar c =? hyphen) = true.
Proof.
  unfold isRefCharCI. intros H.
  destruct (isAlphaCI c) eqn:Ea.
  - by rewrite (asciiLowerChar_alpha c Ea).
  - assert (Hu : isUpper c = false).
    { unfold isAlphaCI in Ea. by apply orb_false_elim in Ea as [_ ?]. }
    unfold asciiLowerChar. rewrite Hu.
    apply orb_prop in H. destruct H as [H|H].
    + cbn [orb] in H. rewrite H. by rewrite orb_true_r.
    + rewrite H. by rewrite orb_true_r.
Qed.

Lemma asciiLowerChar_digit (c : N) :
  isDigit c = true -> asciiLowerChar c = c.
Proof.
  unfold isDigit, asciiLowerChar, isUpper. intros H.
  apply andb_prop in H. destruct H as [H1 H2]. apply N.leb_le in H1, H2.
  destruct ((65 <=? c) && (c <=? 90)) eqn:E; [|done].
  apply andb_prop in E. destruct E as [E1 E2]. apply N.leb_le in E1. lia.
Qed.

Lemma asciiLower_digits (ds : jsstring) :
  Forall (fun x => isDigit x = true) ds -> asciiLower ds = ds.
Proof.
  induction 1 as [|d ds Hd Hds IH]; [done|]. unfold asciiLower in *. simpl.
  by rewrite asciiLowerChar_digit, IH.
Qed.

(** The tokens of [scanRefs], from any position of the scan. *)
Lemma scanRefs_shape (skip : nat) (s tok : jsstring) :
  tok ∈ scanRefs skip s ->
  exists c body digits,
    tok = c :: body ++ hyphen :: digits
    /\ isLower c = true
    /\ Forall (fun x => isLower x || isDigit x || (x =? hyphen) = true) body
    /\ digits <> []
    /\ Forall (fun x => isDigit x = true) digits.
Proof.
  revert skip. induction s as [|a s IH]; intros skip; cbn [scanRefs].
  - by intros ?%elem_of_nil.
  - destruct skip as [|n]; [|apply IH].
    destruct (execRef (a :: s)) as [[name rest]|] eqn:E; [|apply IH].
    intros [->|Hin]%elem_of_cons; [|by eapply IH].
    destruct (execRef_Some _ _ _ E)
      as (ws & c & body & digits & _ & _ & -> & Hc & Hbody & Hne & Hds).
    exists (asciiLowerChar c), (asciiLower body), digits.
    split; [|split; [|split; [|split]]]; try done.
    + unfold asciiLower. simpl. rewrite map_app. simpl.
      fold (asciiLower digits). by rewrite (asciiLower_digits digits Hds).
    + by apply asciiLowerChar_alpha.
    + unfold asciiLower. apply Forall_forall. intros x Hx.
      apply list_elem_of_In, in_map_iff in Hx. destruct Hx as (y & <- & Hy).
      apply asciiLowerChar_refChar.
      rewrite Forall_forall in Hbody. apply Hbody. by apply list_elem_of_In.
Qed.

(** Every token that [parseReferences] returns is a lower-case letter,
    then lower-case letters, digits and hyphens, then a hyphen and at
    least one digit. *)
Theorem parseReferences_shape (text tok : jsstring) :
  tok ∈ parseReferences text ->
  exists c body digits,
    tok = c :: body ++ hyphen :: digits
    /\ isLower c = true
    /\ Forall (fun x => isLower x || isDigit x || (x =? hyphen) = true) body
    /\ digits <> []
    /\ Forall (fun x => isDigit x = true) digits.
Proof. apply scanRefs_shape. Qed.

(** A token can be the identifier of a component only when the
    lower-cased element name starts with a letter [a-z] and holds
    nothing but [a-z], digits and hyphens: a component named otherwise
    (an underscore, a space, a digit in front, a letter outside ASCII)
    is never referred to, whatever the text. *)
Theorem referenced_name_shape (text nameLower : jsstring) (count : N) :
  identifier nameLower count ∈ parseReferences text ->
  exists c body,
    nameLower = c :: body
    /\ isLower c = true
    /\ Forall (fun x => isLower x || isDigit x || (x =? hyphen) = true) body.
Proof.
  intros H. apply scanRefs_shape in H.
  destruct H as (c & body & digits & E & Hc & Hbody & _ & Hds).
  unfold identifier in E. simpl in E.
  change (c :: body ++ hyphen :: digits)
    with ((c :: body) ++ hyphen :: digits) in E.
  apply split_at_last in E.
  - destruct E as [-> _]. by exists c, body.
  - apply decimal_no_hyphen.
  - intros Hin. rewrite Forall_forall in Hds. specialize (Hds _ Hin).
    discriminate.
Qed.

Lemma referenced_name_shape_witness :
  exists c body,
    str "ee-media" = c :: body
    /\ isLower c = true
    /\ Forall (fun x => isLower x || isDigit x || (x =? hyphen) = true) body.
Proof.
  apply (referenced_name_shape Examples.mediaRef (str "ee-media") 1).
  vm_compute. left.
Defined.

Lemma parseReferences_shape_witness :
  exists c body digits,
    str "ee-media-1" = c :: body ++ hyphen :: digits
    /\ isLower c = true
    /\ Forall (fun x => isLower x || isDigit x || (x =? hyphen) = true) body
    /\ digits <> []
    /\ Forall (fun x => isDigit x = true) digits.
Proof.
  apply (parseReferences_shape Examples.mediaRef (str "ee-media-1")).
  vm_compute. left.
Defined.

(** ** The effect of one row *)

Lemma resolveReferences_appends (convert : node -> res (option node))
  (annotate : node -> res node) (index : gmap jsstring node)
  (refs : list jsstring) (el el' : node) :
  resolveReferences convert annotate index refs el = Ok el' ->
  exists cs, el' = appendChildren cs el.
Proof.
  unfold resolveReferences. revert el.
  induction refs as [|r refs IH]; intros el.
  - intros [= <-]. exists []. by rewrite appendChildren_nil.
  - rewrite foldM_cons.
    destruct (index !! r) as [b|]; [|rewrite bind_Ok; apply IH].
    destruct (convert b) as [[c|]|e]; simpl; [| apply IH | done].
    destruct (annotate c) as [c'|e]; simpl; [|done].
    intros H. destruct (IH _ H) as (cs & ->). exists (c' :: cs).
    by rewrite appendChildren_cons.
Qed.

(** A turn of the row loop of [convertBlock] leaves the element as it
    is, or appends nodes, or sets one attribute; it touches the style
    variables only when it leaves the element as it is. *)
Lemma convertBlockRow_effect (P : Platform) (convert : node -> res node)
  (st : deserializer) (el : node) (vars : styleVars) (row : node)
  (el' : node) (vars' : styleVars) :
  convertBlockRow P convert st (el, vars) row = Ok (el', vars') ->
  el' = el
  \/ (vars' = vars /\ exists cs, el' = appendChildren cs el)
  \/ (vars' = vars /\ exists k v, el' = withAttribute k v el).
Proof.
  unfold convertBlockRow.
  destruct (parseBlockRow row) as [parsed|]; [|intros [= <- <-]; auto].
  case_bool_decide as Hname; [intros [= <- <-]; auto|].
  destruct (match slotName parsed with
            | Some l => startsWith (str "style-") l
            | None => false
            end); [intros [= <- <-]; auto|].
  destruct (isReferenceRow _).
  { destruct (resolveReferences _ _ _ _ el) as [el1|e] eqn:E; simpl; [|done].
    intros [= <- <-]. right. left. split; [done|].
    by eapply resolveReferences_appends. }
  case_bool_decide.
  { intros [= <- <-]. right. left. eauto. }
  destruct (slotName parsed) as [l|]; [|intros [= <- <-]; right; left; eauto].
  destruct (isSlot parsed).
  { rewrite setAttribute_slot. simpl. intros [= <- <-]. right. left.
    split; [done|]. eexists [_]. by destruct el. }
  destruct (_ && _).
  { destruct (convertContent _ _ _ _) as [cs|e]; simpl; [|done].
    intros [= <- <-]. right. left. eauto. }
  destruct (truthy l); [|intros [= <- <-]; auto].
  destruct (setAttribute P _ _ el) as [el1|e] eqn:E; simpl; [|done].
  intros [= <- <-]. apply setAttribute_Ok in E. right. right. eauto.
Qed.

(** The same for a turn of the row loop of [convertTable]. *)
Lemma convertTableRow_effect (P : Platform)
  (convert : node -> res (option node)) (st : deserializer) (el : node)
  (vars : styleVars) (row : node) (el' : node) (vars' : styleVars) :
  convertTableRow P convert st (el, vars) row = Ok (el', vars') ->
  el' = el
  \/ (vars' = vars /\ exists cs, el' = appendChildren cs el)
  \/ (vars' = vars /\ exists k v, el' = withAttribute k v el).
Proof.
  unfold convertTableRow.
  destruct (querySelectorAll (str "td") row) as [|c0 [|c1 [|c2 cells]]];
    try (intros [= <- <-]; by auto).
  - case_bool_decide; [|intros [= <- <-]; auto].
    destruct (streq _ _); intros [= <- <-]; [auto | right; left; eauto].
  - destruct (streq _ (str "element-name")); [intros [= <- <-]; auto|].
    destruct (startsWith _ _); [intros [= <- <-]; auto|].
    destruct (isReferenceRow _).
    { destruct (resolveReferences _ _ _ _ el) as [el1|e] eqn:E; simpl;
        [|done].
      intros [= <- <-]. right. left. split; [done|].
      by eapply resolveReferences_appends. }
    destruct (negb _).
    { case_bool_decide; [intros [= <- <-]; right; left; eauto|].
      destruct (slotIfNamed P _ _) as [w|e]; simpl; [|done].
      intros [= <- <-]. right. left. split; [done|]. eexists [_].
      by destruct el. }
    destruct (truthy _); [|intros [= <- <-]; auto].
    destruct (setAttribute P _ _ el) as [el1|e] eqn:E; simpl; [|done].
    intros [= <- <-]. apply setAttribute_Ok in E. right. right. eauto.
Qed.

Lemma childNodesOf_appendChildren (cs : list node) (el : node) :
  isElement el = true ->
  childNodesOf (appendChildren cs el) = childNodesOf el ++ cs.
Proof. by destruct el. Qed.

(** What the three effects keep: the tag and the child nodes already
    there; and the attributes or the child nodes. *)
Lemma effect_frame (el el' : node) (vars vars' : styleVars) :
  (el' = el
   \/ (vars' = vars /\ exists cs, el' = appendChildren cs el)
   \/ (vars' = vars /\ exists k v, el' = withAttribute k v el)) ->
  tagOf el' = tagOf el
  /\ childNodesOf el `prefix_of` childNodesOf el'
  /\ (attributesOf el' = attributesOf el
      \/ childNodesOf el' = childNodesOf el)
  /\ (vars' = vars \/ el' = el).
Proof.
  intros [->|[[-> (cs & ->)]|[-> (k & v & ->)]]].
  - repeat split; auto.
  - destruct el as [t a c| |]; simpl; repeat split; auto.
    by apply prefix_app_r.
  - destruct el as [t a c| |]; simpl; repeat split; auto.
Qed.

(** Attribute and children are exclusive, in both pipelines: a row that
    is processed without exception never changes both the attributes
    and the child nodes of the element, and a row that changes the
    style variables changes nothing of the element.  Whatever the row,
    the element keeps its tag and the child nodes it had, in front. *)
Theorem row_effects_exclusive (P : Platform) (st : deserializer)
  (el el' : node) (vars vars' : styleVars) (row : node) :
  (exists convert,
      convertBlockRow P convert st (el, vars) row = Ok (el', vars'))
  \/ (exists convert,
         convertTableRow P convert st (el, vars) row = Ok (el', vars')) ->
  tagOf el' = tagOf el
  /\ childNodesOf el `prefix_of` childNodesOf el'
  /\ (attributesOf el' = attributesOf el
      \/ childNodesOf el' = childNodesOf el)
  /\ (vars' = vars \/ el' = el).
Proof.
  intros [[convert H]|[convert H]]; apply effect_frame.
  - by eapply convertBlockRow_effect.
  - by eapply convertTableRow_effect.
Qed.

(** The row [media: → ee-media-1, → missing-9] appends a child and
    leaves the attributes and the style variables. *)
Lemma row_effects_exclusive_witness :
  let out := TestPlatform.el "x-card" []
               [TestPlatform.el "ee-media"
                  [("src", "a.png"); ("slot", "media")]%string []] in
  tagOf out = tagOf Examples.emptyCard
  /\ childNodesOf Examples.emptyCard `prefix_of` childNodesOf out
  /\ (attributesOf out = attributesOf Examples.emptyCard
      \/ childNodesOf out = childNodesOf Examples.emptyCard)
  /\ ([] = @nil (jsstring * jsstring) \/ out = Examples.emptyCard).
Proof.
  refine (row_effects_exclusive Examples.browser
            (Examples.indexed Examples.paywallPage) Examples.emptyCard _ [] []
            Examples.mediaRow _).
  left.
  exists (convertBlock Examples.browser 2
            (Examples.indexed Examples.paywallPage)).
  vm_compute. reflexivity.
Defined.

(** ** The element that the parser creates *)

Lemma foldM_frame {A : Type} (f : node * styleVars -> A -> res (node * styleVars))
  (rows : list A) (el el' : node) (vars vars' : styleVars) :
  (forall el vars row el' vars',
      f (el, vars) row = Ok (el', vars') ->
      tagOf el' = tagOf el /\ childNodesOf el `prefix_of` childNodesOf el') ->
  foldM f rows (el, vars) = Ok (el', vars') ->
  tagOf el' = tagOf el /\ childNodesOf el `prefix_of` childNodesOf el'.
Proof.
  intros Hf. revert el vars.
  induction rows as [|row rows IH]; intros el vars.
  - by intros [= <- <-].
  - rewrite foldM_cons.
    destruct (f (el, vars) row) as [[el1 vars1]|e] eqn:E;
      [rewrite bind_Ok | by rewrite bind_Throw].
    intros H. destruct (IH _ _ H) as [Ht Hp].
    destruct (Hf _ _ _ _ _ E) as [Ht1 Hp1].
    split; [congruence | by etrans].
Qed.

Lemma variantClasses_frame (P : Platform) (classes : list jsstring)
  (el el' : node) :
  foldM (fun el cls => setAttribute P cls [] el) classes el = Ok el' ->
  tagOf el' = tagOf el /\ childNodesOf el' = childNodesOf el.
Proof.
  revert el. induction classes as [|c classes IH]; intros el.
  - by intros [= <-].
  - rewrite foldM_cons.
    destruct (setAttribute P c [] el) as [el1|e] eqn:E;
      [rewrite bind_Ok | by rewrite bind_Throw].
    apply setAttribute_Ok in E. subst el1.
    intros H. destruct (IH _ H) as [-> ->]. by destruct el.
Qed.

Lemma applyStyleVars_frame (P : Platform) (vars : styleVars) (el el' : node) :
  applyStyleVars P vars el = Ok el' ->
  tagOf el' = tagOf el /\ childNodesOf el' = childNodesOf el.
Proof.
  unfold applyStyleVars. destruct vars; [by intros [= <-]|].
  rewrite setAttribute_style. intros [= <-]. by destruct el.
Qed.

(** The output of a conversion is the element that the parser created
    for the lower-cased element name, with attributes set and child
    nodes appended: its tag is the tag of that element and the child
    nodes of that element come first, for [convertBlock] and for
    [convertTable]. *)
Theorem created_element_kept (P : Platform) (fuel : nat) (st : deserializer)
  (source element out : node) :
  (convertsTo P source element
   /\ convertBlock P (S fuel) st source = Ok out)
  \/ (exists elementName,
         getElementNameFromTable source = Some elementName
         /\ truthy elementName = true
         /\ parseCustomElement P (toLowerCase P elementName) = Some element
         /\ convertTable P (S fuel) st source = Ok (Some out)) ->
  tagOf out = tagOf element
  /\ childNodesOf element `prefix_of` childNodesOf out.
Proof.
  intros [[(blockClass & name & Hclass & Hname & Ht & Hparse) H]
         |(name & Hname & Ht & Hparse & H)].
  - simpl in H. unfold convertBlockBody in H.
    rewrite Hclass, Hname, Ht, Hparse in H. cbn [negb] in H. cbv iota in H.
    destruct (foldM (fun el cls => setAttribute P cls [] el) _ element)
      as [el1|e] eqn:E1; [rewrite bind_Ok in H | by rewrite bind_Throw in H].
    destruct (foldM (convertBlockRow P (convertBlock P fuel st) st) _ (el1, []))
      as [[el2 vars]|e] eqn:E2;
      [rewrite bind_Ok in H | by rewrite bind_Throw in H].
    destruct (variantClasses_frame _ _ _ _ E1) as [Ht1 Hc1].
    destruct (applyStyleVars_frame _ _ _ _ H) as [Ht3 Hc3].
    destruct (foldM_frame _ _ _ _ _ _
                (fun el vars row el' vars' Hrow =>
                   let F := effect_frame el el' vars vars'
                              (convertBlockRow_effect P _ st el vars row
                                 el' vars' Hrow) in
                   conj (proj1 F) (proj1 (proj2 F))) E2) as [Ht2 Hp2].
    split; [congruence|]. by rewrite Hc3, <- Hc1.
  - simpl in H. unfold convertTableBody in H.
    rewrite Hname, Ht, Hparse in H. cbn [negb] in H. cbv iota in H.
    destruct (foldM (convertTableRow P (convertTable P fuel st) st) _
                (element, []))
      as [[el2 vars]|e] eqn:E2;
      [rewrite bind_Ok in H | by rewrite bind_Throw in H].
    destruct (applyStyleVars P vars el2) as [el3|e] eqn:E3; [|done].
    injection H as <-.
    destruct (applyStyleVars_frame _ _ _ _ E3) as [Ht3 Hc3].
    destruct (foldM_frame _ _ _ _ _ _
                (fun el vars row el' vars' Hrow =>
                   let F := effect_frame el el' vars vars'
                              (convertTableRow_effect P _ st el vars row
                                 el' vars' Hrow) in
                   conj (proj1 F) (proj1 (proj2 F))) E2) as [Ht2 Hp2].
    split; [congruence|]. by rewrite Hc3.
Qed.

(** The block [paywall-card] with a reference to [ee-media-1]. *)
Lemma created_element_kept_witness :
  let out := TestPlatform.el "paywall-card" []
               [TestPlatform.el "ee-media"
                  [("src", "a.png"); ("slot", "media")]%string []] in
  tagOf out = str "paywall-card"
  /\ [] `prefix_of` childNodesOf out.
Proof.
  refine (created_element_kept Examples.browser 1
            (Examples.indexed Examples.paywallPage) Examples.paywallBlock
            (TestPlatform.el "paywall-card" [] []) _ _).
  left. split.
  - exists (str "experience-element"), (str "paywall-card").
    vm_compute. repeat split; reflexivity.
  - vm_compute. reflexivity.
Defined.

(** ** Attribute rows *)

Lemma convertBlockRow_attributeRule (P : Platform)
  (convert : node -> res node) (st : deserializer) (el : node)
  (vars : styleVars) (row : node) (l : jsstring) :
  attributeRowLabel P row = Some l ->
  convertBlockRow P convert st (el, vars) row
  = (el' ← setAttribute P (attributeName l) (rowText row) el; Ok (el', vars)).
Proof.
  unfold attributeRowLabel, convertBlockRow, rowText.
  destruct (parseBlockRow row) as [parsed|]; [|done].
  destruct (slotName parsed) as [l0|]; [|done].
  destruct (streq l0 (str "element-name")) eqn:E1; [done|].
  destruct (startsWith (str "style-") l0) eqn:E2; [done|].
  destruct (isReferenceRow _) eqn:E3; [done|].
  destruct (querySelectorSlot (content parsed)) eqn:E4;
    [by rewrite andb_false_r|].
  destruct (isSlot parsed) eqn:E5; [by rewrite andb_false_r|].
  destruct (streq (trim (innerHTML P (content parsed))) _
            || isSimplePWrapper (content parsed)) eqn:E6;
    [|by rewrite andb_false_r].
  destruct (truthy l0) eqn:E7; [|by rewrite andb_false_r].
  cbn [negb andb]. intros [= ->].
  apply streq_false in E1.
  rewrite bool_decide_eq_false_2 by congruence.
  rewrite bool_decide_eq_false_2 by (intros H; by apply H).
  assert (E8 : negb (streq (trim (innerHTML P (content parsed)))
                       (trim (textContent (content parsed))))
               && negb (isSimplePWrapper (content parsed)) = false).
  { rewrite <- negb_orb. by rewrite E6. }
  by rewrite E8.
Qed.

(** The attribute rule.  A row that reaches the plain-text rule with
    the label [l] sets, on a valid name, the attribute [l] in ASCII lower
    case ([type] when the label is [attr-type]) to the trimmed text of
    the content and changes nothing else: the other attributes, the
    child nodes and the style variables stay. *)
Theorem attribute_row (P : Platform) (convert : node -> res node)
  (st : deserializer) (t : jsstring) (a : list (jsstring * jsstring))
  (cs : list node) (vars : styleVars) (row : node) (l : jsstring) :
  attributeRowLabel P row = Some l ->
  validAttributeName P (attributeName l) = true ->
  exists a',
    convertBlockRow P convert st (Element t a cs, vars) row
    = Ok (Element t a' cs, vars)
    /\ lookupAttr (asciiLower (attributeName l)) a' = Some (rowText row)
    /\ (l = str "attr-type" -> lookupAttr (str "type") a' = Some (rowText row))
    /\ (forall name, name <> asciiLower (attributeName l) ->
                     lookupAttr name a' = lookupAttr name a).
Proof.
  intros Hrow Hvalid.
  exists (setAttr (asciiLower (attributeName l)) (rowText row) a).
  rewrite (convertBlockRow_attributeRule _ _ _ _ _ _ _ Hrow).
  unfold setAttribute. rewrite Hvalid. split; [done|].
  split; [by rewrite lookupAttr_setAttr, streq_refl|].
  split.
  - intros ->. by rewrite lookupAttr_setAttr.
  - intros name Hne. rewrite lookupAttr_setAttr.
    by rewrite (proj2 (streq_false _ _)) by congruence.
Qed.

Lemma attribute_row_witness :
  exists a',
    convertBlockRow Examples.browser (fun b => Ok b) newDeserializer
      (Element (str "x-card") [] [], [])
      (TestPlatform.blockRow "attr-type" [TestPlatform.txt " promo "])
    = Ok (Element (str "x-card") a' [], [])
    /\ lookupAttr (str "type") a' = Some (str "promo")
    /\ (str "attr-type" = str "attr-type" ->
        lookupAttr (str "type") a' = Some (str "promo"))
    /\ (forall name, name <> str "type" -> lookupAttr name a' = lookupAttr name []).
Proof.
  refine (attribute_row Examples.browser (fun b => Ok b) newDeserializer
            (str "x-card") [] [] []
            (TestPlatform.blockRow "attr-type" [TestPlatform.txt " promo "])
            (str "attr-type") _ _).
  - vm_compute. reflexivity.
  - vm_compute. reflexivity.
Defined.

(** ** Conversions that return no element *)

Lemma foldM_Ok_elem_of {A B : Type} (f : B -> A -> res B) (l : list A)
  (b b' : B) (x : A) :
  foldM f l b = Ok b' -> x ∈ l -> exists a a', f a x = Ok a'.
Proof.
  revert b. induction l as [|y l IH]; intros b H Hx;
    [by apply elem_of_nil in Hx|].
  rewrite foldM_cons in H.
  destruct (f b y) as [b1|e] eqn:E;
    [rewrite bind_Ok in H | by rewrite bind_Throw in H].
  apply elem_of_cons in Hx. destruct Hx as [->|Hx]; [eauto|].
  by eapply IH.
Qed.

(** When a converted block returns an element, every row had a turn
    that returned. *)
Lemma convertBlock_rows_Ok (P : Platform) (fuel : nat) (st : deserializer)
  (b element out row : node) :
  convertsTo P b element ->
  convertBlock P (S fuel) st b = Ok out ->
  row ∈ divChildren b ->
  exists acc acc',
    convertBlockRow P (convertBlock P fuel st) st acc row = Ok acc'.
Proof.
  intros (blockClass & name & Hclass & Hname & Ht & Hparse) H Hrow.
  simpl in H. unfold convertBlockBody in H.
  rewrite Hclass, Hname, Ht, Hparse in H. cbn [negb] in H. cbv iota in H.
  destruct (foldM (fun el cls => setAttribute P cls [] el) _ element)
    as [el1|e] eqn:E1; [rewrite bind_Ok in H | by rewrite bind_Throw in H].
  destruct (foldM (convertBlockRow P (convertBlock P fuel st) st) _ (el1, []))
    as [[el2 vars]|e] eqn:E2;
    [|by rewrite bind_Throw in H].
  by eapply foldM_Ok_elem_of.
Qed.

Lemma convertBlock_O (P : Platform) (st : deserializer) (b : node) :
  convertBlock P 0 st b = Throw OutOfFuel.
Proof. reflexivity. Qed.

(** An attribute name that the DOM refuses.  When a row of a converted
    block reaches the plain-text rule with a label that is not a valid
    attribute name, [setAttribute] throws and the conversion of the
    block returns no element, whatever the other rows. *)
Theorem invalid_attribute_label_throws (P : Platform) (fuel : nat)
  (st : deserializer) (b element row : node) (l : jsstring) :
  convertsTo P b element ->
  row ∈ divChildren b ->
  attributeRowLabel P row = Some l ->
  validAttributeName P (attributeName l) = false ->
  exists e, convertBlock P fuel st b = Throw e.
Proof.
  intros Hb Hrow Hl Hvalid.
  destruct (convertBlock P fuel st b) as [out|e] eqn:E; [|by exists e].
  exfalso. destruct fuel as [|fuel]; [done|].
  destruct (convertBlock_rows_Ok _ _ _ _ _ _ _ Hb E Hrow)
    as ([el vars] & acc' & Hturn).
  rewrite (convertBlockRow_attributeRule _ _ _ _ _ _ _ Hl) in Hturn.
  unfold setAttribute in Hturn. by rewrite Hvalid in Hturn.
Qed.

(** The label [plan name] holds a space. *)
Lemma invalid_attribute_label_throws_witness :
  exists e,
    convertBlock Examples.browser 3 newDeserializer Examples.spacedLabelBlock
    = Throw e.
Proof.
  refine (invalid_attribute_label_throws Examples.browser 3 newDeserializer
            Examples.spacedLabelBlock (TestPlatform.el "x-card" [] [])
            (TestPlatform.blockRow "plan name" [TestPlatform.txt "Pro"])
            (str "plan name") _ _ _ _).
  - exists (str "experience-element"), (str "x-card").
    vm_compute. repeat split; reflexivity.
  - vm_compute. right. left.
  - vm_compute. reflexivity.
  - vm_compute. reflexivity.
Defined.

(** ** Reference cycles *)

Lemma resolveReferences_Ok_inv (convert : node -> res node)
  (annotate : node -> res node) (index : gmap jsstring node)
  (refs : list jsstring) (el el' : node) (refId : jsstring) (b : node) :
  resolveReferences (fun b => c ← convert b; Ok (Some c)) annotate index
    refs el = Ok el' ->
  refId ∈ refs -> index !! refId = Some b ->
  exists c, convert b = Ok c.
Proof.
  unfold resolveReferences. revert el.
  induction refs as [|r refs IH]; intros el H Hin Hb;
    [by apply elem_of_nil in Hin|].
  rewrite foldM_cons in H.
  apply elem_of_cons in Hin. destruct Hin as [->|Hin].
  - rewrite Hb in H. destruct (convert b) as [c|e]; [by exists c | done].
  - destruct (index !! r) as [b0|].
    + destruct (convert b0) as [c|e]; simpl in H; [|done].
      destruct (annotate c) as [c'|e]; simpl in H; [|done].
      by eapply IH.
    + rewrite bind_Ok in H. by eapply IH.
Qed.

(** One step along a reference: when the conversion of a block returns
    an element, so does, one level deeper, the conversion of a block it
    refers to. *)
Lemma refersTo_descends (P : Platform) (fuel : nat) (st : deserializer)
  (b b' out : node) :
  refersTo P st b b' ->
  convertBlock P (S fuel) st b = Ok out ->
  exists out', convertBlock P fuel st b' = Ok out'.
Proof.
  intros (element & row & parsed & refId & Hb & Hrow & Hparsed & Hname
          & Hstyle & Href & Hin & Hmap) H.
  destruct (convertBlock_rows_Ok _ _ _ _ _ _ _ Hb H Hrow)
    as ([el vars] & [el' vars'] & Hturn).
  unfold convertBlockRow in Hturn. rewrite Hparsed in Hturn.
  rewrite bool_decide_eq_false_2 in Hturn by done.
  assert (Hs : match slotName parsed with
               | Some l => startsWith (str "style-") l
               | None => false
               end = false).
  { destruct (slotName parsed) as [l|]; [by apply Hstyle | done]. }
  rewrite Hs, Href in Hturn.
  destruct (resolveReferences _ _ _ _ el) as [el1|e] eqn:E; [|done].
  by eapply resolveReferences_Ok_inv.
Qed.

Lemma refersTo_chain_descends (P : Platform) (st : deserializer)
  (b b' : node) :
  tc (refersTo P st) b b' ->
  forall fuel out,
    convertBlock P fuel st b = Ok out ->
    exists fuel' out', (fuel' < fuel)%nat
                       /\ convertBlock P fuel' st b' = Ok out'.
Proof.
  induction 1 as [b b' Hstep|b b1 b' Hstep Hchain IH]; intros fuel out H.
  - destruct fuel as [|fuel]; [done|].
    destruct (refersTo_descends _ _ _ _ _ _ Hstep H) as [out' H'].
    exists fuel, out'. split; [lia | done].
  - destruct fuel as [|fuel]; [done|].
    destruct (refersTo_descends _ _ _ _ _ _ Hstep H) as [out1 H1].
    destruct (IH _ _ H1) as (fuel' & out' & Hlt & H').
    exists fuel', out'. split; [lia | done].
Qed.

(** No cycle guard.  A block on a cycle of references (it refers to
    itself, or to a block that refers back to it through any number of
    blocks) is never converted to an element: at every depth of the
    recursion the conversion ends in an exception. *)
Theorem reference_cycle_never_returns (P : Platform) (st : deserializer)
  (b : node) (fuel : nat) :
  tc (refersTo P st) b b ->
  exists e, convertBlock P fuel st b = Throw e.
Proof.
  intros Hcycle.
  destruct (convertBlock P fuel st b) as [out|e] eqn:E; [|by exists e].
  exfalso. revert out E.
  induction fuel as [fuel IH] using lt_wf_ind. intros out E.
  destruct (refersTo_chain_descends _ _ _ _ Hcycle _ _ E)
    as (fuel' & out' & Hlt & E').
  by eapply (IH fuel').
Qed.

(** The block [x-loop] refers to itself. *)
Lemma reference_cycle_never_returns_witness :
  exists e,
    convertBlock Examples.browser 9 (Examples.indexed [Examples.selfBlock])
      Examples.selfBlock
    = Throw e.
Proof.
  refine (reference_cycle_never_returns Examples.browser
            (Examples.indexed [Examples.selfBlock]) Examples.selfBlock 9 _).
  apply tc_once.
  exists (TestPlatform.el "x-loop" [] []),
         (TestPlatform.blockRow "self" [Text (arrow :: str " x-loop-1")]),
         {| slotName := Some (str "self");
            content := TestPlatform.el "div" [] [Text (arrow :: str " x-loop-1")];
            isSlot := false |},
         (str "x-loop-1").
  split.
  { exists (str "experience-element"), (str "x-loop").
    vm_compute. repeat split; reflexivity. }
  split; [vm_compute; right; left|].
  split; [vm_compute; reflexivity|].
  split; [simpl; discriminate|].
  split; [simpl; intros l [= <-]; reflexivity|].
  split; [vm_compute; reflexivity|].
  split; [vm_compute; left|].
  vm_compute. reflexivity.
Defined.

(** ** Tables without an element name *)

Lemma fmap_Some_not_None {A : Type} (r : res A) :
  (Some <$> r) <> Ok None.
Proof. by destruct r. Qed.

(** [convertTable] returns [null] exactly for a table without an
    element name: a table with a name gives an element or throws. *)
Theorem convertTable_null (P : Platform) (fuel : nat) (st : deserializer)
  (table : node) :
  convertTable P (S fuel) st table = Ok None
  <-> named (getElementNameFromTable table) = false.
Proof.
  simpl. unfold convertTableBody, named.
  destruct (getElementNameFromTable table) as [name|]; [|done].
  destruct (truthy name); simpl; [|done].
  split; [|done]. intros H. exfalso.
  destruct (parseCustomElement P (toLowerCase P name)) as [element|].
  - destruct (foldM _ _ _) as [[el vars]|e]; simpl in H; [|done].
    by apply fmap_Some_not_None in H.
  - by apply fmap_Some_not_None in H.
Qed.

(** When the root table has no element name, [fromEDS] returns the
    input markup as it is. *)
Theorem unnamed_root_table_passthrough (P : Platform) (fuel : nat)
  (st : deserializer) (html : jsstring) (inTr : bool)
  (root table rootTable : node) (tables : list node) :
  documentRoot (parseFromString P html) = (inTr, root) ->
  findTables inTr root = table :: tables ->
  findRootTable P (table :: tables) = Some rootTable ->
  named (getElementNameFromTable rootTable) = false ->
  snd (fromEDS P (S fuel) st html) = Ok html.
Proof.
  intros Hroot Htables Hr Hn. unfold fromEDS. rewrite Hroot, Htables, Hr.
  cbn [snd]. by rewrite (convertTable_unnamed P fuel _ rootTable Hn).
Qed.

Lemma unnamed_root_table_passthrough_witness :
  let html := TestPlatform.serialize
                (TestPlatform.page [Examples.unnamedTable]) in
  snd (fromEDS (TestPlatform.forPage [Examples.unnamedTable]) 1
         newDeserializer html)
  = Ok html.
Proof.
  refine (unnamed_root_table_passthrough
            (TestPlatform.forPage [Examples.unnamedTable]) 0 newDeserializer
            _ false (TestPlatform.el "main" [] [Examples.unnamedTable])
            Examples.unnamedTable Examples.unnamedTable [] _ _ _ _).
  - vm_compute. reflexivity.
  - vm_compute. reflexivity.
  - vm_compute. reflexivity.
  - vm_compute. reflexivity.
Defined.

(** ** The maps of an earlier call *)

Lemma convertContent_ext (P : Platform) (convert convert' : node -> res node)
  (st st' : deserializer) (contentDiv : node) (slotName : option jsstring) :
  (forall b, convert b = convert' b) -> blockMap st = blockMap st' ->
  convertContent P convert st contentDiv slotName
  = convertContent P convert' st' contentDiv slotName.
Proof.
  intros H Hm. unfold convertContent.
  destruct (findNestedBlock contentDiv); [by rewrite H|].
  rewrite Hm.
  by rewrite (resolveReferences_ext
                (fun b => c ← convert b; Ok (Some c))
                (fun b => c ← convert' b; Ok (Some c)) _ _ _ _
                (fun b => f_equal (fun r => c ← r; Ok (Some c)) (H b))).
Qed.

Lemma convertBlockRow_ext (P : Platform) (convert convert' : node -> res node)
  (st st' : deserializer) (acc : node * styleVars) (row : node) :
  (forall b, convert b = convert' b) -> blockMap st = blockMap st' ->
  convertBlockRow P convert st acc row = convertBlockRow P convert' st' acc row.
Proof.
  intros H Hm. unfold convertBlockRow. destruct acc as [element vars].
  destruct (parseBlockRow row) as [parsed|]; [|done].
  rewrite Hm.
  rewrite (resolveReferences_ext
             (fun b => c ← convert b; Ok (Some c))
             (fun b => c ← convert' b; Ok (Some c)) _ _ _ _
             (fun b => f_equal (fun r => c ← r; Ok (Some c)) (H b))).
  by rewrite (convertContent_ext P convert convert' st st' _ _ H Hm).
Qed.

(** [convertBlock] reads the block map only. *)
Lemma convertBlock_blockMap (P : Platform) (fuel : nat)
  (st st' : deserializer) (b : node) :
  blockMap st = blockMap st' ->
  convertBlock P fuel st b = convertBlock P fuel st' b.
Proof.
  intros Hm. revert b. induction fuel as [|fuel IH]; intros b; [done|].
  simpl. unfold convertBlockBody.
  destruct (find _ _); [|done].
  destruct (getElementName b) as [name|]; [|done].
  destruct (negb (truthy name)); [done|].
  destruct (parseCustomElement P (toLowerCase P name)); [|done].
  destruct (foldM (fun el cls => setAttribute P cls [] el) _ _);
    simpl; [|done].
  by rewrite (foldM_ext _ _ _ _
                (fun acc row => convertBlockRow_ext P _ _ st st' acc row IH Hm)).
Qed.

(** A deserializer that is used again.  What [fromEDS] and [toElement]
    return does not depend on the maps that an earlier call left: each
    call builds the map of its pipeline anew and reads no other. *)
Theorem result_independent_of_earlier_maps (P : Platform) (fuel : nat)
  (st st' : deserializer) (html : jsstring) :
  snd (fromEDS P fuel st html) = snd (fromEDS P fuel st' html)
  /\ snd (toElement P fuel st html) = snd (toElement P fuel st' html).
Proof.
  unfold fromEDS, toElement.
  destruct (documentRoot (parseFromString P html)) as [inTr root].
  destruct (findTables inTr root) as [|table tables].
  - destruct (findBlocks root) as [|block blocks]; [done|]. cbn [snd].
    split.
    + destruct (findRootBlock P (block :: blocks)); [|done].
      by rewrite (convertBlock_blockMap P fuel
                    {| blockMap := buildBlockMap P (block :: blocks);
                       tableMap := tableMap st |}
                    {| blockMap := buildBlockMap P (block :: blocks);
                       tableMap := tableMap st' |}).
    + by rewrite (convertBlock_blockMap P fuel
                    {| blockMap := buildBlockMap P (block :: blocks);
                       tableMap := tableMap st |}
                    {| blockMap := buildBlockMap P (block :: blocks);
                       tableMap := tableMap st' |}).
  - cbn [snd]. split.
    + destruct (findRootTable P (table :: tables)); [|done].
      by rewrite (convertTable_tableMap P fuel
                    {| blockMap := blockMap st;
                       tableMap := buildTableMap P (table :: tables) |}
                    {| blockMap := blockMap st';
                       tableMap := buildTableMap P (table :: tables) |}).
    + by rewrite (convertTable_tableMap P fuel
                    {| blockMap := blockMap st;
                       tableMap := buildTableMap P (table :: tables) |}
                    {| blockMap := blockMap st';
                       tableMap := buildTableMap P (table :: tables) |}).
Qed.

(** ** [toElement] without components *)

(** On a document without experience-element table and without
    component-marked block, [toElement] returns the first element child
    of the root ([main], or [body]) and not the whole content; [null]
    when the root has no element child. *)
Theorem toElement_without_components (P : Platform) (fuel : nat)
  (st : deserializer) (html : jsstring) (inTr : bool) (root : node) :
  documentRoot (parseFromString P html) = (inTr, root) ->
  Forall (fun x => hasTag (str "table") (snd x)
                   && isExperienceTable (fst x) (snd x) = false)
    (descendantsCtx inTr root) ->
  Forall (fun n => isComponentBlock n = false) (subtree root) ->
  toElement P fuel st html = (st, Ok (firstElementChild root)).
Proof.
  intros Hroot Htables Hblocks. unfold toElement. rewrite Hroot.
  assert (Ht : findTables inTr root = []).
  { unfold findTables.
    induction (descendantsCtx inTr root) as [|x l IH]; [done|].
    apply Forall_cons in Htables. destruct Htables as [Hx Hl].
    simpl. rewrite Hx. by apply IH. }
  rewrite Ht. by rewrite (findBlocks_none root Hblocks).
Qed.

(** Of the page [<p>Hello</p><p>World</p>] the first paragraph only. *)
Lemma toElement_without_components_witness :
  let page := [TestPlatform.el "p" [] [TestPlatform.txt "Hello"];
               TestPlatform.el "p" [] [TestPlatform.txt "World"]] in
  toElement (TestPlatform.forPage page) 0 newDeserializer
    (TestPlatform.serialize (TestPlatform.page page))
  = (newDeserializer,
     Ok (Some (TestPlatform.el "p" [] [TestPlatform.txt "Hello"]))).
Proof.
  refine (toElement_without_components
            (TestPlatform.forPage
               [TestPlatform.el "p" [] [TestPlatform.txt "Hello"];
                TestPlatform.el "p" [] [TestPlatform.txt "World"]])
            0 newDeserializer _ false
            (TestPlatform.el "main" []
               [TestPlatform.el "p" [] [TestPlatform.txt "Hello"];
                TestPlatform.el "p" [] [TestPlatform.txt "World"]]) _ _ _).
  - vm_compute. reflexivity.
  - vm_compute. repeat constructor.
  - vm_compute. repeat constructor.
Defined.

(** ** Rich content *)

Lemma getAttribute_slot_withAttribute (l : jsstring) (n : node) :
  isElement n = true ->
  getAttribute (str "slot") (withAttribute (str "slot") l n) = Some l.
Proof.
  intros H. rewrite getAttribute_withAttribute by done. by rewrite streq_refl.
Qed.

Lemma slotIfNamed_slot (P : Platform) (l : jsstring) (n n' : node) :
  truthy l = true -> slotIfNamed P (Some l) n = Ok n' ->
  isElement n' = true -> getAttribute (str "slot") n' = Some l.
Proof.
  intros Hl. unfold slotIfNamed. rewrite Hl, setAttribute_slot.
  intros [= <-]. rewrite isElement_withAttribute.
  apply getAttribute_slot_withAttribute.
Qed.

Lemma resolveReferences_children (convert : node -> res (option node))
  (annotate : node -> res node) (Q : node -> Prop)
  (index : gmap jsstring node) (refs : list jsstring)
  (t : jsstring) (a : list (jsstring * jsstring)) (cs : list node)
  (el' : node) :
  (forall c c', annotate c = Ok c' -> Q c') ->
  Forall Q cs ->
  resolveReferences convert annotate index refs (Element t a cs) = Ok el' ->
  Forall Q (childNodesOf el').
Proof.
  intros Hann. unfold resolveReferences. revert cs.
  induction refs as [|r refs IH]; intros cs Hcs.
  - by intros [= <-].
  - rewrite foldM_cons.
    destruct (index !! r) as [b|]; [|rewrite bind_Ok; by apply IH].
    destruct (convert b) as [[c|]|e]; simpl; [| by apply IH | done].
    destruct (annotate c) as [c'|e] eqn:E; simpl; [|done].
    apply IH. apply Forall_app. split; [done|].
    constructor; [by eapply Hann | constructor].
Qed.

(** Rich content is slotted at the top.  With a label that is not
    empty, every element among the nodes that [convertContent] returns
    (the converted nested block, the converted references, the cloned
    child nodes, or the wrapping [span]) carries [slot] set to the
    label; text nodes are returned without annotation. *)
Theorem convertContent_slotted (P : Platform) (convert : node -> res node)
  (st : deserializer) (contentDiv : node) (l : jsstring)
  (nodes : list node) :
  truthy l = true ->
  convertContent P convert st contentDiv (Some l) = Ok nodes ->
  Forall (fun n => isElement n = true ->
                   getAttribute (str "slot") n = Some l) nodes.
Proof.
  intros Hl. unfold convertContent.
  destruct (findNestedBlock contentDiv) as [nested|].
  { destruct (convert nested) as [c|e];
      [rewrite bind_Ok | by rewrite bind_Throw].
    destruct (slotIfNamed P (Some l) c) as [c'|e] eqn:E;
      [rewrite bind_Ok | by rewrite bind_Throw].
    intros [= <-]. constructor; [|constructor].
    by eapply slotIfNamed_slot. }
  destruct (isReferenceRow _).
  { destruct (resolveReferences _ _ _ _ _) as [fragment|e] eqn:E;
      [rewrite bind_Ok | by rewrite bind_Throw].
    intros [= <-]. unfold documentFragment in E.
    eapply resolveReferences_children; [| |exact E]; [|constructor].
    intros c c'. by apply slotIfNamed_slot. }
  destruct (rxTest rxBlockTag _).
  { assert (Hfold : forall ns acc out,
               Forall (fun n => isElement n = true ->
                                getAttribute (str "slot") n = Some l) acc ->
               foldM
                 (fun acc n =>
                    cloned ← (if isElement n then slotIfNamed P (Some l) n
                              else Ok n);
                    Ok (acc ++ [cloned])) ns acc = Ok out ->
               Forall (fun n => isElement n = true ->
                                getAttribute (str "slot") n = Some l) out).
    { induction ns as [|n ns IH]; intros acc out Hacc.
      - by intros [= <-].
      - rewrite foldM_cons. destruct (isElement n) eqn:En.
        + destruct (slotIfNamed P (Some l) n) as [n'|e] eqn:E;
            [rewrite !bind_Ok | by rewrite !bind_Throw].
          apply IH. apply Forall_app. split; [done|].
          constructor; [by eapply slotIfNamed_slot | constructor].
        + rewrite !bind_Ok. apply IH. apply Forall_app. split; [done|].
          constructor; [|constructor]. by rewrite En. }
    intros H. eapply Hfold; [|exact H]. constructor. }
  destruct (slotIfNamed P (Some l) _) as [w|e] eqn:E;
    [rewrite bind_Ok | by rewrite bind_Throw].
  intros [= <-]. constructor; [|constructor]. by eapply slotIfNamed_slot.
Qed.

(** The content [<h2>T</h2> tail] under the label [body]. *)
Lemma convertContent_slotted_witness :
  Forall (fun n => isElement n = true ->
                   getAttribute (str "slot") n = Some (str "body"))
    [TestPlatform.el "h2" [("slot", "body")]%string [TestPlatform.txt "T"];
     TestPlatform.txt " tail"].
Proof.
  refine (convertContent_slotted Examples.browser (fun b => Ok b)
            newDeserializer Examples.richCell (str "body") _ _ _).
  - reflexivity.
  - vm_compute. reflexivity.
Defined.

(** ** Exceptions of referenced components *)

(** A token without an entry is dropped, an exception is not: when the
    conversion of a block that a row refers to throws, the conversion
    of the referring block throws too. *)
Theorem referenced_exception_propagates (P : Platform) (fuel : nat)
  (st : deserializer) (b b' : node) :
  refersTo P st b b' ->
  (exists e, convertBlock P fuel st b' = Throw e) ->
  exists e, convertBlock P (S fuel) st b = Throw e.
Proof.
  intros Href [e' He'].
  destruct (convertBlock P (S fuel) st b) as [out|e] eqn:E; [|by exists e].
  destruct (refersTo_descends _ _ _ _ _ _ Href E) as [out' Hout'].
  congruence.
Qed.

(** The block [x-outer] refers to [x-card-1], whose label [plan name] is
    no attribute name. *)
Lemma referenced_exception_propagates_witness :
  exists e,
    convertBlock Examples.browser 2
      (Examples.indexed [Examples.spacedLabelBlock; Examples.outerBlock])
      Examples.outerBlock
    = Throw e.
Proof.
  refine (referenced_exception_propagates Examples.browser 1
            (Examples.indexed [Examples.spacedLabelBlock; Examples.outerBlock])
            Examples.outerBlock Examples.spacedLabelBlock _ _).
  - exists (TestPlatform.el "x-outer" [] []),
           (TestPlatform.blockRow "inner" [Text (arrow :: str " x-card-1")]),
           {| slotName := Some (str "inner");
              content := TestPlatform.el "div" []
                           [Text (arrow :: str " x-card-1")];
              isSlot := false |},
           (str "x-card-1").
    split.
    { exists (str "experience-element"), (str "x-outer").
      vm_compute. repeat split; reflexivity. }
    split; [vm_compute; right; left|].
    split; [vm_compute; reflexivity|].
    split; [simpl; discriminate|].
    split; [simpl; intros l [= <-]; reflexivity|].
    split; [vm_compute; reflexivity|].
    split; [vm_compute; left|].
    vm_compute. reflexivity.
  - exists InvalidCharacterError. vm_compute. reflexivity.
Defined.

(** ** A root block without an element name *)

(** In the block pipeline a root without an element name is not a
    passthrough of the input: [fromEDS] returns the markup of that block
    alone. *)
Theorem unnamed_root_block_markup (P : Platform) (fuel : nat)
  (st : deserializer) (html : jsstring) (inTr : bool)
  (root block rootBlock : node) (blocks : list node) :
  documentRoot (parseFromString P html) = (inTr, root) ->
  findTables inTr root = [] ->
  findBlocks root = block :: blocks ->
  findRootBlock P (block :: blocks) = Some rootBlock ->
  named (getElementName rootBlock) = false ->
  snd (fromEDS P (S fuel) st html) = Ok (outerHTML P rootBlock).
Proof.
  intros Hroot Htables Hblocks Hr Hn. unfold fromEDS.
  rewrite Hroot, Htables, Hblocks, Hr. cbn [snd].
  by rewrite (convertBlock_unnamed P fuel _ rootBlock Hn).
Qed.

Lemma unnamed_root_block_markup_witness :
  let page := [TestPlatform.el "p" [] [TestPlatform.txt "Intro"];
               Examples.unnamedBlock] in
  snd (fromEDS (TestPlatform.forPage page) 1 newDeserializer
         (TestPlatform.serialize (TestPlatform.page page)))
  = Ok (TestPlatform.serialize Examples.unnamedBlock).
Proof.
  refine (unnamed_root_block_markup
            (TestPlatform.forPage
               [TestPlatform.el "p" [] [TestPlatform.txt "Intro"];
                Examples.unnamedBlock])
            0 newDeserializer _ false
            (TestPlatform.el "main" []
               [TestPlatform.el "p" [] [TestPlatform.txt "Intro"];
                Examples.unnamedBlock])
            Examples.unnamedBlock Examples.unnamedBlock [] _ _ _ _ _).
  - vm_compute. reflexivity.
  - vm_compute. reflexivity.
  - vm_compute. reflexivity.
  - vm_compute. reflexivity.
  - vm_compute. reflexivity.
Defined.

(** ** The style attribute of the output *)

Lemma last_omap_cons {A B : Type} (f : A -> option B) (x : A) (l : list A) :
  last (omap f (x :: l))
  = match last (omap f l) with
    | Some y => Some y
    | None => f x
    end.
Proof.
  change (omap f (x :: l))
    with (match f x with Some y => y :: omap f l | None => omap f l end).
  destruct (f x) as [y|]; [|by destruct (last _)].
  destruct (omap f l) as [|z l']; [done|].
  rewrite last_cons. by destruct (last (z :: l')).
Qed.

(** A row of a block that does not reach the plain-text rule appends
    nodes to the element or leaves it as it is. *)
Lemma convertBlockRow_noAttributeRule (P : Platform)
  (convert : node -> res node) (st : deserializer) (el : node)
  (vars : styleVars) (row : node) (el' : node) (vars' : styleVars) :
  attributeRowLabel P row = None ->
  convertBlockRow P convert st (el, vars) row = Ok (el', vars') ->
  exists cs, el' = appendChildren cs el.
Proof.
  assert (Hsame : exists cs, el = appendChildren cs el).
  { exists []. by rewrite appendChildren_nil. }
  unfold attributeRowLabel, convertBlockRow.
  destruct (parseBlockRow row) as [parsed|]; [|by intros _ [= <- <-]].
  destruct (slotName parsed) as [l|].
  - destruct (streq l (str "element-name")) eqn:E1.
    { apply streq_true in E1. subst l.
      rewrite bool_decide_eq_true_2 by done. by intros _ [= <- <-]. }
    apply streq_false in E1. rewrite bool_decide_eq_false_2 by congruence.
    destruct (startsWith (str "style-") l) eqn:E2; [by intros _ [= <- <-]|].
    destruct (isReferenceRow _) eqn:E3.
    { intros _.
      destruct (resolveReferences _ _ _ _ el) as [el1|e] eqn:E; simpl; [|done].
      intros [= <- <-]. by eapply resolveReferences_appends. }
    destruct (querySelectorSlot (content parsed)) eqn:E4.
    { rewrite bool_decide_eq_true_2 by done. intros _ [= <- <-]. eauto. }
    rewrite bool_decide_eq_false_2 by (intros H; by apply H).
    destruct (isSlot parsed) eqn:E5.
    { intros _. rewrite setAttribute_slot. simpl. intros [= <- <-].
      eexists [_]. by destruct el. }
    destruct (streq (trim (innerHTML P (content parsed))) _) eqn:E6;
      cbn [negb andb orb].
    + destruct (truthy l); [done | by intros _ [= <- <-]].
    + destruct (isSimplePWrapper (content parsed)); cbn [negb].
      * destruct (truthy l); [done | by intros _ [= <- <-]].
      * intros _.
        destruct (convertContent _ _ _ _ _) as [cs|e]; simpl; [|done].
        intros [= <- <-]. eauto.
  - intros _. rewrite bool_decide_eq_false_2 by done.
    destruct (isReferenceRow _).
    { destruct (resolveReferences _ _ _ _ el) as [el1|e] eqn:E; simpl; [|done].
      intros [= <- <-]. by eapply resolveReferences_appends. }
    case_bool_decide; intros [= <- <-]; eauto.
Qed.

(** The [style] attribute after one row of a block. *)
Lemma convertBlockRow_styleAttribute (P : Platform)
  (convert : node -> res node) (st : deserializer) (el : node)
  (vars : styleVars) (row : node) (el' : node) (vars' : styleVars) :
  isElement el = true ->
  convertBlockRow P convert st (el, vars) row = Ok (el', vars') ->
  getAttribute (str "style") el'
  = match styleAttributeRowOf P row with
    | Some text => Some text
    | None => getAttribute (str "style") el
    end.
Proof.
  intros Hel. unfold styleAttributeRowOf.
  destruct (attributeRowLabel P row) as [l|] eqn:Hrow.
  - rewrite (convertBlockRow_attributeRule _ _ _ _ _ _ _ Hrow).
    destruct (setAttribute P _ _ el) as [el1|e] eqn:E; simpl; [|done].
    intros [= <- <-]. apply setAttribute_Ok in E. subst el1.
    rewrite getAttribute_withAttribute by done. by destruct (streq _ _).
  - intros H.
    destruct (convertBlockRow_noAttributeRule _ _ _ _ _ _ _ _ Hrow H)
      as (cs & ->).
    apply getAttribute_appendChildren.
Qed.

(** The [style] attribute after the row loop of a block. *)
Lemma convertBlockRows_styleAttribute (P : Platform)
  (convert : node -> res node) (st : deserializer) (rows : list node)
  (el : node) (vars : styleVars) (el' : node) (vars' : styleVars) :
  isElement el = true ->
  foldM (convertBlockRow P convert st) rows (el, vars) = Ok (el', vars') ->
  getAttribute (str "style") el'
  = match last (omap (styleAttributeRowOf P) rows) with
    | Some text => Some text
    | None => getAttribute (str "style") el
    end.
Proof.
  revert el vars. induction rows as [|row rows IH]; intros el vars Hel.
  - by intros [= <- <-].
  - rewrite foldM_cons.
    destruct (convertBlockRow P convert st (el, vars) row)
      as [[el1 vars1]|e] eqn:E; [rewrite bind_Ok | by rewrite bind_Throw].
    intros H.
    assert (Hel1 : isElement el1 = true).
    { destruct (convertBlockRows P convert st [row] el vars el1 vars1)
        as (_ & He & _); [by rewrite foldM_cons, E | congruence]. }
    rewrite (IH _ _ Hel1 H), last_omap_cons.
    destruct (last (omap (styleAttributeRowOf P) rows)); [done|].
    by apply (convertBlockRow_styleAttribute P convert st el vars row el1 vars1).
Qed.

(** The [style] attribute after the variant classes. *)
Lemma variantClasses_styleAttribute (P : Platform) (classes : list jsstring)
  (el el' : node) :
  isElement el = true ->
  foldM (fun el cls => setAttribute P cls [] el) classes el = Ok el' ->
  getAttribute (str "style") el'
  = if existsb (fun c => streq (asciiLower c) (str "style")) classes
    then Some []
    else getAttribute (str "style") el.
Proof.
  revert el. induction classes as [|c classes IH]; intros el Hel.
  - by intros [= <-].
  - rewrite foldM_cons.
    destruct (setAttribute P c [] el) as [el1|e] eqn:E;
      [rewrite bind_Ok | by rewrite bind_Throw].
    apply setAttribute_Ok in E. subst el1. intros H.
    rewrite (IH _ (eq_trans (isElement_withAttribute _ _ _) Hel) H).
    cbn [existsb]. rewrite getAttribute_withAttribute by done.
    destruct (existsb _ classes); [by rewrite orb_true_r|].
    by rewrite orb_false_r.
Qed.

(** One row of a table: the style variables, the element and its
    [style] attribute. *)
Lemma convertTableRow_style (P : Platform)
  (convert : node -> res (option node)) (st : deserializer) (el : node)
  (vars : styleVars) (row : node) (el' : node) (vars' : styleVars) :
  isElement el = true ->
  convertTableRow P convert st (el, vars) row = Ok (el', vars') ->
  vars' = match tableStyleRowOf row with
          | Some kv => setStyleVar (fst kv) (snd kv) vars
          | None => vars
          end
  /\ isElement el' = true
  /\ getAttribute (str "style") el'
     = match tableStyleAttributeRowOf P row with
       | Some text => Some text
       | None => getAttribute (str "style") el
       end.
Proof.
  intros Hel. unfold convertTableRow, tableStyleRowOf, tableStyleAttributeRowOf.
  destruct (querySelectorAll (str "td") row) as [|c0 [|c1 [|c2 cells]]];
    try (intros [= <- <-]; by auto).
  - case_bool_decide; [|intros [= <- <-]; auto].
    destruct (streq _ _); intros [= <- <-]; [auto|].
    by rewrite isElement_appendChildren, getAttribute_appendChildren.
  - destruct (streq (trim (textContent c0)) (str "element-name"));
      [intros [= <- <-]; auto|].
    cbn [negb andb].
    destruct (startsWith (str "style-") (trim (textContent c0)));
      [intros [= <- <-]; auto|].
    cbn [negb andb].
    destruct (isReferenceRow _).
    { destruct (resolveReferences _ _ _ _ el) as [el1|e] eqn:E; simpl;
        [|done].
      intros [= <- <-].
      destruct (resolveReferences_appends _ _ _ _ _ _ E) as (cs & ->).
      by rewrite isElement_appendChildren, getAttribute_appendChildren. }
    cbn [negb andb].
    destruct (streq (trim (innerHTML P c1)) _); cbn [negb andb].
    + destruct (truthy (trim (textContent c0)));
        [|intros [= <- <-]; auto].
      cbn [andb].
      destruct (setAttribute P _ _ el) as [el1|e] eqn:E; simpl; [|done].
      intros [= <- <-]. apply setAttribute_Ok in E. subst el1.
      rewrite isElement_withAttribute, getAttribute_withAttribute by done.
      by destruct (streq _ _).
    + case_bool_decide.
      { intros [= <- <-].
        by rewrite isElement_appendChildren, getAttribute_appendChildren. }
      destruct (slotIfNamed P _ _) as [w|e]; simpl; [|done].
      intros [= <- <-]. by destruct el.
Qed.

(** The row loop of a table. *)
Lemma convertTableRows_style (P : Platform)
  (convert : node -> res (option node)) (st : deserializer)
  (rows : list node) (el : node) (vars : styleVars) (el' : node)
  (vars' : styleVars) :
  isElement el = true ->
  foldM (convertTableRow P convert st) rows (el, vars) = Ok (el', vars') ->
  vars' = fold_left (fun vs kv => setStyleVar (fst kv) (snd kv) vs)
            (omap tableStyleRowOf rows) vars
  /\ isElement el' = true
  /\ getAttribute (str "style") el'
     = match last (omap (tableStyleAttributeRowOf P) rows) with
       | Some text => Some text
       | None => getAttribute (str "style") el
       end.
Proof.
  revert el vars. induction rows as [|row rows IH]; intros el vars Hel.
  - intros [= <- <-]. by repeat split.
  - rewrite foldM_cons.
    destruct (convertTableRow P convert st (el, vars) row)
      as [[el1 vars1]|e] eqn:E; [rewrite bind_Ok | by rewrite bind_Throw].
    intros H.
    destruct (convertTableRow_style _ _ _ _ _ _ _ _ Hel E)
      as (Hv1 & Hel1 & Ha1).
    destruct (IH _ _ Hel1 H) as (Hv & He & Ha).
    split; [|split; [done|]].
    + rewrite Hv, Hv1.
      change (omap tableStyleRowOf (row :: rows))
        with (match tableStyleRowOf row with
              | Some kv => kv :: omap tableStyleRowOf rows
              | None => omap tableStyleRowOf rows
              end).
      by destruct (tableStyleRowOf row).
    + rewrite Ha, last_omap_cons.
      by destruct (last (omap (tableStyleAttributeRowOf P) rows)).
Qed.

(** C5 (amended).  The [style] attribute of the element that a
    converter returns for a component with an element name.  When the
    parser gives no element for the name the converter returns a new
    element without attributes, whatever the rows are.  Otherwise, when
    the component has style rows, the attribute is the merge of these
    rows: one [--name: value] pair for each distinct variable in
    first-seen order, joined by [; ], with the value of the last row that
    writes the variable.  When it has none, the merge writes nothing and
    the attribute is what the row loop left: the text of the last row
    that reaches the plain-text rule with a label that is [style] in some
    letter case; without such a row the empty value when a variant class
    of the block is [style]; without that the attribute of the created
    element.  The same for a table, which has no variant classes. *)
Theorem style_merge (P : Platform) (fuel : nat) (st : deserializer)
  (component output : node) (elementName : jsstring) :
  truthy elementName = true ->
  (forall blockClass,
      convertBlock P (S fuel) st component = Ok output ->
      List.find isCustomElementClass (classTokens (className component))
      = Some blockClass ->
      getElementName component = Some elementName ->
      getAttribute (str "style") output
      = match parseCustomElement P (toLowerCase P elementName) with
        | None => None
        | Some element =>
            match styleRows component with
            | [] => styleBeforeMerge P component element blockClass elementName
            | rows => Some (styleString (mergedStyles rows))
            end
        end)
  /\ (convertTable P (S fuel) st component = Ok (Some output) ->
      getElementNameFromTable component = Some elementName ->
      getAttribute (str "style") output
      = match parseCustomElement P (toLowerCase P elementName) with
        | None => None
        | Some element =>
            match tableStyleRows component with
            | [] => tableStyleBeforeMerge P component element
            | rows => Some (styleString (mergedStyles rows))
            end
        end).
Proof.
  intros Htruthy. split.
  - intros blockClass Hconv Hclass Hname.
    simpl in Hconv. unfold convertBlockBody in Hconv.
    rewrite Hclass, Hname, Htruthy in Hconv. simpl negb in Hconv.
    cbv iota in Hconv.
    destruct (parseCustomElement P (toLowerCase P elementName))
      as [element|] eqn:Hparse.
    2:{ unfold createElement in Hconv.
        destruct (validElementName P _); [|done]. by injection Hconv as <-. }
    fold (otherClasses component blockClass elementName) in Hconv.
    destruct (foldM (fun el cls => setAttribute P cls [] el) _ element)
      as [el1|e] eqn:E1;
      [rewrite bind_Ok in Hconv | by rewrite bind_Throw in Hconv].
    destruct (foldM (convertBlockRow P (convertBlock P fuel st) st) _ (el1, []))
      as [[el2 vars]|e] eqn:E2;
      [rewrite bind_Ok in Hconv | by rewrite bind_Throw in Hconv].
    assert (Hel : isElement element = true)
      by (by eapply parseCustomElement_isElement).
    destruct (variantClasses _ _ _ _ E1) as (He1 & _).
    destruct (convertBlockRows _ _ _ _ _ _ _ _ E2) as (Hvars & He2 & _).
    fold (styleRows component) in Hvars. rewrite fold_setStyleVar in Hvars.
    assert (Hel1 : isElement el1 = true) by congruence.
    assert (Hel2 : isElement el2 = true) by congruence.
    pose proof (convertBlockRows_styleAttribute _ _ _ _ _ _ _ _ Hel1 E2) as Ha2.
    pose proof (variantClasses_styleAttribute _ _ _ _ Hel E1) as Ha1.
    subst vars. unfold applyStyleVars in Hconv.
    destruct (styleRows component) as [|kv rows] eqn:Hrows.
    + simpl in Hconv. injection Hconv as <-.
      unfold styleBeforeMerge. rewrite Ha2.
      destruct (last _); [done | exact Ha1].
    + destruct (mergedStyles (kv :: rows)) as [|kv' vs] eqn:Hm.
      { by apply mergedStyles_nil in Hm. }
      rewrite setAttribute_style in Hconv. injection Hconv as <-.
      rewrite getAttribute_withAttribute by done. by rewrite streq_refl.
  - intros Hconv Hname.
    simpl in Hconv. unfold convertTableBody in Hconv.
    rewrite Hname, Htruthy in Hconv. simpl negb in Hconv. cbv iota in Hconv.
    destruct (parseCustomElement P (toLowerCase P elementName))
      as [element|] eqn:Hparse.
    2:{ unfold createElement in Hconv.
        destruct (validElementName P _); [|done]. by injection Hconv as <-. }
    destruct (foldM (convertTableRow P (convertTable P fuel st) st) _
                (element, []))
      as [[el2 vars]|e] eqn:E2;
      [rewrite bind_Ok in Hconv | by rewrite bind_Throw in Hconv].
    assert (Hel : isElement element = true)
      by (by eapply parseCustomElement_isElement).
    destruct (convertTableRows_style _ _ _ _ _ _ _ _ Hel E2)
      as (Hvars & Hel2 & Ha2).
    fold (tableStyleRows component) in Hvars.
    rewrite fold_setStyleVar in Hvars.
    subst vars. unfold applyStyleVars in Hconv.
    destruct (tableStyleRows component) as [|kv rows] eqn:Hrows.
    + simpl in Hconv. injection Hconv as <-. exact Ha2.
    + destruct (mergedStyles (kv :: rows)) as [|kv' vs] eqn:Hm.
      { by apply mergedStyles_nil in Hm. }
      rewrite setAttribute_style in Hconv. simpl in Hconv.
      injection Hconv as <-.
      rewrite getAttribute_withAttribute by done. by rewrite streq_refl.
Qed.

(** The rows [style-color: red], [style-size: 2px], [style-color: blue]
    give [style="--color: blue; --size: 2px"], in a block and in a
    table. *)
Lemma style_merge_witness :
  getAttribute (str "style")
    (TestPlatform.el "x-card"
       [("style", "--color: blue; --size: 2px")]%string [])
  = Some (styleString (mergedStyles (styleRows Examples.styledBlock)))
  /\ getAttribute (str "style")
       (TestPlatform.el "x-card"
          [("style", "--color: blue; --size: 2px")]%string [])
     = Some (styleString (mergedStyles (tableStyleRows Examples.styledTable))).
Proof.
  split.
  - refine (proj1 (style_merge Examples.browser 0 newDeserializer
                     Examples.styledBlock _ (str "x-card") _)
              (str "experience-element") _ _ _).
    + reflexivity.
    + vm_compute. reflexivity.
    + vm_compute. reflexivity.
    + vm_compute. reflexivity.
  - refine (proj2 (style_merge Examples.browser 0 newDeserializer
                     Examples.styledTable _ (str "x-card") _) _ _).
    + reflexivity.
    + vm_compute. reflexivity.
    + vm_compute. reflexivity.
Defined.

(** C5, as stated, fails for a block without style rows that has a
    plain-text row labelled [style]: the output has a [style]
    attribute. *)
Lemma style_merge_counterexample :
  styleRows Examples.styleAttributeBlock = []
  /\ convertBlock Examples.browser 1 (Examples.indexed [])
       Examples.styleAttributeBlock
     = Ok (TestPlatform.el "x-card" [("style", "color: red")]%string []).
Proof. vm_compute. split; reflexivity. Qed.
